(** * TextUtils: the entity matcher and the mask engine

    A shallow embedding of [textParser.ts] ([TextParser], its [patterns]) and
    [inputMask.ts] ([InputMask]) together with the properties the
    specification states about them.

    Conventions of the embedding.
    - A JavaScript string is a [list ascii]: a sequence of code units, here
      restricted to the Latin-1 range.  [str "..."] turns a literal into
      such a list.  Under this restriction iterating a string with
      [for ... of] and indexing it with [s[i]] see the same characters.
    - In [InputMask] a token pattern is the predicate it decides on one
      character, and a transform is a total function.
    - The module [Utf16] embeds the single-template algorithm without these
      restrictions: strings of 16-bit code units, a template walked by code
      point, patterns that keep a [lastIndex], transforms that may raise.
      [processValue_as_units] shows that [InputMask.processValue] is its
      restriction to Latin-1 strings and tokens of the first kind.
    - A JavaScript object used as a dictionary ([Record<string, T>]) is a
      [gmap (list ascii) T]; object spread [{...a, ...b}] is [b ∪ a]
      (stdpp's union prefers its left argument).
    - An optional property is an [option]; a test of its truthiness reads it
      with [truthy].
    - A method that can raise returns a [Completion]. *)

From Stdlib Require Import Ascii String.
From stdpp Require Import gmap strings list sorting.

Set Default Proof Using "Type".

(** ** Strings and characters *)

Definition str (s : string) : list ascii := list_ascii_of_string s.

Definition code (c : ascii) : N := N_of_ascii c.

(** [lo <= c <= hi] on code units: a range [lo-hi] of a character class. *)
Definition in_range (lo hi : ascii) (c : ascii) : bool :=
  ((code lo <=? code c) && (code c <=? code hi))%N.

Definition is_digit (c : ascii) : bool := in_range "0" "9" c.
Definition is_lower (c : ascii) : bool := in_range "a" "z" c.
Definition is_upper (c : ascii) : bool := in_range "A" "Z" c.
Definition is_letter (c : ascii) : bool := is_lower c || is_upper c.
Definition is_alnum (c : ascii) : bool := is_letter c || is_digit c.
Definition is_hex (c : ascii) : bool :=
  is_digit c || in_range "a" "f" c || in_range "A" "F" c.

(** [String.prototype.toLowerCase] and [toUpperCase] on one character.  The
    engine only calls them on characters that passed a token pattern made of
    ASCII letters and digits; on those the result is one character.  Other
    characters are returned unchanged. *)
Definition toLowerCase (c : ascii) : list ascii :=
  if is_upper c then [ascii_of_N (code c + 32)] else [c].

Definition toUpperCase (c : ascii) : list ascii :=
  if is_lower c then [ascii_of_N (code c - 32)] else [c].

(** Truthiness of an optional boolean: [undefined] and [false] are falsy. *)
Definition truthy (b : option bool) : bool := default false b.

(** ** Completions *)

Inductive JsError := TypeError.

Inductive Completion (A : Type) :=
| Normal (a : A)
| Throw (e : JsError).
Arguments Normal {A} a.
Arguments Throw {A} e.

(** ** The mask engine ([inputMask.ts]) *)

(** The second argument of [mask]: absent, a string or an options object. *)
Inductive Selector (O : Type) :=
| Absent
| Name (name : list ascii)
| Options (o : O).
Arguments Absent {O}.
Arguments Name {O} name.
Arguments Options {O} o.

(** [type MaskToken].  [pattern.test(char)] is run on a one-character string
    and is modelled by its characteristic function: a pattern without the
    flags [g] and [y].  [transform] is a total function.  [Utf16.MaskToken]
    below has neither restriction. *)
Record MaskToken := {
  pattern : ascii -> bool;
  optional : option bool;
  transform : option (ascii -> list ascii);
}.

Inductive MaskSpec :=
| One (m : list ascii)
| Many (ms : list (list ascii)).

(** [type MaskOptions]. *)
Record MaskOptions := {
  mask : MaskSpec;
  tokens : option (gmap (list ascii) MaskToken);
  placeholder : option (list ascii);
  autoClear : option bool;
  stripMask : option bool;
  allowEmpty : option bool;
}.

Module InputMask.

Definition token (p : ascii -> bool) (t : option (ascii -> list ascii)) : MaskToken :=
  {| pattern := p; optional := None; transform := t |}.

Definition DEFAULT_TOKENS : gmap (list ascii) MaskToken :=
  list_to_map [
    (str "9", token is_digit (Some (fun char => [char])));
    (str "a", token is_letter (Some toLowerCase));
    (str "A", token is_letter (Some toUpperCase));
    (str "*", token is_alnum None);
    (str "#", token is_alnum None);
    (str "x", token is_hex None);
    (str "X", token is_hex (Some toUpperCase))
  ].

Definition preset (m : string) (ph : option string) (ac ae : option bool)
    (tk : option (gmap (list ascii) MaskToken)) : MaskOptions :=
  {| mask := One (str m); tokens := tk; placeholder := str <$> ph;
     autoClear := ac; stripMask := None; allowEmpty := ae |}.

Definition PRESET_MASKS : gmap (list ascii) MaskOptions :=
  list_to_map [
    (str "phone", preset "(999) 999-9999" None (Some true) None None);
    (str "phoneExt", preset "(999) 999-9999? x99999" None (Some false) None None);
    (str "phoneInt", preset "+9 (999) 999-9999" None (Some true) None None);
    (str "date", preset "99/99/9999" (Some "mm/dd/yyyy") None None None);
    (str "time", preset "99:99" (Some "hh:mm") None None None);
    (str "datetime", preset "99/99/9999 99:99" (Some "mm/dd/yyyy hh:mm") None None None);
    (str "ssn", preset "999-99-9999" None (Some true) None None);
    (str "creditCard", preset "9999 9999 9999 9999" None (Some true) None None);
    (str "currency", preset "$999,999,999.99" None (Some false) (Some true) None);
    (str "ipv4", preset "999.999.999.999" None (Some true) None None);
    (str "mac", preset "XX:XX:XX:XX:XX:XX" None None None
       (Some {[ str "X" := token is_hex (Some toUpperCase) ]}))
  ].

(** The properties [PRESET_MASKS] inherits from [Object.prototype]: the [in]
    operator of [mask] finds them as well. *)
Definition Object_prototype_keys : list (list ascii) :=
  str <$> ["constructor"; "hasOwnProperty"; "isPrototypeOf";
           "propertyIsEnumerable"; "toLocaleString"; "toString"; "valueOf";
           "__proto__"; "__defineGetter__"; "__defineSetter__";
           "__lookupGetter__"; "__lookupSetter__"]%string.

(** An instance: [this.options] (all properties present) and [this.tokens]. *)
Record t := {
  options : MaskOptions;
  this_tokens : gmap (list ascii) MaskToken;
}.

(** [constructor(options?: MaskOptions)]. *)
Definition new (o : option MaskOptions) : t :=
  let opts :=
    {| mask := match o with
               | Some o => mask o      (* the only falsy mask is the empty string *)
               | None => One []
               end;
       tokens := Some (default ∅ (o ≫= tokens));
       placeholder := Some (match o ≫= placeholder with
                            | Some (c :: p) => c :: p
                            | _ => str "_"
                            end);
       autoClear := Some (default true (o ≫= autoClear));
       stripMask := Some (default false (o ≫= stripMask));
       allowEmpty := Some (default false (o ≫= allowEmpty)) |} in
  {| options := opts;
     this_tokens := default ∅ (tokens opts) ∪ DEFAULT_TOKENS |}.

(** The local variables of [processValue]. *)
Record Cursor := {
  result : list ascii;
  valueIndex : nat;
  isOptional : bool;
}.

Inductive Flow :=
| Return (r : option (list ascii))
| Continue (result : list ascii) (valueIndex : nat).

(** What [processValue] returns where a character is rejected outside
    optional mode or the input runs out: the empty string under [autoClear],
    else [null]. *)
Definition clear_or_null (options : MaskOptions) : option (list ascii) :=
  if truthy (autoClear options) then Some [] else None.

(** [token.transform ? token.transform(char) : char]. *)
Definition transformed (tok : MaskToken) (char : ascii) : list ascii :=
  match transform tok with
  | Some f => f char
  | None => [char]
  end.

(** The [while (valueIndex < value.length)] loop of a token.  [pending] is
    [value] from [valueIndex] on, so the loop ends when it is empty. *)
Fixpoint token_loop (tok : MaskToken) (options : MaskOptions) (isOptional : bool)
    (pending : list ascii) (valueIndex : nat) (result : list ascii) : Flow :=
  match pending with
  | [] => Continue result valueIndex
  | char :: pending =>
      let valueIndex := S valueIndex in
      if pattern tok char then Continue (result ++ transformed tok char) valueIndex
      else if negb isOptional then Return (clear_or_null options)
      else token_loop tok options isOptional pending valueIndex result
  end.

Inductive Step :=
| Stop (r : option (list ascii))
| Next (c : Cursor).

(** The body of the [for (const maskChar of pattern)] loop. *)
Definition mask_step (value : list ascii) (tokens : gmap (list ascii) MaskToken)
    (options : MaskOptions) (maskChar : ascii) (c : Cursor) : Step :=
  if length value <=? valueIndex c then
    Stop (if isOptional c then Some (result c) else clear_or_null options)
  else if Ascii.eqb maskChar "?" then
    Next {| result := result c; valueIndex := valueIndex c; isOptional := true |}
  else
    match tokens !! [maskChar] with
    | Some tok =>
        match token_loop tok options (isOptional c)
                (drop (valueIndex c) value) (valueIndex c) (result c) with
        | Return r => Stop r
        | Continue res vi =>
            Next {| result := res; valueIndex := vi; isOptional := isOptional c |}
        end
    | None =>
        let res := result c ++ [maskChar] in
        let vi := if decide (value !! valueIndex c = Some maskChar)
                  then S (valueIndex c) else valueIndex c in
        Next {| result := res; valueIndex := vi; isOptional := isOptional c |}
    end.

(** The loop itself: the cursor after the last character of [pattern], unless
    the body returned before. *)
Fixpoint mask_loop (value : list ascii) (tokens : gmap (list ascii) MaskToken)
    (options : MaskOptions) (pattern : list ascii) (c : Cursor) : Step :=
  match pattern with
  | [] => Next c
  | maskChar :: pattern =>
      match mask_step value tokens options maskChar c with
      | Stop r => Stop r
      | Next c => mask_loop value tokens options pattern c
      end
  end.

Definition start_cursor : Cursor :=
  {| result := []; valueIndex := 0; isOptional := false |}.

(** [processValue(value, pattern, tokens, options): string | null]; after
    the loop [result] is returned. *)
Definition processValue (value pattern : list ascii)
    (tokens : gmap (list ascii) MaskToken) (options : MaskOptions) : option (list ascii) :=
  match mask_loop value tokens options pattern start_cursor with
  | Stop r => r
  | Next c => Some (result c)
  end.

Definition masks_of (options : MaskOptions) : list (list ascii) :=
  match mask options with
  | Many ms => ms
  | One m => [m]
  end.

(** The loop of [applyMask]: the first pattern whose result is not [null]. *)
Fixpoint first_fit (f : list ascii -> option (list ascii)) (masks : list (list ascii))
    : option (list ascii) :=
  match masks with
  | [] => None
  | pattern :: masks =>
      match f pattern with
      | Some result => Some result
      | None => first_fit f masks
      end
  end.

(** [applyMask(value, options)].  With an empty array of masks [masks[0]] is
    [undefined], and [for ... of] over [undefined] raises a [TypeError]. *)
Definition applyMask (this : t) (value : list ascii) (options : MaskOptions)
    : Completion (list ascii) :=
  let masks := masks_of options in
  let tokens := default ∅ (tokens options) ∪ this_tokens this in
  match first_fit (fun pattern => processValue value pattern tokens options) masks with
  | Some result => Normal result
  | None =>
      if truthy (allowEmpty options) && bool_decide (value = []) then Normal []
      else
        match masks !! 0 with
        | Some pattern => Normal (default [] (processValue value pattern tokens options))
        | None => Throw TypeError
        end
  end.

(** [isComplete(value)]. *)
Definition isComplete (this : t) (value : list ascii) : bool :=
  existsb (fun pattern =>
             bool_decide (processValue value pattern (this_tokens this) (options this) ≠ None))
          (masks_of (options this)).

(** [stripMask(value)]: unless the stored [stripMask] is off, remove every
    character outside [0-9a-zA-Z]. *)
Definition stripMask (this : t) (value : list ascii) : list ascii :=
  if negb (truthy (stripMask (options this))) then value
  else filter (fun c => is_alnum c = true) value.

(** [mask(value, maskOpt?)].  A name that is an own key of [PRESET_MASKS]
    selects that preset.  A name [PRESET_MASKS] only inherits also passes the
    [in] test; the object found has no [mask], so [applyMask] runs
    [processValue] on [undefined] and [for ... of] raises a [TypeError].
    Any other string is not an object, so the stored options are used. *)
Definition mask (this : t) (value : list ascii) (maskOpt : Selector MaskOptions)
    : Completion (list ascii) :=
  match maskOpt with
  | Name name =>
      match PRESET_MASKS !! name with
      | Some o => applyMask this value o
      | None =>
          if bool_decide (name ∈ Object_prototype_keys) then Throw TypeError
          else applyMask this value (options this)
      end
  | Options o => applyMask this value o
  | Absent => applyMask this value (options this)
  end.

End InputMask.

(** ** The single-template algorithm over UTF-16 code units

    [InputMask] above reads strings as Latin-1 and a token as a predicate
    with a total transform.  The module below embeds [processValue] without
    these restrictions.  A string is a sequence of 16-bit code units.  The
    template is walked by code point, as [for ... of] does, while the value
    is indexed by code unit, as [value[valueIndex]] does.  [pattern.test]
    reads and writes the [lastIndex] of the pattern when it carries the flag
    [g] or [y], and [transform] may raise. *)

Module Utf16.

(** A code unit: a number below [2^16]. *)
Definition CodeUnit := N.

(** A literal of ASCII characters as code units. *)
Definition units (s : string) : list CodeUnit := code <$> str s.

(** Leading surrogates are [0xD800-0xDBFF], trailing ones [0xDC00-0xDFFF]. *)
Definition is_leading (u : CodeUnit) : bool := ((55296 <=? u) && (u <=? 56319))%N.
Definition is_trailing (u : CodeUnit) : bool := ((56320 <=? u) && (u <=? 57343))%N.

(** The string iterator ([CodePointAt] at each position): a leading
    surrogate followed by a trailing one is one character of two code units,
    any other code unit is a character by itself. *)
Fixpoint code_points (s : list CodeUnit) : list (list CodeUnit) :=
  match s with
  | [] => []
  | first :: rest =>
      match rest with
      | second :: rest' =>
          if is_leading first && is_trailing second
          then [first; second] :: code_points rest'
          else [first] :: code_points rest
      | [] => [[first]]
      end
  end.

(** A [RegExp] object as [RegExp.prototype.test] uses it on a string of one
    code unit.  [exec lastIndex u] is the end index of the match that
    [RegExpBuiltinExec] finds in the string [u] when it starts at
    [lastIndex], if there is one.  [flagged] tells whether the pattern has
    the flag [g] or [y]; only then is [lastIndex] read and written.
    [identity] tells objects apart: tokens may share one. *)
Record RegExpObject := {
  identity : nat;
  flagged : bool;
  exec : nat -> CodeUnit -> option nat;
}.

(** The [lastIndex] of the [RegExp] objects, [0] where none is recorded. *)
Definition Store := gmap nat nat.

(** [re.test(u)]: without [g] and [y] the search starts at [0] and
    [lastIndex] is left alone; with one of them it starts at [lastIndex],
    which becomes the end of the match, or [0] when there is none. *)
Definition test (re : RegExpObject) (u : CodeUnit) (σ : Store) : bool * Store :=
  if flagged re then
    match exec re (default 0 (σ !! identity re)) u with
    | Some e => (true, <[identity re := e]> σ)
    | None => (false, <[identity re := 0]> σ)
    end
  else
    match exec re 0 u with
    | Some _ => (true, σ)
    | None => (false, σ)
    end.

(** A pattern that is one character class, such as "/\d/" or "/[a-zA-Z]/":
    on a string of one code unit it matches at index [0] only, and ends at
    [1]. *)
Definition class (A : CodeUnit -> bool) (lastIndex : nat) (u : CodeUnit) : option nat :=
  if (lastIndex =? 0) && A u then Some 1 else None.

(** [type MaskToken]. *)
Record MaskToken := {
  pattern : RegExpObject;
  optional : option bool;
  transform : option (CodeUnit -> Completion (list CodeUnit));
}.

Inductive MaskSpec :=
| One (m : list CodeUnit)
| Many (ms : list (list CodeUnit)).

(** [type MaskOptions]. *)
Record MaskOptions := {
  mask : MaskSpec;
  tokens : option (gmap (list CodeUnit) MaskToken);
  placeholder : option (list CodeUnit);
  autoClear : option bool;
  stripMask : option bool;
  allowEmpty : option bool;
}.

Definition in_range (lo hi : ascii) (u : CodeUnit) : bool :=
  ((code lo <=? u) && (u <=? code hi))%N.

Definition is_digit (u : CodeUnit) : bool := in_range "0" "9" u.
Definition is_lower (u : CodeUnit) : bool := in_range "a" "z" u.
Definition is_upper (u : CodeUnit) : bool := in_range "A" "Z" u.
Definition is_letter (u : CodeUnit) : bool := is_lower u || is_upper u.
Definition is_alnum (u : CodeUnit) : bool := is_letter u || is_digit u.
Definition is_hex (u : CodeUnit) : bool :=
  is_digit u || in_range "a" "f" u || in_range "A" "F" u.

(** [toLowerCase] and [toUpperCase] on one character.  The default tokens
    call them only on ASCII letters and digits; other characters are
    returned unchanged. *)
Definition toLowerCase (u : CodeUnit) : Completion (list CodeUnit) :=
  Normal (if is_upper u then [(u + 32)%N] else [u]).

Definition toUpperCase (u : CodeUnit) : Completion (list CodeUnit) :=
  Normal (if is_lower u then [(u - 32)%N] else [u]).

(** A token whose pattern is a character class without flags. *)
Definition token (identity : nat) (A : CodeUnit -> bool)
    (t : option (CodeUnit -> Completion (list CodeUnit))) : MaskToken :=
  {| pattern := {| identity := identity; flagged := false; exec := class A |};
     optional := None; transform := t |}.

(** [DEFAULT_TOKENS]: seven patterns, each a [RegExp] object of its own. *)
Definition DEFAULT_TOKENS : gmap (list CodeUnit) MaskToken :=
  list_to_map [
    (units "9", token 0 is_digit (Some (fun char => Normal [char])));
    (units "a", token 1 is_letter (Some toLowerCase));
    (units "A", token 2 is_letter (Some toUpperCase));
    (units "*", token 3 is_alnum None);
    (units "#", token 4 is_alnum None);
    (units "x", token 5 is_hex None);
    (units "X", token 6 is_hex (Some toUpperCase))
  ].

(** The local variables of [processValue]. *)
Record Cursor := {
  result : list CodeUnit;
  valueIndex : nat;
  isOptional : bool;
}.

Inductive Flow :=
| Return (r : option (list CodeUnit))
| Raise (e : JsError)
| Continue (result : list CodeUnit) (valueIndex : nat).

(** [options.autoClear ? "" : null]. *)
Definition clear_or_null (options : MaskOptions) : option (list CodeUnit) :=
  if truthy (autoClear options) then Some [] else None.

(** The [while (valueIndex < value.length)] loop of a token; [pending] is
    [value] from [valueIndex] on.  [char] is the one code unit
    [value[valueIndex]]. *)
Fixpoint token_loop (tok : MaskToken) (options : MaskOptions) (isOptional : bool)
    (pending : list CodeUnit) (valueIndex : nat) (result : list CodeUnit) (σ : Store)
    : Flow * Store :=
  match pending with
  | [] => (Continue result valueIndex, σ)
  | char :: pending =>
      let valueIndex := S valueIndex in
      let '(accepted, σ) := test (pattern tok) char σ in
      if accepted then
        match transform tok with
        | Some f =>
            match f char with
            | Normal s => (Continue (result ++ s) valueIndex, σ)
            | Throw e => (Raise e, σ)
            end
        | None => (Continue (result ++ [char]) valueIndex, σ)
        end
      else if negb isOptional then (Return (clear_or_null options), σ)
      else token_loop tok options isOptional pending valueIndex result σ
  end.

Inductive Step :=
| Stop (r : Completion (option (list CodeUnit)))
| Next (c : Cursor).

(** The body of the [for (const maskChar of pattern)] loop; [maskChar] is a
    character of one or two code units.  [value[valueIndex] === maskChar]
    compares a string of one code unit with it. *)
Definition mask_step (value : list CodeUnit) (tokens : gmap (list CodeUnit) MaskToken)
    (options : MaskOptions) (maskChar : list CodeUnit) (c : Cursor) (σ : Store)
    : Step * Store :=
  if length value <=? valueIndex c then
    (Stop (Normal (if isOptional c then Some (result c) else clear_or_null options)), σ)
  else if bool_decide (maskChar = units "?") then
    (Next {| result := result c; valueIndex := valueIndex c; isOptional := true |}, σ)
  else
    match tokens !! maskChar with
    | Some tok =>
        match token_loop tok options (isOptional c)
                (drop (valueIndex c) value) (valueIndex c) (result c) σ with
        | (Return r, σ) => (Stop (Normal r), σ)
        | (Raise e, σ) => (Stop (Throw e), σ)
        | (Continue res vi, σ) =>
            (Next {| result := res; valueIndex := vi; isOptional := isOptional c |}, σ)
        end
    | None =>
        let res := result c ++ maskChar in
        let vi := if decide ((fun u => [u]) <$> value !! valueIndex c = Some maskChar)
                  then S (valueIndex c) else valueIndex c in
        (Next {| result := res; valueIndex := vi; isOptional := isOptional c |}, σ)
    end.

(** The loop over the characters of the template. *)
Fixpoint mask_loop (value : list CodeUnit) (tokens : gmap (list CodeUnit) MaskToken)
    (options : MaskOptions) (chars : list (list CodeUnit)) (c : Cursor) (σ : Store)
    : Step * Store :=
  match chars with
  | [] => (Next c, σ)
  | maskChar :: chars =>
      match mask_step value tokens options maskChar c σ with
      | (Stop r, σ) => (Stop r, σ)
      | (Next c, σ) => mask_loop value tokens options chars c σ
      end
  end.

Definition start_cursor : Cursor :=
  {| result := []; valueIndex := 0; isOptional := false |}.

(** [processValue(value, pattern, tokens, options): string | null], with
    the [lastIndex] values it leaves behind. *)
Definition processValue (value pattern : list CodeUnit)
    (tokens : gmap (list CodeUnit) MaskToken) (options : MaskOptions) (σ : Store)
    : Completion (option (list CodeUnit)) * Store :=
  match mask_loop value tokens options (code_points pattern) start_cursor σ with
  | (Stop r, σ) => (r, σ)
  | (Next c, σ) => (Normal (Some (result c)), σ)
  end.

End Utf16.

(** ** Regular expressions

    [String.prototype.matchAll] and the pattern matcher behind it, after the
    ECMAScript specification (22.2.2, Pattern Semantics): a pattern compiles
    to a backtracking [Matcher] in continuation-passing style.  Only what
    [patterns] uses is covered: character classes, sequence, disjunction,
    greedy quantifiers, capturing groups, [\b] and [\B], and the flags [g]
    and [i]. *)

Module RegExp.

Record MatchState := {
  endIndex : nat;
  captures : gmap nat (nat * nat);
}.

(** [out_of_fuel] is not part of the semantics: it marks the end of the
    recursion budget of [RepeatMatcher], which [compile_fuel] shows is never
    reached. *)
Inductive MatchResult :=
| failure
| out_of_fuel
| matched (y : MatchState).

Definition MatcherContinuation := MatchState -> MatchResult.
Definition Matcher := MatchState -> MatcherContinuation -> MatchResult.

(** The pattern grammar.  A non-capturing group [(?:r)] is [r] itself;
    [Group n r] is the [n]-th capturing group, counted by its left
    parenthesis. *)
Inductive Regex :=
| Empty
| Chars (A : ascii -> bool) (invert : bool)
| Seq (r1 r2 : Regex)
| Disjunction (r1 r2 : Regex)
| Quantified (r : Regex) (min : nat) (max : option nat)
| Group (n : nat) (r : Regex)
| WordBoundary (negated : bool).

(** The capturing groups inside a pattern. *)
Fixpoint parens (r : Regex) : list nat :=
  match r with
  | Empty | Chars _ _ | WordBoundary _ => []
  | Seq r1 r2 | Disjunction r1 r2 => parens r1 ++ parens r2
  | Quantified r _ _ => parens r
  | Group n r => n :: parens r
  end.

(** Upper- and lower-case counterparts inside Latin-1 ([U+00D7] and [U+00F7]
    are the signs between the accented letters). *)
Definition upper1 (c : ascii) : ascii :=
  if is_lower c || (in_range "224" "254" c && negb (Ascii.eqb c "247"))
  then ascii_of_N (code c - 32) else c.

Definition lower1 (c : ascii) : ascii :=
  if is_upper c || (in_range "192" "222" c && negb (Ascii.eqb c "215"))
  then ascii_of_N (code c + 32) else c.

Definition is_word (c : ascii) : bool := is_alnum c || Ascii.eqb c "_".

(** [\s]: WhiteSpace and LineTerminator code points below 256. *)
Definition is_space (c : ascii) : bool :=
  in_range "009" "013" c || Ascii.eqb c " " || Ascii.eqb c "160".

Section Semantics.

Variable Input : list ascii.
Variable IgnoreCase : bool.

(** [Canonicalize(rer, ch)] without the [u] flag: the upper-case form when it
    is one code unit.  The two Latin-1 letters whose upper-case form lies
    outside Latin-1 ([U+00B5], [U+00FF]) share it with no other Latin-1
    character, so they stand for their own class. *)
Definition Canonicalize (ch : ascii) : ascii :=
  if IgnoreCase then upper1 ch else ch.

(** The characters [a] with [Canonicalize a = Canonicalize ch]
    ([case_variants_spec]). *)
Definition case_variants (ch : ascii) : list ascii :=
  if IgnoreCase then [ch; upper1 ch; lower1 ch] else [ch].

Definition CharacterSetMatcher (A : ascii -> bool) (invert : bool) : Matcher :=
  fun x c =>
    match Input !! endIndex x with
    | None => failure
    | Some ch =>
        let found := existsb A (case_variants ch) in
        if xorb invert found
        then c {| endIndex := S (endIndex x); captures := captures x |}
        else failure
    end.

(** [IsWordChar(e)] and [IsWordChar(e - 1)]. *)
Definition IsWordChar (e : nat) : bool :=
  match Input !! e with
  | Some c => is_word c
  | None => false
  end.

Definition IsWordChar_before (e : nat) : bool :=
  match e with
  | 0 => false
  | S e => IsWordChar e
  end.

Definition clear (ps : list nat) (cap : gmap nat (nat * nat)) : gmap nat (nat * nat) :=
  foldr delete cap ps.

(** [RepeatMatcher(m, min, max, greedy = true, x, c, parenIndex, parenCount)]. *)
Fixpoint RepeatMatcher (fuel : nat) (m : Matcher) (min : nat) (max : option nat)
    (ps : list nat) (x : MatchState) (c : MatcherContinuation) : MatchResult :=
  match fuel with
  | 0 => out_of_fuel
  | S fuel =>
      if bool_decide (max = Some 0) then c x
      else
        let d : MatcherContinuation := fun y =>
          if bool_decide (min = 0) && bool_decide (endIndex y = endIndex x)
          then failure
          else RepeatMatcher fuel m (pred min) (pred <$> max) ps y c in
        let xr := {| endIndex := endIndex x; captures := clear ps (captures x) |} in
        if negb (bool_decide (min = 0)) then m xr d
        else
          match m xr d with
          | failure => c x
          | z => z
          end
  end.

Fixpoint compile (r : Regex) : Matcher :=
  match r with
  | Empty => fun x c => c x
  | Chars A invert => CharacterSetMatcher A invert
  | Seq r1 r2 => fun x c => compile r1 x (fun y => compile r2 y c)
  | Disjunction r1 r2 => fun x c =>
      match compile r1 x c with
      | failure => compile r2 x c
      | z => z
      end
  | Quantified r min max => fun x c =>
      RepeatMatcher (S (min + length Input)) (compile r) min max (parens r) x c
  | Group n r => fun x c =>
      compile r x (fun y =>
        c {| endIndex := endIndex y;
             captures := <[n := (endIndex x, endIndex y)]> (captures y) |})
  | WordBoundary negated => fun x c =>
      let a := IsWordChar_before (endIndex x) in
      let b := IsWordChar (endIndex x) in
      if xorb (xorb a b) negated then c x else failure
  end.

(** [substring(from, to)] of the input. *)
Definition slice (from to : nat) : list ascii :=
  take (to - from) (drop from Input).

(** The array [exec] returns: [index], [m[0]] and the captures [m[1]], ... *)
Record Match := {
  index : nat;
  whole : list ascii;
  groups : list (option (list ascii));
}.

Definition group (m : Match) (n : nat) : option (list ascii) :=
  mjoin (groups m !! pred n).

Definition make_match (r : Regex) (lastIndex : nat) (y : MatchState) : Match :=
  {| index := lastIndex;
     whole := slice lastIndex (endIndex y);
     groups := (fun n => (fun '(s, e) => slice s e) <$> captures y !! n)
               <$> seq 1 (length (parens r)) |}.

(** The search loop of [RegExpBuiltinExec]: try [lastIndex], [lastIndex + 1],
    ... up to the length of the input; [n] counts the start positions left. *)
Fixpoint search (r : Regex) (n : nat) (lastIndex : nat) : option (nat * MatchState) :=
  match n with
  | 0 => None
  | S n =>
      match compile r {| endIndex := lastIndex; captures := ∅ |} matched with
      | matched y => Some (lastIndex, y)
      | failure => search r n (S lastIndex)
      | out_of_fuel => None
      end
  end.

Definition RegExpBuiltinExec (r : Regex) (lastIndex : nat) : option (nat * MatchState) :=
  search r (S (length Input) - lastIndex) lastIndex.

(** *** The matches of a pattern as a relation

    [Sem r x y]: matching [r] from state [x] can hand state [y] to its
    continuation.  [compile_sound] shows that every result of [compile]
    arises this way. *)
Inductive RepSem (R : MatchState -> MatchState -> Prop) (ps : list nat)
    : nat -> option nat -> MatchState -> MatchState -> Prop :=
| rep_stop min max x :
    min = 0 \/ max = Some 0 ->
    RepSem R ps min max x x
| rep_step min max x y z :
    max <> Some 0 ->
    R {| endIndex := endIndex x; captures := clear ps (captures x) |} y ->
    RepSem R ps (pred min) (pred <$> max) y z ->
    RepSem R ps min max x z.

Fixpoint Sem (r : Regex) : MatchState -> MatchState -> Prop :=
  match r with
  | Empty => fun x y => y = x
  | Chars A invert => fun x y =>
      exists ch, Input !! endIndex x = Some ch
        /\ xorb invert (existsb A (case_variants ch)) = true
        /\ y = {| endIndex := S (endIndex x); captures := captures x |}
  | Seq r1 r2 => fun x z => exists y, Sem r1 x y /\ Sem r2 y z
  | Disjunction r1 r2 => fun x y => Sem r1 x y \/ Sem r2 x y
  | Quantified r min max => RepSem (Sem r) (parens r) min max
  | Group n r => fun x z =>
      exists y, Sem r x y
        /\ z = {| endIndex := endIndex y;
                  captures := <[n := (endIndex x, endIndex y)]> (captures y) |}
  | WordBoundary negated => fun x y =>
      y = x /\ xorb (xorb (IsWordChar_before (endIndex x)) (IsWordChar (endIndex x)))
                    negated = true
  end.

(** The iterator of [matchAll] for a global pattern: after a match
    [lastIndex] is its end, moved one further when the match is empty.
    [n] bounds the number of matches left. *)
Fixpoint matchAll_from (r : Regex) (n : nat) (lastIndex : nat) : list Match :=
  match n with
  | 0 => []
  | S n =>
      match RegExpBuiltinExec r lastIndex with
      | None => []
      | Some (i, y) =>
          let e := endIndex y in
          make_match r i y
            :: matchAll_from r n (if bool_decide (e = i) then S e else e)
      end
  end.

Definition matchAll (r : Regex) : list Match :=
  matchAll_from r (S (length Input)) 0.

End Semantics.

(** Pattern notation. *)
Definition chr (c : ascii) : Regex := Chars (Ascii.eqb c) false.
Definition oneof (s : string) : ascii -> bool := fun c => bool_decide (c ∈ str s).
Definition star (r : Regex) : Regex := Quantified r 0 None.
Definition plus (r : Regex) : Regex := Quantified r 1 None.
Definition opt (r : Regex) : Regex := Quantified r 0 (Some 1).
Definition at_least (n : nat) (r : Regex) : Regex := Quantified r n None.
Definition exactly (n : nat) (r : Regex) : Regex := Quantified r n (Some n).
Definition between (n m : nat) (r : Regex) : Regex := Quantified r n (Some m).
Fixpoint lit (s : list ascii) : Regex :=
  match s with
  | [] => Empty
  | [c] => chr c
  | c :: s => Seq (chr c) (lit s)
  end.
Fixpoint seqs (rs : list Regex) : Regex :=
  match rs with
  | [] => Empty
  | [r] => r
  | r :: rs => Seq r (seqs rs)
  end.

Definition digit : Regex := Chars is_digit false.
Definition or (A B : ascii -> bool) : ascii -> bool := fun c => A c || B c.

End RegExp.

(** ** The entity matcher ([textParser.ts]) *)

(** [type ParseOptions]; an absent flag is [None]. *)
Record ParseOptions := {
  urls : option bool;
  hashtags : option bool;
  mentions : option bool;
  emails : option bool;
  phones : option bool;
  markdownLinks : option bool;
  markdownHeadings : option bool;
  markdownLists : option bool;
  markdownEmphasis : option bool;
  all : option bool;
}.

Inductive MatchType := url_t | hashtag_t | mention_t | email_t | markdown_link_t | phone_t.

Record Position := { start : nat; end_ : nat }.

(** [type TextMatch]. *)
Record TextMatch := {
  type : MatchType;
  text : list ascii;
  value : list ascii;
  position : Position;
  url : option (list ascii);
}.

(** The [baseUrls] argument of [findLinkableElements]. *)
Record BaseUrls := {
  base_hashtags : option (list ascii);
  base_mentions : option (list ascii);
  base_assets : option (list ascii);
}.

Module patterns.
Import RegExp.

(** The optional path that ends both alternatives of [url]: a slash and any
    number of characters of the negated class of "\s", the whole group
    optional. *)
Definition optional_path : Regex :=
  opt (Seq (chr "/") (star (Chars is_space true))).

Definition tld : Regex := at_least 2 (Chars (in_range "a" "z") false).

(** [url], with flags [gi]: the disjunction of
    "\b(?:https?:\/\/|www\.)\S+\.[a-z]{2,}" followed by [optional_path], and
    "\b[a-z0-9-]+\.[a-z]{2,}" followed by [optional_path] and "\b". *)
Definition url : Regex :=
  Disjunction
    (seqs [WordBoundary false;
           Disjunction (seqs [lit (str "http"); opt (chr "s"); lit (str "://")])
                       (lit (str "www."));
           plus (Chars (fun c => negb (is_space c)) false);
           chr "."; tld; optional_path])
    (seqs [WordBoundary false;
           plus (Chars (or (in_range "a" "z") (or (in_range "0" "9") (oneof "-"))) false);
           chr "."; tld; optional_path; WordBoundary false]).

Definition tag_chars : ascii -> bool :=
  or (in_range "a" "z") (or (in_range "0" "9") (oneof "._-")).

(** "/\B#[a-z][a-z0-9._-]*\b/gi" *)
Definition hashtag : Regex :=
  seqs [WordBoundary true; chr "#"; Chars (in_range "a" "z") false;
        star (Chars tag_chars false); WordBoundary false].

(** "/\B@[a-z][a-z0-9._-]*\b/gi" *)
Definition mention : Regex :=
  seqs [WordBoundary true; chr "@"; Chars (in_range "a" "z") false;
        star (Chars tag_chars false); WordBoundary false].

(** "/\b[A-Z0-9._%+-]+@[A-Z0-9.-]+\.[A-Z]{2,}\b/gi" *)
Definition email : Regex :=
  seqs [WordBoundary false;
        plus (Chars (or (in_range "A" "Z") (or (in_range "0" "9") (oneof "._%+-"))) false);
        chr "@";
        plus (Chars (or (in_range "A" "Z") (or (in_range "0" "9") (oneof ".-"))) false);
        chr "."; at_least 2 (Chars (in_range "A" "Z") false); WordBoundary false].

(** "/(?:\+?(\d{1,3}))?[-. (]*(\d{3})[-. )]*(\d{3})[-. ]*(\d{4})(?: *x(\d+))?\b/g" *)
Definition phone : Regex :=
  seqs [opt (Seq (opt (chr "+")) (Group 1 (between 1 3 digit)));
        star (Chars (oneof "-. (") false);
        Group 2 (exactly 3 digit);
        star (Chars (oneof "-. )") false);
        Group 3 (exactly 3 digit);
        star (Chars (oneof "-. ") false);
        Group 4 (exactly 4 digit);
        opt (seqs [star (chr " "); chr "x"; Group 5 (plus digit)]);
        WordBoundary false].

Module markdown.
(** "/\[([^\]]+)\]\(([^)]+)\)/g" *)
Definition links : Regex :=
  seqs [chr "["; Group 1 (plus (Chars (oneof "]") true)); chr "]";
        chr "("; Group 2 (plus (Chars (oneof ")") true)); chr ")"].
End markdown.

End patterns.

Module TextParser.
Import RegExp.

(** [this.options] after the constructor: [options.all || options.urls], ...
    Only the truthiness of a flag is ever read. *)
Record t := {
  o_urls : bool;
  o_hashtags : bool;
  o_mentions : bool;
  o_emails : bool;
  o_phones : bool;
  o_markdownLinks : bool;
  o_markdownHeadings : bool;
  o_markdownLists : bool;
  o_markdownEmphasis : bool;
}.

Definition new (options : option ParseOptions) : t :=
  match options with
  | None =>    (* the default argument [{ all: true }] *)
      Build_t true true true true true true true true true
  | Some o =>
      let flag f := truthy (all o) || truthy (f o) in
      Build_t (flag urls) (flag hashtags) (flag mentions) (flag emails) (flag phones)
              (flag markdownLinks) (flag markdownHeadings) (flag markdownLists)
              (flag markdownEmphasis)
  end.

Definition startsWith (p s : list ascii) : bool := bool_decide (take (length p) s = p).

(** [s.replace] of the pattern "/\/$/" by the empty string: drop one
    trailing slash. *)
Definition strip_trailing_slash (s : list ascii) : list ascii :=
  match reverse s with
  | c :: r => if Ascii.eqb c "/" then reverse r else s
  | [] => s
  end.

(** [s.replace] of the pattern "/^\//" by the empty string: drop one
    leading slash. *)
Definition strip_leading_slash (s : list ascii) : list ascii :=
  match s with
  | c :: r => if Ascii.eqb c "/" then r else s
  | [] => s
  end.

(** A string is truthy when it is defined and not empty. *)
Definition nonempty (s : option (list ascii)) : option (list ascii) :=
  match s with
  | Some (c :: r) => Some (c :: r)
  | _ => None
  end.

(** [`${s}`] for a value that may be [undefined]. *)
Definition show (s : option (list ascii)) : list ascii := default (str "undefined") s.

Definition span (m : Match) : Position :=
  {| start := index m; end_ := index m + length (whole m) |}.

Definition url_match (m : Match) : TextMatch :=
  {| type := url_t; text := whole m; value := whole m; position := span m;
     url := Some (if startsWith (str "http") (whole m) then whole m
                  else str "https://" ++ whole m) |}.

Definition hashtag_match (baseUrls : option BaseUrls) (m : Match) : TextMatch :=
  let tag := drop 1 (whole m) in
  {| type := hashtag_t; text := whole m; value := tag; position := span m;
     url := Some (match nonempty (baseUrls ≫= base_hashtags) with
                  | Some base => strip_trailing_slash base ++ str "/" ++ tag
                  | None => str "/tags/" ++ tag
                  end) |}.

Definition mention_match (baseUrls : option BaseUrls) (m : Match) : TextMatch :=
  let username := drop 1 (whole m) in
  {| type := mention_t; text := whole m; value := username; position := span m;
     url := Some (match nonempty (baseUrls ≫= base_mentions) with
                  | Some base => strip_trailing_slash base ++ str "/" ++ username
                  | None => str "/users/" ++ username
                  end) |}.

Definition email_match (m : Match) : TextMatch :=
  {| type := email_t; text := whole m; value := whole m; position := span m;
     url := Some (str "mailto:" ++ whole m) |}.

(** The phone branch.  [formatted] and [value] grow by [+=] in three steps:
    the country code when it is truthy, the three groups, the extension
    when it is truthy. *)
Definition phone_match (m : Match) : TextMatch :=
  let countryCode := group m 1 in
  let area := group m 2 in
  let prefix := group m 3 in
  let line := group m 4 in
  let ext := group m 5 in
  let formatted :=
    match nonempty countryCode with
    | Some countryCode => str "+" ++ countryCode ++ str " "
    | None => []
    end
    ++ (str "(" ++ show area ++ str ") " ++ show prefix ++ str "-" ++ show line)
    ++ match nonempty ext with
       | Some ext => str " x" ++ ext
       | None => []
       end in
  let value :=
    match nonempty countryCode with
    | Some countryCode => str "+" ++ countryCode
    | None => []
    end
    ++ (show area ++ show prefix ++ show line)
    ++ match nonempty ext with
       | Some ext => str ";" ++ ext
       | None => []
       end in
  {| type := phone_t; text := whole m; value := formatted; position := span m;
     url := Some (str "tel:" ++ value) |}.

Definition markdown_link_match (baseUrls : option BaseUrls) (m : Match) : TextMatch :=
  let url := show (group m 2) in
  {| type := markdown_link_t; text := whole m; value := show (group m 1); position := span m;
     url := Some (match nonempty (baseUrls ≫= base_assets) with
                  | Some assets =>
                      if startsWith (str "http") url then url
                      else strip_trailing_slash assets ++ str "/" ++ strip_leading_slash url
                  | None => url
                  end) |}.

(** [matches.sort((a, b) => a.position.start - b.position.start)]:
    [Array.prototype.sort] is stable, and the stable sort of a list by a key
    is unique; insertion sort computes it. *)
Fixpoint insert_by_start (a : TextMatch) (l : list TextMatch) : list TextMatch :=
  match l with
  | [] => [a]
  | b :: l =>
      if start (position a) <=? start (position b) then a :: b :: l
      else b :: insert_by_start a l
  end.

Definition sort_by_start (l : list TextMatch) : list TextMatch :=
  foldr insert_by_start [] l.

(** The matches each enabled recognizer pushes, in the order of the source. *)
Definition collect (this : t) (text : list ascii) (baseUrls : option BaseUrls)
    : list TextMatch :=
  (if o_urls this then url_match <$> matchAll text true patterns.url else [])
  ++ (if o_hashtags this
      then hashtag_match baseUrls <$> matchAll text true patterns.hashtag else [])
  ++ (if o_mentions this
      then mention_match baseUrls <$> matchAll text true patterns.mention else [])
  ++ (if o_emails this then email_match <$> matchAll text true patterns.email else [])
  ++ (if o_phones this then phone_match <$> matchAll text false patterns.phone else [])
  ++ (if o_markdownLinks this
      then markdown_link_match baseUrls <$> matchAll text false patterns.markdown.links
      else []).

(** [findLinkableElements(text, baseUrls?)]. *)
Definition findLinkableElements (this : t) (text : list ascii)
    (baseUrls : option BaseUrls) : list TextMatch :=
  sort_by_start (collect this text baseUrls).

End TextParser.

(** ** [TextParser.parse]

    The fields of the object [parse] returns that the patterns above
    produce: [urls], [hashtags], [mentions], [emails], [phones] and
    [markdown.links].  (The headings and lists use the line anchors of the
    flag [m], which the pattern grammar above does not have.) *)

Module parse.
Import RegExp TextParser.

(** The callback of [matches.phones]: the formatted number. *)
Definition phone_string (m : Match) : list ascii :=
  let countryCode := group m 1 in
  let area := group m 2 in
  let prefix := group m 3 in
  let line := group m 4 in
  let ext := group m 5 in
  match nonempty countryCode with
  | Some countryCode => str "+" ++ countryCode ++ str " "
  | None => []
  end
  ++ (str "(" ++ show area ++ str ") " ++ show prefix ++ str "-" ++ show line)
  ++ match nonempty ext with
     | Some ext => str " x" ++ ext
     | None => []
     end.

Definition urls (this : TextParser.t) (text : list ascii) : list (list ascii) :=
  if o_urls this then whole <$> matchAll text true patterns.url else [].

Definition hashtags (this : TextParser.t) (text : list ascii) : list (list ascii) :=
  if o_hashtags this then whole <$> matchAll text true patterns.hashtag else [].

Definition mentions (this : TextParser.t) (text : list ascii) : list (list ascii) :=
  if o_mentions this then whole <$> matchAll text true patterns.mention else [].

Definition emails (this : TextParser.t) (text : list ascii) : list (list ascii) :=
  if o_emails this then whole <$> matchAll text true patterns.email else [].

Definition phones (this : TextParser.t) (text : list ascii) : list (list ascii) :=
  if o_phones this then phone_string <$> matchAll text false patterns.phone else [].

(** [markdown.links]: the pairs [{ text: m[1], url: m[2] }]. *)
Definition markdown_links (this : TextParser.t) (text : list ascii)
    : list (list ascii * list ascii) :=
  if o_markdownLinks this
  then (fun m => (show (group m 1), show (group m 2)))
         <$> matchAll text false patterns.markdown.links
  else [].

End parse.

(** ** The facade ([index.ts]) *)

(** The names [processText] accepts in [parse.types]. *)
Inductive TypeName := urls_n | hashtags_n | mentions_n | phones_n | emails_n.

Definition TypeName_string (n : TypeName) : list ascii :=
  match n with
  | urls_n => str "urls"
  | hashtags_n => str "hashtags"
  | mentions_n => str "mentions"
  | phones_n => str "phones"
  | emails_n => str "emails"
  end.

(** The strings of [TextMatch.type]. *)
Definition MatchType_string (t : MatchType) : list ascii :=
  match t with
  | url_t => str "url"
  | hashtag_t => str "hashtag"
  | mention_t => str "mention"
  | email_t => str "email"
  | markdown_link_t => str "markdown-link"
  | phone_t => str "phone"
  end.

Module TextUtils.

(** The argument of the constructor. *)
Record Options := {
  parser_options : option ParseOptions;
  mask_options : option MaskOptions;
}.

Record t := {
  parser : TextParser.t;
  inputMask : InputMask.t;
}.

Definition new (options : option Options) : t :=
  {| parser := TextParser.new (options ≫= parser_options);
     inputMask := InputMask.new (options ≫= mask_options) |}.

Definition findLinkableElements (this : t) (text : list ascii)
    (baseUrls : option BaseUrls) : list TextMatch :=
  TextParser.findLinkableElements (parser this) text baseUrls.

Definition isComplete (this : t) (value : list ascii) : bool :=
  InputMask.isComplete (inputMask this) value.

Definition formatPhoneNumber (this : t) (phone : list ascii) : Completion (list ascii) :=
  InputMask.mask (inputMask this) phone (Name (str "phone")).

Definition formatDate (this : t) (date : list ascii) : Completion (list ascii) :=
  InputMask.mask (inputMask this) date (Name (str "date")).

(** [formatCurrency(amount)] for a string; a number is first turned into
    its decimal string. *)
Definition formatCurrency (this : t) (amount : list ascii) : Completion (list ascii) :=
  InputMask.mask (inputMask this) amount (Name (str "currency")).

Definition extractUrls (this : t) (text : list ascii) : list (list ascii) :=
  parse.urls (parser this) text.

Definition extractMentions (this : t) (text : list ascii) : list (list ascii) :=
  parse.mentions (parser this) text.

Definition extractHashtags (this : t) (text : list ascii) : list (list ascii) :=
  parse.hashtags (parser this) text.

Definition extractPhones (this : t) (text : list ascii) : list (list ascii) :=
  parse.phones (parser this) text.

(** The options of [processText]. *)
Record ParseRequest := {
  types : option (list TypeName);
  baseUrls : option BaseUrls;
}.

Record MaskRequest := {
  mask_phones : option bool;
  mask_dates : option bool;
  mask_currency : option bool;
}.

Record ProcessOptions := {
  parse_request : option ParseRequest;
  mask_request : option MaskRequest;
}.

Record Processed := {
  matches : list TextMatch;
  filtered : list TextMatch;
  originalText : list ascii;
}.

Definition with_value (m : TextMatch) (v : list ascii) : TextMatch :=
  {| type := type m; text := text m; value := v; position := position m; url := url m |}.

(** The callback of [matches.forEach]: a phone record has its [value]
    replaced by [formatPhoneNumber] of it when [options.mask.phones] is
    truthy. *)
Definition mask_match (this : t) (request : MaskRequest) (m : TextMatch)
    : Completion TextMatch :=
  if bool_decide (MatchType_string (type m) = str "phone")
     && truthy (mask_phones request) then
    match formatPhoneNumber this (value m) with
    | Normal v => Normal (with_value m v)
    | Throw e => Throw e
    end
  else Normal m.

(** [forEach] over the array, stopping at the first exception. *)
Fixpoint for_each (f : TextMatch -> Completion TextMatch) (l : list TextMatch)
    : Completion (list TextMatch) :=
  match l with
  | [] => Normal []
  | m :: l =>
      match f m with
      | Throw e => Throw e
      | Normal m =>
          match for_each f l with
          | Throw e => Throw e
          | Normal l => Normal (m :: l)
          end
      end
  end.

(** [types.includes(m.type)]: a comparison of strings. *)
Definition includes (types : list TypeName) (m : TextMatch) : bool :=
  existsb (fun n => bool_decide (TypeName_string n = MatchType_string (type m))) types.

(** [processText(text, options)].  The records are changed in place, so
    [filtered], built afterwards from the same array, sees the new values. *)
Definition processText (this : t) (text : list ascii) (options : ProcessOptions)
    : Completion Processed :=
  let found := findLinkableElements this text (parse_request options ≫= baseUrls) in
  let masked :=
    match mask_request options with
    | Some request => for_each (mask_match this request) found
    | None => Normal found
    end in
  match masked with
  | Throw e => Throw e
  | Normal matches =>
      Normal {| matches := matches;
                filtered := match parse_request options ≫= types with
                            | Some types => List.filter (includes types) matches
                            | None => matches
                            end;
                originalText := text |}
  end.

Definition stripMask (this : t) (value : list ascii) : list ascii :=
  InputMask.stripMask (inputMask this) value.

Definition mask (this : t) (value : list ascii) (maskOpt : Selector MaskOptions)
    : Completion (list ascii) :=
  InputMask.mask (inputMask this) value maskOpt.

End TextUtils.


(** ** Vocabulary of the specification *)

(** Ascending [position.start]. *)
Definition by_start (a b : TextMatch) : Prop :=
  start (position a) <= start (position b).

(** [0 <= start <= end <= text.length] and [text.slice(start, end)] is the
    record's [text]. *)
Definition well_placed (input : list ascii) (m : TextMatch) : Prop :=
  start (position m) <= end_ (position m) <= length input
  /\ take (end_ (position m) - start (position m)) (drop (start (position m)) input)
     = text m.

(** The digit characters of a string, in order. *)
Definition digits (s : list ascii) : list ascii :=
  filter (fun c => is_digit c = true) s.

(** A value conforms to a template when the template has no optional marker
    and, position by position, a placeholder holds a character its token
    accepts and its transform leaves alone, and a literal holds itself. *)
Definition fits (tokens : gmap (list ascii) MaskToken) (maskChar char : ascii) : Prop :=
  match tokens !! [maskChar] with
  | Some tok => pattern tok char = true /\ InputMask.transformed tok char = [char]
  | None => char = maskChar
  end.

Definition conforms (tokens : gmap (list ascii) MaskToken)
    (template value : list ascii) : Prop :=
  ("?"%char ∉ template) /\ Forall2 (fits tokens) template value.


(** The shape of an output against its template and the input it is made
    from.  [Shaped tokens o template pending out]: [out] is what the
    characters of [template] contribute, in order, when optional mode is [o]
    and the input still to be read is [pending].
    - At the end of the template nothing more is contributed, whatever
      input is left.
    - When the input is exhausted in optional mode the output stops: the
      rest of the template, literals included, contributes nothing.
    - The marker contributes nothing and turns optional mode on.
    - A literal contributes itself, and passes over the next input
      character when that is the literal.
    - A placeholder contributes the transform of the next input character,
      which its token must accept; in optional mode it first passes over
      the characters its token rejects, and when it rejects all that is
      left the output stops.
    Outside optional mode nothing is contributed once the input is
    exhausted, and nothing by a placeholder whose token rejects the next
    character: then there is no output of this shape. *)
Inductive Shaped (tokens : gmap (list ascii) MaskToken)
    : bool -> list ascii -> list ascii -> list ascii -> Prop :=
| shaped_end o pending : Shaped tokens o [] pending []
| shaped_cut maskChar rest : Shaped tokens true (maskChar :: rest) [] []
| shaped_marker o rest char pending out :
    Shaped tokens true rest (char :: pending) out ->
    Shaped tokens o ("?"%char :: rest) (char :: pending) out
| shaped_literal o maskChar rest char pending out :
    maskChar <> "?"%char -> tokens !! [maskChar] = None ->
    Shaped tokens o rest (if decide (char = maskChar) then pending else char :: pending) out ->
    Shaped tokens o (maskChar :: rest) (char :: pending) (maskChar :: out)
| shaped_token o maskChar tok rest skipped char pending out :
    maskChar <> "?"%char -> tokens !! [maskChar] = Some tok ->
    Forall (fun skip => pattern tok skip = false) skipped ->
    (o = false -> skipped = []) ->
    pattern tok char = true ->
    Shaped tokens o rest pending out ->
    Shaped tokens o (maskChar :: rest) (skipped ++ char :: pending)
      (InputMask.transformed tok char ++ out)
| shaped_skipped maskChar tok rest skip skipped :
    maskChar <> "?"%char -> tokens !! [maskChar] = Some tok ->
    Forall (fun skip => pattern tok skip = false) (skip :: skipped) ->
    Shaped tokens true (maskChar :: rest) (skip :: skipped) [].



(** A token table that turns an accepted character into one character. *)
Definition one_for_one (tokens : gmap (list ascii) MaskToken) : Prop :=
  forall maskChar tok char,
    tokens !! [maskChar] = Some tok -> pattern tok char = true ->
    length (InputMask.transformed tok char) = 1.

(** The options hold at least one template. *)
Definition masks_nonempty (options : MaskOptions) : Prop :=
  InputMask.masks_of options <> [].

(** Options that only set some fields. *)
Definition only_mask (m : MaskSpec) (ac : option bool) : MaskOptions :=
  {| mask := m; tokens := None; placeholder := None; autoClear := ac;
     stripMask := None; allowEmpty := None |}.



(** The text of the scenario of the specification and of the README. *)
Definition scenario : list ascii :=
  str "Call 1234567890 or visit https://example.com! #support @sarah".

(** *** Invariants of the pattern matcher *)

Section Invariants.
Import RegExp.

Variable Input : list ascii.

(** A matcher that calls its continuation only further on in the input, and
    so never uses up the recursion budget of [RepeatMatcher]. *)
Definition fueled (m : Matcher) : Prop :=
  forall x c, endIndex x <= length Input ->
    (forall y, endIndex x <= endIndex y <= length Input -> c y <> out_of_fuel) ->
    m x c <> out_of_fuel.

(** A pattern (without the flag [i]) that sets no capture. *)
Definition capture_free (r : Regex) : Prop :=
  forall x y, Sem Input false r x y -> captures y = captures x.

(** A pattern that sets no capture and matches no digit. *)
Definition digit_free (r : Regex) : Prop :=
  forall x y, Sem Input false r x y ->
    captures y = captures x /\ digits (slice Input (endIndex x) (endIndex y)) = [].

(** The captured string of group [n] in a state, empty when undefined. *)
Definition cap (x : MatchState) (n : nat) : list ascii :=
  match captures x !! n with
  | Some (s, e) => slice Input s e
  | None => []
  end.

(** The invariant of a match of [patterns.phone] that started at [i]: the
    digits read so far are the digits of the groups captured so far, in the
    order of the groups; no group from [k] on is set yet. *)
Definition accounted (i k : nat) (x : MatchState) : Prop :=
  i <= endIndex x /\ endIndex x <= length Input
  /\ (forall n, k <= n -> captures x !! n = None)
  /\ digits (slice Input i (endIndex x))
     = digits (cap x 1 ++ cap x 2 ++ cap x 3 ++ cap x 4 ++ cap x 5).

End Invariants.

(** All code units of the Latin-1 range. *)
Definition all_ascii : list ascii := ascii_of_nat <$> seq 0 256.

(** *** Vocabulary of the further properties *)

(** The least number of characters a match of a pattern takes. *)
Fixpoint min_length (r : RegExp.Regex) : nat :=
  match r with
  | RegExp.Empty | RegExp.WordBoundary _ => 0
  | RegExp.Chars _ _ => 1
  | RegExp.Seq r1 r2 => min_length r1 + min_length r2
  | RegExp.Disjunction r1 r2 => Nat.min (min_length r1) (min_length r2)
  | RegExp.Quantified r min max =>
      match max with
      | Some k => Nat.min min k
      | None => min
      end * min_length r
  | RegExp.Group _ r => min_length r
  end.

Global Instance MatchType_eq_dec : EqDecision MatchType.
Proof. solve_decision. Defined.

(** The records of one type in a list. *)
Definition of_type (t : MatchType) (l : list TextMatch) : list TextMatch :=
  filter (fun m => type m = t) l.

(** The records the recognizer of a type pushes, in the order of its
    matches. *)
Definition pushed (t : MatchType) (this : TextParser.t) (input : list ascii)
    (baseUrls : option BaseUrls) : list TextMatch :=
  match t with
  | url_t =>
      if TextParser.o_urls this
      then TextParser.url_match <$> RegExp.matchAll input true patterns.url else []
  | hashtag_t =>
      if TextParser.o_hashtags this
      then TextParser.hashtag_match baseUrls <$> RegExp.matchAll input true patterns.hashtag
      else []
  | mention_t =>
      if TextParser.o_mentions this
      then TextParser.mention_match baseUrls <$> RegExp.matchAll input true patterns.mention
      else []
  | email_t =>
      if TextParser.o_emails this
      then TextParser.email_match <$> RegExp.matchAll input true patterns.email else []
  | phone_t =>
      if TextParser.o_phones this
      then TextParser.phone_match <$> RegExp.matchAll input false patterns.phone else []
  | markdown_link_t =>
      if TextParser.o_markdownLinks this
      then TextParser.markdown_link_match baseUrls
             <$> RegExp.matchAll input false patterns.markdown.links
      else []
  end.

(** Matches that follow one another without overlap. *)
Definition chained (a b : RegExp.Match) : Prop :=
  RegExp.index a + length (RegExp.whole a) <= RegExp.index b.

(** Records that follow one another without overlap. *)
Definition precedes (a b : TextMatch) : Prop :=
  end_ (position a) <= start (position b).

(** The placeholders of a template under a token table. *)
Definition placeholders (tokens : gmap (list ascii) MaskToken) (template : list ascii) : nat :=
  length (filter (fun maskChar => is_Some (tokens !! [maskChar])) template).

(** A token table whose placeholders keep what they produce: the transform
    of an accepted character is one character, which the token accepts and
    leaves alone. *)
Definition settled (tokens : gmap (list ascii) MaskToken) : Prop :=
  forall maskChar tok char,
    tokens !! [maskChar] = Some tok -> pattern tok char = true ->
    exists char', InputMask.transformed tok char = [char']
                  /\ pattern tok char' = true
                  /\ InputMask.transformed tok char' = [char'].

(** The same for one token, as a check over all characters. *)
Definition settled_token (tok : MaskToken) : bool :=
  forallb (fun char =>
             implb (pattern tok char)
                   match InputMask.transformed tok char with
                   | [char'] => pattern tok char'
                                && bool_decide (InputMask.transformed tok char' = [char'])
                   | _ => false
                   end)
          (ascii_of_nat <$> seq 0 256).

(** A template made of the placeholder [9] and of literals that are neither
    digits, nor the marker, nor keys of the token table. *)
Definition digit_template (tokens : gmap (list ascii) MaskToken) (template : list ascii)
    : Prop :=
  Forall (fun maskChar =>
            maskChar = "9"%char
            \/ (maskChar <> "?"%char /\ tokens !! [maskChar] = None
                /\ is_alnum maskChar = false))
         template.

(** A token table in which [9] is the digit placeholder of the defaults. *)
Definition nine_is_digit (tokens : gmap (list ascii) MaskToken) : Prop :=
  exists tok, tokens !! [ "9"%char ] = Some tok
              /\ (forall char, pattern tok char = is_digit char)
              /\ (forall char, InputMask.transformed tok char = [char]).

(** A digit template with its placeholders filled, in order, from a string. *)
Fixpoint fill (template digits : list ascii) : list ascii :=
  match template with
  | [] => []
  | maskChar :: template =>
      if Ascii.eqb maskChar "9" then
        match digits with
        | d :: digits => d :: fill template digits
        | [] => []
        end
      else maskChar :: fill template digits
  end.

Definition with_allowEmpty (ae : option bool) (o : MaskOptions) : MaskOptions :=
  {| mask := mask o; tokens := tokens o; placeholder := placeholder o;
     autoClear := autoClear o; stripMask := stripMask o; allowEmpty := ae |}.

(** The record [processText] leaves for a phone record when it masks
    phones: a number with a country code loses its value, any other keeps
    the fourteen characters of area code, prefix and line. *)
Definition masked_phone_value (v : list ascii) : list ascii :=
  match v with
  | c :: _ => if Ascii.eqb c "+" then [] else take 14 v
  | [] => []
  end.

(** The flag of the recognizer that makes the records of a type. *)
Definition enabled (this : TextParser.t) (t : MatchType) : bool :=
  match t with
  | url_t => TextParser.o_urls this
  | hashtag_t => TextParser.o_hashtags this
  | mention_t => TextParser.o_mentions this
  | email_t => TextParser.o_emails this
  | phone_t => TextParser.o_phones this
  | markdown_link_t => TextParser.o_markdownLinks this
  end.

(** A base URL, when given, that is not empty and does not end in a slash. *)
Definition plain_base (base : option (list ascii)) : Prop :=
  forall b, base = Some b -> b <> [] /\ last b <> Some "/"%char.

(** The base URLs with a slash added to each. *)
Definition slashed (baseUrls : BaseUrls) : BaseUrls :=
  {| base_hashtags := (fun b => b ++ str "/") <$> base_hashtags baseUrls;
     base_mentions := (fun b => b ++ str "/") <$> base_mentions baseUrls;
     base_assets := (fun b => b ++ str "/") <$> base_assets baseUrls |}.

(** *** The vocabulary over code units *)

(** The pattern of a token matches the string of one code unit. *)
Definition accepts (tok : Utf16.MaskToken) (u : Utf16.CodeUnit) : bool :=
  match Utf16.exec (Utf16.pattern tok) 0 u with
  | Some _ => true
  | None => false
  end.

(** [token.transform ? token.transform(char) : char]. *)
Definition transformed_units (tok : Utf16.MaskToken) (u : Utf16.CodeUnit)
    : Completion (list Utf16.CodeUnit) :=
  match Utf16.transform tok with
  | Some f => f u
  | None => Normal [u]
  end.

(** A character of the value fits a character of the template: at a
    placeholder it is one code unit that the token accepts and its
    transform leaves alone, at a literal it is the literal. *)
Definition fits_units (tokens : gmap (list Utf16.CodeUnit) Utf16.MaskToken)
    (maskChar char : list Utf16.CodeUnit) : Prop :=
  match tokens !! maskChar with
  | Some tok => exists u, char = [u] /\ accepts tok u = true
                          /\ transformed_units tok u = Normal [u]
  | None => char = maskChar
  end.

(** The value conforms to the template, character by character. *)
Definition conforms_units (tokens : gmap (list Utf16.CodeUnit) Utf16.MaskToken)
    (template value : list Utf16.CodeUnit) : Prop :=
  (Utf16.units "?" ∉ Utf16.code_points template)
  /\ Forall2 (fits_units tokens) (Utf16.code_points template) (Utf16.code_points value).

(** No pattern of the table has the flag [g] or [y]. *)
Definition unflagged (tokens : gmap (list Utf16.CodeUnit) Utf16.MaskToken) : Prop :=
  forall maskChar tok,
    tokens !! maskChar = Some tok -> Utf16.flagged (Utf16.pattern tok) = false.

(** The placeholders keep what they produce: the transform of an accepted
    character returns one character, which the token accepts and leaves
    alone. *)
Definition settled_units (tokens : gmap (list Utf16.CodeUnit) Utf16.MaskToken) : Prop :=
  forall maskChar tok u,
    tokens !! maskChar = Some tok -> accepts tok u = true ->
    exists u', transformed_units tok u = Normal [u']
               /\ accepts tok u' = true
               /\ transformed_units tok u' = Normal [u'].

(** Every character of the string is one code unit: it holds no surrogate
    pair. *)
Definition single_units (s : list Utf16.CodeUnit) : Prop :=
  Forall (fun char => length char = 1) (Utf16.code_points s).

(** The same for one token, as a check over the ASCII code units. *)
Definition settled_units_token (tok : Utf16.MaskToken) : bool :=
  forallb (fun u =>
             implb (accepts tok u)
                   match transformed_units tok u with
                   | Normal [u'] =>
                       accepts tok u'
                       && match transformed_units tok u' with
                          | Normal [u''] => N.eqb u'' u'
                          | _ => false
                          end
                   | _ => false
                   end)
          (N.of_nat <$> seq 0 128).

(** A Latin-1 string as code units, and the tokens and options of
    [InputMask] as those of [Utf16]: a predicate becomes a character class
    without flags, a transform one that does not raise. *)
Definition as_units (s : list ascii) : list Utf16.CodeUnit := code <$> s.

Definition as_units_token (tok : MaskToken) : Utf16.MaskToken :=
  {| Utf16.pattern :=
       {| Utf16.identity := 0; Utf16.flagged := false;
          Utf16.exec := Utf16.class (fun u => (u <? 256)%N && pattern tok (ascii_of_N u)) |};
     Utf16.optional := optional tok;
     Utf16.transform := (fun f u => Normal (as_units (f (ascii_of_N u)))) <$> transform tok |}.

Definition as_units_tokens (tokens : gmap (list ascii) MaskToken)
    : gmap (list Utf16.CodeUnit) Utf16.MaskToken :=
  kmap as_units (as_units_token <$> tokens).

Definition as_units_options (options : MaskOptions) : Utf16.MaskOptions :=
  {| Utf16.mask := match mask options with
                   | One m => Utf16.One (as_units m)
                   | Many ms => Utf16.Many (as_units <$> ms)
                   end;
     Utf16.tokens := as_units_tokens <$> tokens options;
     Utf16.placeholder := as_units <$> placeholder options;
     Utf16.autoClear := autoClear options;
     Utf16.stripMask := stripMask options;
     Utf16.allowEmpty := allowEmpty options |}.

Definition as_units_flow (f : InputMask.Flow) : Utf16.Flow :=
  match f with
  | InputMask.Return r => Utf16.Return (as_units <$> r)
  | InputMask.Continue res vi => Utf16.Continue (as_units res) vi
  end.

Definition as_units_cursor (c : InputMask.Cursor) : Utf16.Cursor :=
  {| Utf16.result := as_units (InputMask.result c);
     Utf16.valueIndex := InputMask.valueIndex c;
     Utf16.isOptional := InputMask.isOptional c |}.

Definition as_units_step (s : InputMask.Step) : Utf16.Step :=
  match s with
  | InputMask.Stop r => Utf16.Stop (Normal (as_units <$> r))
  | InputMask.Next c => Utf16.Next (as_units_cursor c)
  end.

(** U+1F600, a character of two code units. *)
Definition grinning_face : list Utf16.CodeUnit := [55357; 56832]%N.

(** Options that only set [autoClear]. *)
Definition only_autoClear (ac : option bool) : Utf16.MaskOptions :=
  {| Utf16.mask := Utf16.One []; Utf16.tokens := None; Utf16.placeholder := None;
     Utf16.autoClear := ac; Utf16.stripMask := None; Utf16.allowEmpty := None |}.

(** A token table whose placeholder [9] is the pattern "/\d/g". *)
Definition global_digit : gmap (list Utf16.CodeUnit) Utf16.MaskToken :=
  {[ Utf16.units "9" :=
       {| Utf16.pattern := {| Utf16.identity := 0; Utf16.flagged := true;
                              Utf16.exec := Utf16.class Utf16.is_digit |};
          Utf16.optional := None; Utf16.transform := None |} ]}.

(** * Properties *)

(** ** The pattern matcher *)

Section RegExpFacts.
Import RegExp.

Variable Input : list ascii.
Variable IgnoreCase : bool.

Local Abbreviation compile := (compile Input IgnoreCase).
Local Abbreviation Sem := (Sem Input IgnoreCase).
Local Abbreviation slice := (slice Input).
Local Abbreviation fueled := (fueled Input).

(** Every match of [compile] is a match of the relation. *)
Lemma RepeatMatcher_sound (m : Matcher) (R : MatchState -> MatchState -> Prop) ps :
  (forall x c z, m x c = matched z -> exists y, R x y /\ c y = matched z) ->
  forall fuel min max x c z,
    RepeatMatcher fuel m min max ps x c = matched z ->
    exists y, RepSem R ps min max x y /\ c y = matched z.
Proof.
  intros Hm. induction fuel as [|fuel IH]; intros min max x c z; simpl; [done|].
  case_bool_decide as Hmax.
  { intros Hc. exists x. split; [apply rep_stop; by right | done]. }
  set (d := fun y : MatchState => _).
  assert (Hd : forall y z, d y = matched z ->
            exists y', RepSem R ps (pred min) (pred <$> max) y y' /\ c y' = matched z).
  { intros y z'. unfold d. destruct (_ && _); [done|]. apply IH. }
  assert (Hstep : forall z,
            m {| endIndex := endIndex x; captures := clear ps (captures x) |} d = matched z ->
            exists y, RepSem R ps min max x y /\ c y = matched z).
  { intros z' Hz. apply Hm in Hz as (y & Hy & Hz). apply Hd in Hz as (y' & Hy' & Hz).
    exists y'. split; [|done]. by eapply rep_step. }
  case_bool_decide as Hmin; simpl.
  - destruct (m _ d) as [| |z'] eqn:E; try done.
    + intros Hc. exists x. split; [apply rep_stop; by left | done].
    + intros [= ->]. by apply Hstep.
  - apply Hstep.
Qed.

Lemma compile_sound r : forall x c z,
  compile r x c = matched z -> exists y, Sem r x y /\ c y = matched z.
Proof.
  induction r as [|A inv|r1 IH1 r2 IH2|r1 IH1 r2 IH2|r IH min max|n r IH|neg];
    intros x c z; [simpl..|idtac|simpl|simpl].
  - intros H. by exists x.
  - unfold CharacterSetMatcher. destruct (Input !! endIndex x) as [ch|] eqn:E; [|done].
    destruct (xorb _ _) eqn:F; [|done]. intros H. eexists. split; [|exact H]. by exists ch.
  - intros H. apply IH1 in H as (y & Hy & H). apply IH2 in H as (y' & Hy' & H).
    exists y'. split; [by exists y | done].
  - destruct (compile r1 x c) as [| |z'] eqn:E; try done.
    + intros H. apply IH2 in H as (y & Hy & H). exists y. split; [by right | done].
    + intros [= ->]. apply IH1 in E as (y & Hy & H). exists y. split; [by left | done].
  - apply (RepeatMatcher_sound (compile r) (Sem r)), IH.
  - intros H. apply IH in H as (y & Hy & H). eexists. split; [|exact H]. by exists y.
  - destruct (xorb _ _) eqn:F; [|done]. intros H. by exists x.
Qed.

(** A match only moves forward and stays inside the input. *)
Lemma RepSem_bounds (R : MatchState -> MatchState -> Prop) ps min max x y :
  (forall x y, R x y -> endIndex x <= endIndex y
                        /\ (endIndex x <= length Input -> endIndex y <= length Input)) ->
  RepSem R ps min max x y ->
  endIndex x <= endIndex y /\ (endIndex x <= length Input -> endIndex y <= length Input).
Proof.
  intros HR. induction 1 as [|min max x y z _ Hxy _ IH]; [lia|].
  apply HR in Hxy. simpl in Hxy. lia.
Qed.

Lemma Sem_bounds r : forall x y,
  Sem r x y ->
  endIndex x <= endIndex y /\ (endIndex x <= length Input -> endIndex y <= length Input).
Proof.
  induction r as [|A inv|r1 IH1 r2 IH2|r1 IH1 r2 IH2|r IH min max|n r IH|neg];
    intros x y; simpl.
  - intros ->. lia.
  - intros (ch & Hch & _ & ->). simpl. apply lookup_lt_Some in Hch. lia.
  - intros (z & H1 & H2). apply IH1 in H1. apply IH2 in H2. lia.
  - intros [H|H]; [apply IH1 in H | apply IH2 in H]; lia.
  - apply RepSem_bounds, IH.
  - intros (z & H & ->). apply IH in H. simpl. lia.
  - intros [-> _]. lia.
Qed.

(** The recursion budget of [RepeatMatcher] is never used up. *)
Lemma RepeatMatcher_fuel (m : Matcher) ps :
  fueled m ->
  forall fuel min max x c,
    min + (length Input - endIndex x) < fuel ->
    endIndex x <= length Input ->
    (forall y, endIndex x <= endIndex y <= length Input -> c y <> out_of_fuel) ->
    RepeatMatcher fuel m min max ps x c <> out_of_fuel.
Proof.
  intros Hm. induction fuel as [|fuel IH]; intros min max x c Hfuel Hx Hc; [lia|].
  simpl. case_bool_decide as Hmax; [apply Hc; lia|].
  set (d := fun y : MatchState => _).
  assert (Hd : forall y, endIndex x <= endIndex y <= length Input -> d y <> out_of_fuel).
  { intros y Hy. unfold d. case_bool_decide as Hmin; case_bool_decide as He; simpl; try done.
    all: apply IH; [lia | lia | intros y' Hy'; apply Hc; lia]. }
  assert (Hstep : m {| endIndex := endIndex x; captures := clear ps (captures x) |} d
                  <> out_of_fuel) by (apply Hm; simpl; [lia | done]).
  case_bool_decide as Hmin; simpl; [|done].
  destruct (m _ d); [apply Hc; lia | done | done].
Qed.

Lemma compile_fueled r : fueled (compile r).
Proof.
  induction r as [|A inv|r1 IH1 r2 IH2|r1 IH1 r2 IH2|r IH min max|n r IH|neg];
    intros x c Hx Hc; [simpl..|idtac|simpl|simpl].
  - apply Hc. lia.
  - unfold CharacterSetMatcher. destruct (Input !! endIndex x) as [ch|] eqn:E; [|done].
    apply lookup_lt_Some in E. destruct (xorb _ _); [|done]. apply Hc. simpl. lia.
  - apply IH1; [done|]. intros y Hy. apply IH2; [lia|]. intros y' Hy'. apply Hc. lia.
  - specialize (IH1 x c Hx Hc). destruct (compile r1 x c); [by apply IH2 | done | done].
  - apply (RepeatMatcher_fuel (compile r)); [done | lia | done | done].
  - apply IH; [done|]. intros y Hy. apply Hc. simpl. lia.
  - destruct (xorb _ _); [|done]. apply Hc. lia.
Qed.

Lemma compile_fuel r lastIndex :
  lastIndex <= length Input ->
  compile r {| endIndex := lastIndex; captures := ∅ |} matched <> out_of_fuel.
Proof. intros H. by apply compile_fueled. Qed.

(** The characters [CharacterSetMatcher] tries are those the specification
    names: the ones with the canonical form of the input character. *)
Lemma all_ascii_complete (a : ascii) : a ∈ all_ascii.
Proof.
  unfold all_ascii. apply list_elem_of_fmap. exists (nat_of_ascii a).
  split; [by rewrite ascii_nat_embedding|].
  apply elem_of_seq. pose proof (nat_ascii_bounded a). lia.
Qed.

Lemma case_variants_spec (a ch : ascii) :
  a ∈ case_variants IgnoreCase ch
  <-> Canonicalize IgnoreCase a = Canonicalize IgnoreCase ch.
Proof.
  unfold case_variants, Canonicalize. destruct IgnoreCase.
  - assert (H : forallb (fun ch => forallb (fun a =>
                  Bool.eqb (bool_decide (a ∈ [ch; upper1 ch; lower1 ch]))
                           (Ascii.eqb (upper1 a) (upper1 ch))) all_ascii) all_ascii = true)
      by (vm_compute; reflexivity).
    rewrite forallb_forall in H.
    specialize (H ch (proj1 (list_elem_of_In _ _) (all_ascii_complete ch))).
    rewrite forallb_forall in H.
    specialize (H a (proj1 (list_elem_of_In _ _) (all_ascii_complete a))).
    apply Bool.eqb_prop in H. rewrite <- Ascii.eqb_eq, <- H.
    by rewrite bool_decide_eq_true.
  - rewrite list_elem_of_singleton. done.
Qed.

Lemma CharacterSetMatcher_found (A : ascii -> bool) (ch : ascii) :
  existsb A (case_variants IgnoreCase ch) = true
  <-> exists a, A a = true /\ Canonicalize IgnoreCase a = Canonicalize IgnoreCase ch.
Proof.
  rewrite existsb_exists. split.
  - intros (a & Hin & Ha). exists a. split; [done|].
    by apply case_variants_spec, list_elem_of_In.
  - intros (a & Ha & Hc). exists a. split; [|done].
    by apply list_elem_of_In, case_variants_spec.
Qed.

(** What [exec] and [matchAll] return. *)
Lemma search_spec r n : forall i j y,
  search Input IgnoreCase r n i = Some (j, y) ->
  i <= j < i + n /\ Sem r {| endIndex := j; captures := ∅ |} y.
Proof.
  induction n as [|n IH]; intros i j y; simpl; [done|].
  destruct (compile r _ matched) as [| |z] eqn:E; [|done|].
  - intros H. apply IH in H. split; [lia | tauto].
  - intros [= <- <-]. apply compile_sound in E as (y' & Hy' & [= ->]). split; [lia | done].
Qed.

(** [exec] skips a start position only when the pattern fails there. *)
Lemma search_first r n : forall i j y,
  i + n <= S (length Input) ->
  search Input IgnoreCase r n i = Some (j, y) ->
  forall k, i <= k < j ->
    compile r {| endIndex := k; captures := ∅ |} matched = failure.
Proof.
  induction n as [|n IH]; intros i j y Hn; simpl; [done|].
  destruct (compile r _ matched) as [| |z] eqn:E; [|done|].
  - intros H k Hk. destruct (decide (k = i)) as [->|Hne]; [done|].
    apply (IH (S i) j y); [lia | done | lia].
  - intros [= <- <-] k Hk. lia.
Qed.

Lemma search_None r n : forall i,
  i + n <= S (length Input) ->
  search Input IgnoreCase r n i = None ->
  forall k, i <= k < i + n ->
    compile r {| endIndex := k; captures := ∅ |} matched = failure.
Proof.
  induction n as [|n IH]; intros i Hn; simpl; [lia|].
  pose proof (compile_fuel r i ltac:(lia)) as Hfuel.
  destruct (compile r _ matched) as [| |z] eqn:E; [|done|done].
  intros H k Hk. destruct (decide (k = i)) as [->|Hne]; [done|].
  apply (IH (S i)); [lia | done | lia].
Qed.

Lemma RegExpBuiltinExec_spec r i j y :
  RegExpBuiltinExec Input IgnoreCase r i = Some (j, y) ->
  i <= j <= endIndex y /\ endIndex y <= length Input
  /\ Sem r {| endIndex := j; captures := ∅ |} y.
Proof.
  intros H. apply search_spec in H as [Hj H]. pose proof (Sem_bounds _ _ _ H) as Hb.
  simpl in Hb. repeat split; [lia | lia | lia | done].
Qed.

Lemma matchAll_from_spec r n : forall i m,
  m ∈ matchAll_from Input IgnoreCase r n i ->
  exists j y, m = make_match Input r j y
    /\ i <= j <= endIndex y /\ endIndex y <= length Input
    /\ Sem r {| endIndex := j; captures := ∅ |} y.
Proof.
  induction n as [|n IH]; intros i m; simpl; [by intros ?%elem_of_nil|].
  destruct (RegExpBuiltinExec _ _ r i) as [[j y]|] eqn:E; [|by intros ?%elem_of_nil].
  apply RegExpBuiltinExec_spec in E as (Hj & Hy & HS).
  intros [->|H]%elem_of_cons.
  - by exists j, y.
  - apply IH in H as (j' & y' & -> & Hj' & Hy' & HS').
    exists j', y'. repeat split; try done; try lia. case_bool_decide; lia.
Qed.

Lemma matchAll_spec r m :
  m ∈ matchAll Input IgnoreCase r ->
  exists j y, m = make_match Input r j y
    /\ j <= endIndex y /\ endIndex y <= length Input
    /\ Sem r {| endIndex := j; captures := ∅ |} y.
Proof.
  intros H. apply matchAll_from_spec in H as (j & y & -> & Hj & Hy & HS).
  exists j, y. repeat split; try done; lia.
Qed.

(** [matchAll] never stops for lack of budget: a larger bound on the number
    of matches gives the same list. *)
Lemma matchAll_from_enough r n : forall i,
  S (length Input) - i <= n ->
  matchAll_from Input IgnoreCase r n i = matchAll_from Input IgnoreCase r (S n) i.
Proof.
  induction n as [|n IH]; intros i Hn.
  - simpl. unfold RegExpBuiltinExec. by replace (S (length Input) - i) with 0 by lia.
  - change (matchAll_from Input IgnoreCase r (S (S n)) i) with
      (match RegExpBuiltinExec Input IgnoreCase r i with
       | None => []
       | Some (j, y) =>
           make_match Input r j y
             :: matchAll_from Input IgnoreCase r (S n)
                  (if bool_decide (endIndex y = j) then S (endIndex y) else endIndex y)
       end).
    simpl. destruct (RegExpBuiltinExec _ _ r i) as [[j y]|] eqn:E; [|done].
    apply RegExpBuiltinExec_spec in E as (Hj & Hy & HS).
    f_equal. apply IH. case_bool_decide; lia.
Qed.

Lemma matchAll_budget r k :
  matchAll_from Input IgnoreCase r (S (length Input) + k) 0 = matchAll Input IgnoreCase r.
Proof.
  induction k as [|k IH]; [by rewrite Nat.add_0_r|].
  rewrite Nat.add_succ_r, <- matchAll_from_enough; [done | lia].
Qed.

(** A match is the part of the input between its index and its end. *)
Lemma make_match_whole r j y :
  j <= endIndex y -> endIndex y <= length Input ->
  length (whole (make_match Input r j y)) = endIndex y - j
  /\ whole (make_match Input r j y) = slice j (j + (endIndex y - j)).
Proof.
  intros Hj Hy. simpl. unfold RegExp.slice. rewrite length_take, length_drop.
  split; [lia|]. f_equal. lia.
Qed.

(** The [n]-th capture of a match. *)
Lemma group_make_match r j y n :
  1 <= n <= length (parens r) ->
  group (make_match Input r j y) n = (fun '(s, e) => slice s e) <$> captures y !! n.
Proof.
  intros Hn. unfold group. simpl. rewrite list_lookup_fmap.
  rewrite (lookup_seq_lt 1 (length (parens r)) (pred n)) by lia. simpl.
  by replace (S (pred n)) with n by lia.
Qed.

Lemma slice_app i j k :
  i <= j -> j <= k -> slice i k = slice i j ++ slice j k.
Proof.
  intros Hij Hjk. unfold RegExp.slice.
  replace (k - i) with ((j - i) + (k - j)) by lia.
  rewrite <- take_take_drop, drop_drop.
  by replace (i + (j - i)) with j by lia.
Qed.

End RegExpFacts.

(** ** The entity matcher *)

Section TextParserFacts.
Import RegExp TextParser.

Lemma insert_by_start_perm a l : insert_by_start a l ≡ₚ a :: l.
Proof.
  induction l as [|b l IH]; simpl; [done|].
  destruct (_ <=? _); [done|]. rewrite IH. apply Permutation_swap.
Qed.

Lemma sort_by_start_perm l : sort_by_start l ≡ₚ l.
Proof.
  induction l as [|a l IH]; simpl; [done|].
  by rewrite insert_by_start_perm, IH.
Qed.

Lemma insert_by_start_sorted a l :
  StronglySorted by_start l -> StronglySorted by_start (insert_by_start a l).
Proof.
  induction 1 as [|b l Hl IH Hb]; simpl.
  - repeat constructor.
  - destruct (Nat.leb_spec (start (position a)) (start (position b))) as [Hab|Hab].
    + constructor; [by constructor|]. constructor; [done|].
      eapply Forall_impl; [exact Hb|]. unfold by_start. intros; lia.
    + constructor; [done|]. rewrite insert_by_start_perm. constructor; [|done].
      unfold by_start. lia.
Qed.

Lemma sort_by_start_sorted l : StronglySorted by_start (sort_by_start l).
Proof.
  induction l as [|a l IH]; simpl; [constructor|]. by apply insert_by_start_sorted.
Qed.

(** The sort is stable: records with the same start keep their order. *)
Lemma insert_by_start_stable a l k :
  filter (fun b => start (position b) = k) (insert_by_start a l)
  = filter (fun b => start (position b) = k) (a :: l).
Proof.
  induction l as [|b l IH]; simpl; [done|].
  destruct (Nat.leb_spec (start (position a)) (start (position b))) as [Hab|Hab]; [done|].
  rewrite filter_cons, IH, !filter_cons.
  repeat case_decide; try done; lia.
Qed.

Lemma sort_by_start_stable l k :
  filter (fun b => start (position b) = k) (sort_by_start l)
  = filter (fun b => start (position b) = k) l.
Proof.
  induction l as [|a l IH]; simpl; [done|].
  by rewrite insert_by_start_stable, !filter_cons, IH.
Qed.

(** Every record built from a match of a pattern lies inside the text. *)
Lemma matched_well_placed input ic r (f : Match -> TextMatch) :
  (forall m, text (f m) = whole m /\ position (f m) = span m) ->
  Forall (well_placed input) (f <$> matchAll input ic r).
Proof.
  intros Hf. apply Forall_fmap, Forall_forall. intros m Hm.
  apply matchAll_spec in Hm as (j & y & -> & Hj & Hy & _).
  destruct (make_match_whole input r j y Hj Hy) as [Hlen Hw].
  destruct (Hf (make_match input r j y)) as [Ht Hp].
  unfold well_placed, compose. rewrite Ht, Hp. unfold span. simpl index.
  cbn [start end_]. rewrite Hlen. split; [lia|].
  replace (j + (endIndex y - j) - j) with (endIndex y - j) by lia. done.
Qed.

Lemma collect_well_placed this input baseUrls :
  Forall (well_placed input) (collect this input baseUrls).
Proof.
  unfold collect. repeat apply Forall_app_2.
  all: try (destruct (_ this); [|by constructor]).
  all: by apply matched_well_placed.
Qed.

(** C1.  For every text, every recognizer configuration and every base-URL
    argument, [findLinkableElements] returns its records in ascending order
    of [position.start], and each record has
    [0 <= start <= end <= text.length] and [text.slice(start, end)] equal to
    its [text] field. *)
Theorem findLinkableElements_sorted_and_placed
    (this : TextParser.t) (input : list ascii) (baseUrls : option BaseUrls) :
  StronglySorted by_start (findLinkableElements this input baseUrls)
  /\ Forall (well_placed input) (findLinkableElements this input baseUrls).
Proof.
  split.
  - apply sort_by_start_sorted.
  - unfold findLinkableElements. rewrite sort_by_start_perm.
    apply collect_well_placed.
Qed.

(** C2.  On the scenario text, with every recognizer enabled and an empty
    [baseUrls], [findLinkableElements] returns four records in the order
    phone, url, hashtag, mention, with the values and urls the scenario
    names; the phone record, however, starts one character early, at the
    space before the digits: its [text] is " 1234567890" and its span is
    [4, 15), not the span [5, 15) of "1234567890". *)
Theorem scenario_matches :
  findLinkableElements (TextParser.new None) scenario
    (Some {| base_hashtags := None; base_mentions := None; base_assets := None |})
  = [ {| type := phone_t; text := str " 1234567890"; value := str "(123) 456-7890";
         position := {| start := 4; end_ := 15 |};
         url := Some (str "tel:1234567890") |};
      {| type := url_t; text := str "https://example.com";
         value := str "https://example.com";
         position := {| start := 25; end_ := 44 |};
         url := Some (str "https://example.com") |};
      {| type := hashtag_t; text := str "#support"; value := str "support";
         position := {| start := 46; end_ := 54 |};
         url := Some (str "/tags/support") |};
      {| type := mention_t; text := str "@sarah"; value := str "sarah";
         position := {| start := 55; end_ := 61 |};
         url := Some (str "/users/sarah") |} ].
Proof. vm_compute. reflexivity. Qed.

End TextParserFacts.

(** ** The phone pattern keeps every digit *)

Ltac split_accounted := unfold accounted; split; [|split; [|split]].

Section PhoneFacts.
Import RegExp TextParser.

Variable Input : list ascii.

Local Abbreviation Sem := (RegExp.Sem Input false).
Local Abbreviation slice := (RegExp.slice Input).
Local Abbreviation capture_free := (capture_free Input).
Local Abbreviation digit_free := (digit_free Input).
Local Abbreviation cap := (cap Input).
Local Abbreviation accounted := (accounted Input).

Lemma digits_app s1 s2 : digits (s1 ++ s2) = digits s1 ++ digits s2.
Proof. apply filter_app. Qed.

Lemma slice_empty i : slice i i = [].
Proof. unfold RegExp.slice. by rewrite Nat.sub_diag. Qed.

Lemma slice_one i ch : Input !! i = Some ch -> slice i (S i) = [ch].
Proof.
  intros H. unfold RegExp.slice. replace (S i - i) with 1 by lia.
  rewrite <- (take_drop_middle _ _ _ H) at 1.
  rewrite drop_app_length'; [done|]. rewrite length_take. apply lookup_lt_Some in H. lia.
Qed.

Lemma capture_free_Chars A inv : capture_free (Chars A inv).
Proof. by intros x y (ch & _ & _ & ->). Qed.

Lemma capture_free_Quantified r min max :
  parens r = [] -> capture_free r -> capture_free (Quantified r min max).
Proof.
  intros Hps Hr x y. simpl. rewrite Hps.
  induction 1 as [|min max x y z _ Hxy _ IH]; [done|].
  apply Hr in Hxy. simpl in Hxy. congruence.
Qed.

Lemma digit_free_Chars A :
  (forall c, A c = true -> is_digit c = false) -> digit_free (Chars A false).
Proof.
  intros HA x y (ch & Hch & Hm & ->). simpl in *. split; [done|].
  rewrite (slice_one _ _ Hch). rewrite orb_false_r in Hm. apply HA in Hm.
  unfold digits. rewrite filter_cons. case_decide; [congruence | done].
Qed.

Lemma digit_free_WordBoundary neg : digit_free (WordBoundary neg).
Proof. intros x y [-> _]. split; [done|]. by rewrite slice_empty. Qed.

Lemma digit_free_Seq r1 r2 : digit_free r1 -> digit_free r2 -> digit_free (Seq r1 r2).
Proof.
  intros H1 H2 x z (y & Hxy & Hyz).
  pose proof (Sem_bounds _ _ _ _ _ Hxy) as [B1 _].
  pose proof (Sem_bounds _ _ _ _ _ Hyz) as [B2 _].
  apply H1 in Hxy as [C1 D1]. apply H2 in Hyz as [C2 D2].
  split; [congruence|].
  by rewrite (slice_app _ _ (endIndex y)), digits_app, D1, D2.
Qed.

Lemma digit_free_Quantified r min max :
  parens r = [] -> digit_free r -> digit_free (Quantified r min max).
Proof.
  intros Hps Hr x y. simpl. rewrite Hps.
  induction 1 as [min max x|min max x y z _ Hxy Hyz IH].
  - split; [done|]. by rewrite slice_empty.
  - pose proof (Sem_bounds _ _ _ _ _ Hxy) as [B1 _].
    pose proof (RepSem_bounds Input _ _ _ _ _ _ (Sem_bounds Input false r) Hyz) as [B2 _].
    apply Hr in Hxy as [C1 D1]. destruct IH as [C2 D2]. simpl in *.
    split; [congruence|].
    by rewrite (slice_app _ _ (endIndex y)), digits_app, D1, D2.
Qed.

Lemma accounted_start i :
  i <= length Input -> accounted i 1 {| endIndex := i; captures := ∅ |}.
Proof.
  intros Hi. split_accounted; simpl; [lia | done | |].
  - intros n _. apply lookup_empty.
  - rewrite slice_empty. unfold cap. simpl. by rewrite !lookup_empty.
Qed.

Lemma accounted_weaken i k k' x : k <= k' -> accounted i k x -> accounted i k' x.
Proof.
  intros Hk (H1 & H2 & H3 & H4). split_accounted; try done. intros n Hn. apply H3. lia.
Qed.

Lemma accounted_digit_free i k r x y :
  digit_free r -> accounted i k x -> Sem r x y -> accounted i k y.
Proof.
  intros Hr (H1 & H2 & H3 & H4) Hxy.
  pose proof (Sem_bounds _ _ _ _ _ Hxy) as [B1 B2].
  apply Hr in Hxy as [C D]. split_accounted; [lia | auto | |].
  - intros n Hn. rewrite C. by apply H3.
  - rewrite (slice_app _ _ (endIndex x)), digits_app, D, app_nil_r, H4 by done.
    unfold cap. by rewrite C.
Qed.

Lemma accounted_clear i k n x :
  k <= n -> accounted i k x ->
  accounted i k {| endIndex := endIndex x; captures := clear [n] (captures x) |}.
Proof.
  intros Hn (H1 & H2 & H3 & H4). simpl.
  rewrite delete_id by (by apply H3).
  by destruct x.
Qed.

Lemma accounted_Group i n r x y :
  1 <= n <= 5 -> capture_free r ->
  accounted i n x -> Sem (Group n r) x y -> accounted i (S n) y.
Proof.
  intros Hn Hr (H1 & H2 & H3 & H4) (y' & Hxy & ->).
  pose proof (Sem_bounds _ _ _ _ _ Hxy) as [B1 B2].
  apply Hr in Hxy as C. split_accounted; simpl; [lia | auto | |].
  - intros m Hm. rewrite lookup_insert_ne by lia. rewrite C. apply H3. lia.
  - rewrite (slice_app _ _ (endIndex x)), digits_app, H4 by done.
    assert (Hcap : forall m, cap {| endIndex := endIndex y';
                      captures := <[n:=(endIndex x, endIndex y')]> (captures y') |} m
                    = if decide (m = n) then slice (endIndex x) (endIndex y')
                      else if decide (n <= m) then [] else cap x m).
    { intros m. unfold cap. simpl. rewrite C. repeat case_decide.
      - subst. by rewrite lookup_insert_eq.
      - rewrite lookup_insert_ne by lia. by rewrite H3 by lia.
      - by rewrite lookup_insert_ne by lia. }
    assert (Hold : forall m, n <= m -> cap x m = []).
    { intros m Hm. unfold cap. by rewrite H3. }
    rewrite !Hcap.
    assert (n = 1 \/ n = 2 \/ n = 3 \/ n = 4 \/ n = 5) as [->|[->|[->|[->| ->]]]] by lia.
    all: rewrite ?(Hold 1), ?(Hold 2), ?(Hold 3), ?(Hold 4), ?(Hold 5) by lia.
    all: repeat case_decide; try lia.
    all: by rewrite ?digits_app, ?app_nil_r, <- ?app_assoc; simpl; rewrite ?app_nil_r.
Qed.

(** An optional group [(?:r)?] whose body advances the invariant. *)
Lemma accounted_opt i k k' n r x y :
  parens r = [n] -> k <= n -> k <= k' ->
  (forall x y, accounted i k x -> Sem r x y -> accounted i k' y) ->
  accounted i k x -> Sem (opt r) x y -> accounted i k' y.
Proof.
  intros Hps Hn Hk Hr Hx. unfold opt. simpl. rewrite Hps.
  inversion 1 as [|min max x' y' z' Hmax Hxy Hyz]; subst.
  - by eapply accounted_weaken.
  - apply Hr in Hxy; [|by apply accounted_clear].
    inversion Hyz as [|? ? ? ? ? Hmax']; subst; [done|]. by destruct Hmax'.
Qed.

Lemma digit_is_capture_free min max : capture_free (Quantified digit min max).
Proof. apply capture_free_Quantified; [reflexivity|]. apply capture_free_Chars. Qed.

Lemma separators_digit_free s :
  forallb (fun c => negb (is_digit c)) (str s) = true ->
  digit_free (star (Chars (oneof s) false)).
Proof.
  intros Hs. apply digit_free_Quantified; [reflexivity|]. apply digit_free_Chars.
  intros c Hc. unfold oneof in Hc. apply bool_decide_eq_true in Hc.
  rewrite forallb_forall in Hs. apply list_elem_of_In, Hs in Hc.
  by destruct (is_digit c).
Qed.

Lemma chr_digit_free c : is_digit c = false -> digit_free (chr c).
Proof.
  intros Hc. apply digit_free_Chars. intros c' Hc'.
  apply Ascii.eqb_eq in Hc'. by subst.
Qed.

(** A match of the phone pattern accounts for every digit it reads. *)
Lemma phone_accounted i y :
  i <= length Input ->
  Sem patterns.phone {| endIndex := i; captures := ∅ |} y -> accounted i 6 y.
Proof.
  intros Hi H. apply accounted_start in Hi. revert H.
  unfold patterns.phone, seqs.
  intros (x1 & Hcc & x2 & Hs1 & x3 & Harea & x4 & Hs2 & x5 & Hprefix & x6 & Hs3
          & x7 & Hline & x8 & Hext & Hwb).
  assert (A1 : accounted i 2 x1).
  { refine (accounted_opt i 1 2 1 _ _ _ _ _ _ _ Hi Hcc); [reflexivity | lia | lia |].
    intros x y' Hx (z1 & Hplus & Hg).
    eapply (accounted_Group _ 1); [lia | apply digit_is_capture_free | | exact Hg].
    refine (accounted_digit_free _ _ _ _ _ _ Hx Hplus).
    apply digit_free_Quantified; [reflexivity|]. by apply chr_digit_free. }
  assert (A2 : accounted i 2 x2).
  { refine (accounted_digit_free _ _ _ _ _ _ A1 Hs1). by apply separators_digit_free. }
  assert (A3 : accounted i 3 x3).
  { eapply (accounted_Group _ 2); [lia | apply digit_is_capture_free | exact A2 | exact Harea]. }
  assert (A4 : accounted i 3 x4).
  { refine (accounted_digit_free _ _ _ _ _ _ A3 Hs2). by apply separators_digit_free. }
  assert (A5 : accounted i 4 x5).
  { eapply (accounted_Group _ 3); [lia | apply digit_is_capture_free | exact A4 | exact Hprefix]. }
  assert (A6 : accounted i 4 x6).
  { refine (accounted_digit_free _ _ _ _ _ _ A5 Hs3). by apply separators_digit_free. }
  assert (A7 : accounted i 5 x7).
  { eapply (accounted_Group _ 4); [lia | apply digit_is_capture_free | exact A6 | exact Hline]. }
  assert (A8 : accounted i 6 x8).
  { refine (accounted_opt i 5 6 5 _ _ _ _ _ _ _ A7 Hext); [reflexivity | lia | lia |].
    intros x y' Hx (z1 & Hsp & z2 & Hx' & Hg).
    eapply (accounted_Group _ 5); [lia | apply digit_is_capture_free | | exact Hg].
    refine (accounted_digit_free _ _ _ _ _ _ _ Hx'); [by apply chr_digit_free|].
    refine (accounted_digit_free _ _ _ _ _ _ Hx Hsp).
    apply digit_free_Quantified; [reflexivity|]. by apply chr_digit_free. }
  eapply accounted_digit_free; [apply digit_free_WordBoundary | exact A8 | exact Hwb].
Qed.

End PhoneFacts.

Section PhoneValue.
Import RegExp TextParser.

(** The digits of the formatted value are those of the five groups. *)
Lemma phone_match_digits (m : Match) :
  digits (value (phone_match m))
  = digits (default [] (group m 1) ++ default [] (group m 2) ++ default [] (group m 3)
            ++ default [] (group m 4) ++ default [] (group m 5)).
Proof.
  unfold phone_match. cbn [value].
  destruct (group m 1) as [[|c1 s1]|], (group m 2) as [s2|], (group m 3) as [s3|],
    (group m 4) as [s4|], (group m 5) as [[|c5 s5]|];
    cbn [nonempty show default from_option id].
  all: rewrite ?digits_app.
  all: change (digits (str "+")) with (@nil ascii);
       change (digits (str " ")) with (@nil ascii);
       change (digits (str "(")) with (@nil ascii);
       change (digits (str ") ")) with (@nil ascii);
       change (digits (str "-")) with (@nil ascii);
       change (digits (str " x")) with (@nil ascii);
       change (digits (str "undefined")) with (@nil ascii);
       change (digits []) with (@nil ascii).
  all: cbn [app]; rewrite <- ?app_assoc; cbn [app]; by rewrite ?app_nil_r.
Qed.

(** A record of type phone comes from a match of the phone pattern. *)
Lemma phone_record_origin this input baseUrls (m : TextMatch) :
  m ∈ findLinkableElements this input baseUrls -> type m = phone_t ->
  exists m', m = phone_match m' /\ m' ∈ matchAll input false patterns.phone.
Proof.
  unfold findLinkableElements. rewrite sort_by_start_perm. unfold collect.
  rewrite !elem_of_app. intros [H|[H|[H|[H|[H|H]]]]] Ht.
  all: try (destruct (_ this); [|by apply elem_of_nil in H]).
  all: apply list_elem_of_fmap in H as (m' & -> & H); try discriminate Ht.
  by exists m'.
Qed.

(** C5.  Phone formatting is lossless over digits: in every phone record of
    [findLinkableElements] the digits of [value] are the digits of [text],
    in the same order. *)
Theorem phone_value_keeps_digits
    (this : TextParser.t) (input : list ascii) (baseUrls : option BaseUrls)
    (m : TextMatch) :
  m ∈ findLinkableElements this input baseUrls ->
  type m = phone_t ->
  digits (value m) = digits (text m).
Proof.
  intros Hm Ht. destruct (phone_record_origin _ _ _ _ Hm Ht) as (m' & -> & Hm').
  apply matchAll_spec in Hm' as (i & y & -> & Hi & Hy & HS).
  rewrite phone_match_digits.
  rewrite !group_make_match by (simpl; lia).
  apply phone_accounted in HS as (_ & _ & _ & HS); [|lia].
  cbn [text phone_match whole make_match]. rewrite HS. unfold cap.
  by repeat (destruct (captures y !! _) as [[? ?]|]).
Qed.

Lemma phone_value_keeps_digits_witness :
  digits (str "(123) 456-7890") = digits (str " 1234567890").
Proof.
  apply (phone_value_keeps_digits (TextParser.new None) scenario None
           {| type := phone_t; text := str " 1234567890"; value := str "(123) 456-7890";
              position := {| start := 4; end_ := 15 |};
              url := Some (str "tel:1234567890") |}).
  - vm_compute. left.
  - reflexivity.
Defined.

End PhoneValue.

(** ** The mask engine *)

(** The scenarios of the specification.  The template of [currency] has no
    way to place its commas by the number of digits: on "1234.5" the preset
    fails at the point and [mask] returns the empty string. *)
Example mask_phone :
  InputMask.mask (InputMask.new None) (str "1234567890") (Name (str "phone"))
  = Normal (str "(123) 456-7890").
Proof. vm_compute. reflexivity. Qed.

Example mask_date :
  InputMask.mask (InputMask.new None) (str "12252023") (Name (str "date"))
  = Normal (str "12/25/2023").
Proof. vm_compute. reflexivity. Qed.

Example mask_currency :
  InputMask.mask (InputMask.new None) (str "1234.5") (Name (str "currency"))
  = Normal [].
Proof. vm_compute. reflexivity. Qed.

Section InputMaskFacts.

Local Abbreviation tokens_t := (gmap (list ascii) MaskToken).

Implicit Types (value template before after out : list ascii) (options : MaskOptions).
Implicit Types (c : InputMask.Cursor) (this : InputMask.t).

Lemma mask_loop_app value (tokens : tokens_t) options p1 p2 : forall c,
  InputMask.mask_loop value tokens options (p1 ++ p2) c
  = match InputMask.mask_loop value tokens options p1 c with
    | InputMask.Stop r => InputMask.Stop r
    | InputMask.Next c => InputMask.mask_loop value tokens options p2 c
    end.
Proof.
  induction p1 as [|maskChar p1 IH]; intros c; simpl; [done|].
  by destruct (InputMask.mask_step _ _ _ _ _).
Qed.

(** Once the input is used up the loop returns at its next character. *)
Lemma mask_loop_exhausted value (tokens : tokens_t) options template c :
  length value <= InputMask.valueIndex c ->
  InputMask.mask_loop value tokens options template c
  = match template with
    | [] => InputMask.Next c
    | _ => InputMask.Stop (if InputMask.isOptional c then Some (InputMask.result c)
                           else InputMask.clear_or_null options)
    end.
Proof.
  intros Hc. destruct template as [|maskChar p]; simpl; [done|].
  unfold InputMask.mask_step. by rewrite (proj2 (Nat.leb_le _ _) Hc).
Qed.

(** The marker is never switched off, and before the first marker optional
    mode is off. *)
Lemma mask_loop_isOptional value (tokens : tokens_t) options template : forall c c',
  InputMask.mask_loop value tokens options template c = InputMask.Next c' ->
  InputMask.isOptional c'
  = InputMask.isOptional c || bool_decide ("?"%char ∈ template).
Proof.
  induction template as [|maskChar p IH]; intros c c'; cbn [InputMask.mask_loop].
  - intros [= ->]. rewrite bool_decide_eq_false_2; [by rewrite orb_false_r|].
    by intros ?%elem_of_nil.
  - unfold InputMask.mask_step. destruct (_ <=? _); [done|].
    destruct (Ascii.eqb_spec maskChar "?") as [->|Hne].
    + intros H. rewrite (IH _ _ H). cbn [InputMask.isOptional].
      rewrite (bool_decide_eq_true_2 (_ ∈ _ :: _)) by left.
      by rewrite orb_true_r.
    + assert (Hin : bool_decide ("?"%char ∈ maskChar :: p) = bool_decide ("?"%char ∈ p)).
      { apply bool_decide_ext. rewrite elem_of_cons. split; [|by right].
        by intros [?|?]. }
      rewrite Hin. destruct (tokens !! [maskChar]) as [tok|].
      * destruct (InputMask.token_loop _ _ _ _ _ _); [done|].
        intros H. exact (IH _ _ H).
      * intros H. exact (IH _ _ H).
Qed.



(** The loop of a token on input that begins with characters it rejects. *)
Lemma token_loop_skip tok options opt (skipped : list ascii) : forall pending vi res,
  Forall (fun skip => pattern tok skip = false) skipped ->
  skipped = [] \/ opt = true ->
  InputMask.token_loop tok options opt (skipped ++ pending) vi res
  = InputMask.token_loop tok options opt pending (vi + length skipped) res.
Proof.
  induction skipped as [|skip skipped IH]; intros pending vi res Hall Hopt; simpl.
  { by rewrite Nat.add_0_r. }
  apply Forall_cons in Hall as [Hskip Hall]. destruct Hopt as [?| ->]; [done|].
  rewrite Hskip. simpl. rewrite IH by auto. f_equal. lia.
Qed.

(** The input left at a cursor. *)
Lemma drop_nil_length value n : drop n value = [] -> length value <= n.
Proof. intros H. apply (f_equal length) in H. rewrite length_drop in H. simpl in H. lia. Qed.

Lemma drop_cons_lookup value n char pending :
  drop n value = char :: pending ->
  value !! n = Some char /\ n < length value /\ drop (S n) value = pending.
Proof.
  intros H. assert (Hlook : value !! n = Some char).
  { rewrite <- (Nat.add_0_r n), <- lookup_drop. by rewrite H. }
  split; [done|]. split; [by apply lookup_lt_Some in Hlook|].
  rewrite (drop_S _ _ _ Hlook) in H. by injection H.
Qed.


(** Conversely, the loop produces every output of the shape: the shape
    determines the result. *)
Lemma Shaped_mask_loop value (tokens : tokens_t) options o template pending out :
  Shaped tokens o template pending out ->
  forall c, InputMask.isOptional c = o -> drop (InputMask.valueIndex c) value = pending ->
    match InputMask.mask_loop value tokens options template c with
    | InputMask.Stop r => r = Some (InputMask.result c ++ out)
    | InputMask.Next c' => InputMask.result c' = InputMask.result c ++ out
    end.
Proof.
  induction 1 as [o pending|maskChar rest|o rest char pending out _ IH
                 |o maskChar rest char pending out Hne Htok _ IH
                 |o maskChar tok rest skipped char pending out Hne Htok Hskip Hopt Hchar _ IH
                 |maskChar tok rest skip skipped Hne Htok Hskip];
    intros c Ho Hdrop; cbn [InputMask.mask_loop].
  - by rewrite app_nil_r.
  - unfold InputMask.mask_step.
    rewrite (proj2 (Nat.leb_le _ _)) by (by apply drop_nil_length).
    by rewrite Ho, app_nil_r.
  - apply drop_cons_lookup in Hdrop as (Hlook & Hlen & Hrest).
    unfold InputMask.mask_step. rewrite (proj2 (Nat.leb_gt _ _)) by done. simpl.
    apply (IH {| InputMask.result := InputMask.result c;
                 InputMask.valueIndex := InputMask.valueIndex c;
                 InputMask.isOptional := true |}); [done|].
    cbn [InputMask.valueIndex]. by rewrite (drop_S _ _ _ Hlook), Hrest.
  - apply drop_cons_lookup in Hdrop as (Hlook & Hlen & Hrest).
    unfold InputMask.mask_step. rewrite (proj2 (Nat.leb_gt _ _)) by done.
    rewrite (proj2 (Ascii.eqb_neq _ _)) by done. rewrite Htok.
    set (c1 := {| InputMask.result := InputMask.result c ++ [maskChar] |}).
    specialize (IH c1 Ho). unfold c1 in IH at 1. cbn [InputMask.valueIndex] in IH.
    rewrite Hlook in IH.
    assert (Hstep : match InputMask.mask_loop value tokens options rest c1 with
                    | InputMask.Stop r => r = Some (InputMask.result c1 ++ out)
                    | InputMask.Next c' => InputMask.result c' = InputMask.result c1 ++ out
                    end).
    { apply IH. destruct (decide (char = maskChar)) as [->|Hdiff].
      - by rewrite decide_True.
      - rewrite decide_False by congruence. by rewrite (drop_S _ _ _ Hlook), Hrest. }
    unfold c1 in Hstep at 2 3. cbn [InputMask.result] in Hstep.
    rewrite <- app_assoc in Hstep. exact Hstep.
  - assert (Hlen : InputMask.valueIndex c < length value).
    { destruct skipped; apply drop_cons_lookup in Hdrop; tauto. }
    unfold InputMask.mask_step. rewrite (proj2 (Nat.leb_gt _ _)) by done.
    rewrite (proj2 (Ascii.eqb_neq _ _)) by done. rewrite Htok, Hdrop.
    rewrite token_loop_skip; [|done|destruct o; auto]. cbn [InputMask.token_loop].
    rewrite Hchar.
    set (c1 := {| InputMask.result := InputMask.result c ++ InputMask.transformed tok char |}).
    assert (Hstep : match InputMask.mask_loop value tokens options rest c1 with
                    | InputMask.Stop r => r = Some (InputMask.result c1 ++ out)
                    | InputMask.Next c' => InputMask.result c' = InputMask.result c1 ++ out
                    end).
    { apply IH; [done|]. unfold c1. cbn [InputMask.valueIndex].
      replace (S (InputMask.valueIndex c + length skipped))
        with (InputMask.valueIndex c + S (length skipped)) by lia.
      rewrite <- drop_drop, Hdrop.
      change (skipped ++ char :: pending) with (skipped ++ [char] ++ pending).
      rewrite app_assoc. apply drop_app_length'. rewrite length_app. simpl. lia. }
    unfold c1 in Hstep at 2 3. cbn [InputMask.result] in Hstep.
    rewrite <- app_assoc in Hstep. exact Hstep.
  - assert (Hlen : InputMask.valueIndex c < length value).
    { apply drop_cons_lookup in Hdrop. tauto. }
    unfold InputMask.mask_step. rewrite (proj2 (Nat.leb_gt _ _)) by done.
    rewrite (proj2 (Ascii.eqb_neq _ _)) by done. rewrite Htok, Hdrop, Ho.
    pose proof (token_loop_skip tok options true (skip :: skipped) []
                  (InputMask.valueIndex c) (InputMask.result c) Hskip
                  (or_intror eq_refl)) as Hloop.
    rewrite app_nil_r in Hloop. rewrite Hloop.
    cbn [InputMask.token_loop].
    rewrite mask_loop_exhausted.
    + destruct rest; simpl; by rewrite app_nil_r.
    + cbn [InputMask.valueIndex]. rewrite <- Hdrop, length_drop. lia.
Qed.

Lemma Shaped_processValue value template (tokens : tokens_t) options out :
  Shaped tokens false template value out ->
  InputMask.processValue value template tokens options = Some out.
Proof.
  intros HS. unfold InputMask.processValue.
  pose proof (Shaped_mask_loop value tokens options _ _ _ _ HS InputMask.start_cursor
                eq_refl eq_refl) as Hloop.
  destruct (InputMask.mask_loop _ _ _ _ _) as [r|c']; [done|]. by rewrite Hloop.
Qed.


(** *** Templates without the optional marker *)

Lemma mask_loop_conforming value (tokens : tokens_t) options template rest :
  "?"%char ∉ template -> Forall2 (fits tokens) template rest ->
  forall done c,
    value = done ++ rest ->
    InputMask.result c = done -> InputMask.valueIndex c = length done ->
    exists c', InputMask.mask_loop value tokens options template c = InputMask.Next c'
               /\ InputMask.result c' = value.
Proof.
  intros Hq Hfit. induction Hfit as [|maskChar char p rest Hfit _ IH];
    intros done c Hv Hres Hvi; cbn [InputMask.mask_loop].
  { exists c. split; [done|]. by rewrite Hv, app_nil_r. }
  apply not_elem_of_cons in Hq as [Hne Hq].
  assert (Hlook : value !! InputMask.valueIndex c = Some char).
  { by rewrite Hv, Hvi, list_lookup_middle. }
  assert (Hdrop : drop (InputMask.valueIndex c) value = char :: rest).
  { by rewrite Hv, Hvi, drop_app_length. }
  unfold InputMask.mask_step.
  rewrite (proj2 (Nat.leb_gt _ _)) by (by apply lookup_lt_Some in Hlook).
  rewrite (proj2 (Ascii.eqb_neq _ _)) by done.
  unfold fits in Hfit. destruct (tokens !! [maskChar]) as [tok|].
  - destruct Hfit as [Hp Ht]. rewrite Hdrop. cbn [InputMask.token_loop].
    rewrite Hp, Ht. apply (IH Hq (done ++ [char])); cbn.
    + by rewrite <- app_assoc.
    + by rewrite Hres.
    + rewrite length_app, Hvi. simpl. lia.
  - subst char. rewrite decide_True by done. apply (IH Hq (done ++ [maskChar])); cbn.
    + by rewrite <- app_assoc.
    + by rewrite Hres.
    + rewrite length_app, Hvi. simpl. lia.
Qed.

(** Mask idempotence on Latin-1 strings with tokens that are predicates: a
    template without optional marker, applied to a value that already
    conforms to its shape, returns that value. *)
Lemma processValue_conforming value template (tokens : tokens_t) options :
  conforms tokens template value ->
  InputMask.processValue value template tokens options = Some value.
Proof.
  intros [Hq Hfit]. unfold InputMask.processValue.
  destruct (mask_loop_conforming value tokens options template value Hq Hfit []
              InputMask.start_cursor) as (c' & -> & Hres); [done..|].
  by rewrite Hres.
Qed.

(** The same through [applyMask], when the conforming template comes first. *)
Lemma applyMask_conforming this value template (later : list (list ascii)) options :
  InputMask.masks_of options = template :: later ->
  conforms (default ∅ (tokens options) ∪ InputMask.this_tokens this) template value ->
  InputMask.applyMask this value options = Normal value.
Proof.
  intros Hm [Hq Hfit]. unfold InputMask.applyMask. rewrite Hm. simpl.
  unfold InputMask.processValue.
  destruct (mask_loop_conforming value _ options template value Hq Hfit []
              InputMask.start_cursor) as (c' & -> & Hres); [done..|].
  by rewrite Hres.
Qed.

Lemma processValue_conforming_witness :
  InputMask.processValue (str "(123) 456-7890") (str "(999) 999-9999")
    InputMask.DEFAULT_TOKENS (only_mask (One (str "(999) 999-9999")) (Some true))
  = Some (str "(123) 456-7890").
Proof.
  apply processValue_conforming. split.
  - apply (bool_decide_unpack _). vm_compute. exact I.
  - unfold fits. repeat (constructor; [vm_compute; try split; reflexivity|]). constructor.
Defined.

(** *** The optional marker *)

(** C10.  When the characters of the template before its optional marker
    use up the value exactly, the algorithm gives up at the marker instead
    of returning what it accumulated: the result is [null], or the empty
    string under [autoClear]. *)
Theorem marker_reached_without_input value before after (tokens : tokens_t) options c :
  "?"%char ∉ before ->
  InputMask.mask_loop value tokens options before InputMask.start_cursor
    = InputMask.Next c ->
  length value <= InputMask.valueIndex c ->
  InputMask.processValue value (before ++ "?"%char :: after) tokens options
  = InputMask.clear_or_null options.
Proof.
  intros Hq Hloop Hlen. unfold InputMask.processValue.
  rewrite mask_loop_app, Hloop, mask_loop_exhausted by done.
  rewrite (mask_loop_isOptional _ _ _ _ _ _ Hloop). simpl.
  by rewrite bool_decide_eq_false_2.
Qed.

Lemma marker_reached_without_input_witness :
  InputMask.processValue (str "1234567890") (str "(999) 999-9999? x99999")
    InputMask.DEFAULT_TOKENS (only_mask (One (str "(999) 999-9999? x99999")) (Some false))
  = None.
Proof.
  apply (marker_reached_without_input (str "1234567890") (str "(999) 999-9999")
           (str " x99999") InputMask.DEFAULT_TOKENS
           (only_mask (One (str "(999) 999-9999? x99999")) (Some false))
           {| InputMask.result := str "(123) 456-7890"; InputMask.valueIndex := 10;
              InputMask.isOptional := false |}).
  - apply (bool_decide_unpack _). vm_compute. exact I.
  - vm_compute. reflexivity.
  - vm_compute. lia.
Defined.

(** The preset [phoneExt] on a plain ten-digit number. *)
Example phoneExt_plain_number :
  InputMask.mask (InputMask.new None) (str "1234567890") (Name (str "phoneExt"))
  = Normal [].
Proof. vm_compute. reflexivity. Qed.

(** *** The shape of an output *)




(** The extension of a phone number: after the marker the literal " " is
    kept, the placeholder [x] passes over the letter "x" of the value, which
    is no hexadecimal digit, and the output stops where the value ends.  The
    number without its extension is not an output of this shape. *)
Example phoneExt_extension :
  InputMask.processValue (str "1234567890x123") (str "(999) 999-9999? x99999")
    InputMask.DEFAULT_TOKENS (only_mask (One (str "(999) 999-9999? x99999")) (Some false))
  = Some (str "(123) 456-7890 123")
  /\ ~ Shaped InputMask.DEFAULT_TOKENS false (str "(999) 999-9999? x99999")
         (str "1234567890x123") (str "(123) 456-7890").
Proof.
  split; [vm_compute; reflexivity|]. intros HS.
  apply (Shaped_processValue _ _ _
           (only_mask (One (str "(999) 999-9999? x99999")) (Some false))) in HS.
  vm_compute in HS. discriminate.
Qed.

(** *** [applyMask], [mask] and [isComplete] *)

Lemma first_fit_None f masks :
  InputMask.first_fit f masks = None <-> Forall (fun template => f template = None) masks.
Proof.
  induction masks as [|template masks IH]; simpl; [by split; [constructor|]|].
  destruct (f template) eqn:E.
  - split; [done|]. intros [? _]%Forall_cons. congruence.
  - rewrite IH. split; [by constructor | by intros [_ ?]%Forall_cons].
Qed.

Lemma first_fit_Some f masks r :
  InputMask.first_fit f masks = Some r <->
  exists (earlier : list (list ascii)) template (later : list (list ascii)),
    masks = earlier ++ template :: later
    /\ Forall (fun template => f template = None) earlier /\ f template = Some r.
Proof.
  induction masks as [|template masks IH]; simpl.
  { split; [done|]. intros (b & ? & ? & H & _). by destruct b. }
  destruct (f template) eqn:E.
  - split.
    + intros [= ->]. exists [], template, masks. by repeat split.
    + intros ([|t' b] & t & a & Hm & Hb & Ht); simplify_eq/=; try congruence.
      apply Forall_cons in Hb as [? _]. congruence.
  - rewrite IH. split.
    + intros (b & t & a & -> & Hb & Ht). exists (template :: b), t, a.
      repeat split; [by constructor | done].
    + intros ([|t' b] & t & a & Hm & Hb & Ht); simplify_eq/=; try congruence.
      apply Forall_cons in Hb as [_ Hb]. by exists b, t, a.
Qed.

(** With at least one template [applyMask] does what the specification
    says: the first result that is not [null]; when every template fails,
    the empty string (for an empty value under [allowEmpty], and also as
    the outcome of running the first template again). *)
Lemma applyMask_with_templates this value options :
  masks_nonempty options ->
  let run template :=
    InputMask.processValue value template
      (default ∅ (tokens options) ∪ InputMask.this_tokens this) options in
  (forall (earlier : list (list ascii)) template (later : list (list ascii)) r,
     InputMask.masks_of options = earlier ++ template :: later ->
     Forall (fun template => run template = None) earlier -> run template = Some r ->
     InputMask.applyMask this value options = Normal r)
  /\ (Forall (fun template => run template = None) (InputMask.masks_of options) ->
      InputMask.applyMask this value options = Normal []).
Proof.
  intros Hne run. unfold InputMask.applyMask. fold run. split.
  - intros earlier template later r Hm Hb Hr.
    assert (H : InputMask.first_fit run (InputMask.masks_of options) = Some r).
    { apply first_fit_Some. by exists earlier, template, later. }
    by rewrite H.
  - intros Hall. rewrite (proj2 (first_fit_None _ _) Hall).
    destruct (_ && _); [done|]. unfold masks_nonempty in Hne.
    destruct (InputMask.masks_of options) as [|first masks]; [done|]. simpl.
    apply Forall_cons in Hall as [Hfirst _]. unfold run in Hfirst. by rewrite Hfirst.
Qed.

(** C3, at the input on which the code departs from it.  When the options
    carry an empty array of templates (and the value is not an empty one
    under [allowEmpty]) [applyMask] returns nothing: it raises a
    [TypeError]. *)
Theorem applyMask_without_templates this value options :
  InputMask.masks_of options = [] ->
  truthy (allowEmpty options) && bool_decide (value = []) = false ->
  InputMask.applyMask this value options = Throw TypeError.
Proof.
  intros Hm He. unfold InputMask.applyMask. by rewrite Hm, He.
Qed.

Lemma applyMask_without_templates_witness :
  InputMask.applyMask (InputMask.new None) (str "1") (only_mask (Many []) None)
  = Throw TypeError.
Proof.
  apply applyMask_without_templates; reflexivity.
Defined.

(** The scenario of the specification for an empty value. *)
Example currency_empty :
  InputMask.mask (InputMask.new None) [] (Name (str "currency")) = Normal [].
Proof. vm_compute. reflexivity. Qed.

(** C6, at an input on which the code departs from it: for options with an
    empty array of templates [mask] raises a [TypeError]. *)
Theorem mask_raises :
  InputMask.mask (InputMask.new None) (str "1") (Options (only_mask (Many []) None))
  = Throw TypeError.
Proof. vm_compute. reflexivity. Qed.

(** So does a name that [PRESET_MASKS] inherits from [Object.prototype]. *)
Example mask_inherited_name_raises :
  InputMask.mask (InputMask.new None) (str "1") (Name (str "toString")) = Throw TypeError.
Proof. vm_compute. reflexivity. Qed.




(** On an instance made by the constructor, [mask] without a selector runs
    the stored templates over the very token table [isComplete] uses: a
    complete value is one for which the loop of [applyMask] finds a template,
    and [mask] returns that template's result. *)
Lemma stored_tokens (o : option MaskOptions) :
  default ∅ (tokens (InputMask.options (InputMask.new o)))
    ∪ InputMask.this_tokens (InputMask.new o)
  = InputMask.this_tokens (InputMask.new o).
Proof.
  unfold InputMask.new. cbn [InputMask.options InputMask.this_tokens tokens].
  cbn [default from_option id]. by rewrite (assoc_L (∪)), (idemp_L (∪)).
Qed.

Lemma isComplete_mask (o : option MaskOptions) value :
  InputMask.isComplete (InputMask.new o) value = true <->
  exists r,
    InputMask.first_fit
      (fun template =>
         InputMask.processValue value template (InputMask.this_tokens (InputMask.new o))
           (InputMask.options (InputMask.new o)))
      (InputMask.masks_of (InputMask.options (InputMask.new o))) = Some r
    /\ InputMask.mask (InputMask.new o) value Absent = Normal r.
Proof.
  unfold InputMask.mask, InputMask.applyMask. rewrite (stored_tokens o).
  unfold InputMask.isComplete. rewrite existsb_exists.
  set (this := InputMask.new o). split.
  - intros (template & Hin & H). apply bool_decide_eq_true in H.
    destruct (InputMask.first_fit _ _) as [r|] eqn:E; [by exists r|].
    apply first_fit_None in E. rewrite Forall_forall in E.
    apply list_elem_of_In, E in Hin. done.
  - intros (r & Hr & _). apply first_fit_Some in Hr as (b & template & a & Hm & _ & Hr).
    exists template. split.
    + apply list_elem_of_In. rewrite Hm. apply elem_of_app. right. left.
    + apply bool_decide_eq_true. by rewrite Hr.
Qed.


(** The same with a template that begins with the marker: "?9" on "a"
    passes over the letter and returns the empty string. *)
Example isComplete_marker_first :
  let this := InputMask.new (Some (only_mask (One (str "?9")) (Some false))) in
  InputMask.isComplete this (str "a") = true
  /\ InputMask.processValue (str "a") (str "?9") (InputMask.this_tokens this)
       (InputMask.options this) = Some [].
Proof. split; vm_compute; reflexivity. Qed.

End InputMaskFacts.

(** * Further properties *)

(** ** The single-template algorithm outside optional mode *)

Section PlainTemplates.

Local Abbreviation tokens_t := (gmap (list ascii) MaskToken).

Implicit Types (value template extra out : list ascii) (options : MaskOptions).
Implicit Types (c : InputMask.Cursor) (this : InputMask.t).

(** One round of the loop while optional mode is off. *)
Lemma mask_step_plain value (tokens : tokens_t) options maskChar c :
  InputMask.isOptional c = false -> maskChar <> "?"%char ->
  match InputMask.mask_step value tokens options maskChar c with
  | InputMask.Stop r => r = InputMask.clear_or_null options
  | InputMask.Next c' =>
      InputMask.isOptional c' = false
      /\ InputMask.valueIndex c < length value
      /\ ((exists tok char,
             tokens !! [maskChar] = Some tok
             /\ value !! InputMask.valueIndex c = Some char
             /\ pattern tok char = true
             /\ InputMask.result c' = InputMask.result c ++ InputMask.transformed tok char
             /\ InputMask.valueIndex c' = S (InputMask.valueIndex c))
          \/ (tokens !! [maskChar] = None
              /\ InputMask.result c' = InputMask.result c ++ [maskChar]
              /\ InputMask.valueIndex c'
                 = if decide (value !! InputMask.valueIndex c = Some maskChar)
                   then S (InputMask.valueIndex c) else InputMask.valueIndex c))
  end.
Proof.
  intros Ho Hne. unfold InputMask.mask_step. rewrite Ho.
  destruct (Nat.leb_spec (length value) (InputMask.valueIndex c)) as [Hlen|Hlen]; [done|].
  rewrite (proj2 (Ascii.eqb_neq _ _)) by done.
  destruct (tokens !! [maskChar]) as [tok|] eqn:Htok.
  - destruct (lookup_lt_is_Some_2 _ _ Hlen) as [char Hchar].
    rewrite (drop_S _ _ _ Hchar). cbn [InputMask.token_loop].
    destruct (pattern tok char) eqn:Hp; simpl; [|done].
    split; [done|]. split; [done|]. left. by exists tok, char.
  - simpl. split; [done|]. split; [done|]. by right.
Qed.

(** The same step on a longer value. *)
Lemma mask_step_longer value extra (tokens : tokens_t) options maskChar c c' :
  InputMask.isOptional c = false ->
  InputMask.mask_step value tokens options maskChar c = InputMask.Next c' ->
  InputMask.mask_step (value ++ extra) tokens options maskChar c = InputMask.Next c'.
Proof.
  intros Ho. unfold InputMask.mask_step. rewrite Ho.
  destruct (Nat.leb_spec (length value) (InputMask.valueIndex c)) as [Hlen|Hlen]; [done|].
  rewrite (proj2 (Nat.leb_gt _ _)) by (rewrite length_app; lia).
  destruct (Ascii.eqb maskChar "?"); [done|].
  destruct (tokens !! [maskChar]) as [tok|].
  - destruct (lookup_lt_is_Some_2 _ _ Hlen) as [char Hchar].
    rewrite (drop_S _ _ _ Hchar).
    rewrite (drop_S (value ++ extra) char) by (by rewrite lookup_app_l).
    cbn [InputMask.token_loop]. by destruct (pattern tok char).
  - by rewrite lookup_app_l.
Qed.

(** The whole loop while optional mode is off: it either returns the
    [autoClear] answer or ends with a cursor inside the value, past at
    least one character per placeholder. *)
Lemma mask_loop_plain value (tokens : tokens_t) options template : forall c,
  "?"%char ∉ template -> InputMask.isOptional c = false ->
  match InputMask.mask_loop value tokens options template c with
  | InputMask.Stop r => r = InputMask.clear_or_null options
  | InputMask.Next c' =>
      InputMask.isOptional c' = false
      /\ InputMask.valueIndex c + placeholders tokens template <= InputMask.valueIndex c'
      /\ (InputMask.valueIndex c <= length value -> InputMask.valueIndex c' <= length value)
  end.
Proof.
  induction template as [|maskChar p IH]; intros c Hq Ho; cbn [InputMask.mask_loop].
  { unfold placeholders. simpl. repeat split; [done | lia | done]. }
  apply not_elem_of_cons in Hq as [Hne Hq].
  pose proof (mask_step_plain value tokens options maskChar c Ho (not_eq_sym Hne)) as Hstep.
  destruct (InputMask.mask_step _ _ _ _ _) as [r|c1]; [done|].
  destruct Hstep as (Ho1 & Hlen & Hstep). specialize (IH c1 Hq Ho1).
  destruct (InputMask.mask_loop _ _ _ _ c1) as [r|c']; [done|].
  destruct IH as (Ho' & Hcount & Hin). split; [done|].
  unfold placeholders in *. rewrite filter_cons.
  destruct Hstep as [(tok & char & Htok & Hchar & _ & _ & Hvi)|(Htok & _ & Hvi)].
  - rewrite decide_True by (by rewrite Htok). simpl. split; [lia|]. intros _. apply Hin. lia.
  - rewrite decide_False by (rewrite Htok; by intros [? ?]).
    destruct (decide (value !! InputMask.valueIndex c = Some maskChar)); split; try lia.
    all: intros _; apply Hin; lia.
Qed.

Lemma mask_loop_longer value extra (tokens : tokens_t) options template : forall c c',
  "?"%char ∉ template -> InputMask.isOptional c = false ->
  InputMask.mask_loop value tokens options template c = InputMask.Next c' ->
  InputMask.mask_loop (value ++ extra) tokens options template c = InputMask.Next c'.
Proof.
  induction template as [|maskChar p IH]; intros c c' Hq Ho; cbn [InputMask.mask_loop];
    [done|].
  apply not_elem_of_cons in Hq as [Hne Hq].
  pose proof (mask_step_plain value tokens options maskChar c Ho (not_eq_sym Hne)) as Hstep.
  destruct (InputMask.mask_step value _ _ _ _) as [r|c1] eqn:E; [done|].
  rewrite (mask_step_longer _ _ _ _ _ _ _ Ho E). apply IH; [done | tauto].
Qed.

(** What the loop appends is as long as the template, when every token
    turns an accepted character into one character. *)
Lemma mask_loop_length value (tokens : tokens_t) options template : forall c c',
  one_for_one tokens -> "?"%char ∉ template -> InputMask.isOptional c = false ->
  InputMask.mask_loop value tokens options template c = InputMask.Next c' ->
  length (InputMask.result c') = length (InputMask.result c) + length template.
Proof.
  intros c c' Hone. revert c c'.
  induction template as [|maskChar p IH]; intros c c' Hq Ho; cbn [InputMask.mask_loop].
  { intros [= ->]. simpl. lia. }
  apply not_elem_of_cons in Hq as [Hne Hq].
  pose proof (mask_step_plain value tokens options maskChar c Ho (not_eq_sym Hne)) as Hstep.
  destruct (InputMask.mask_step _ _ _ _ _) as [r|c1]; [done|].
  destruct Hstep as (Ho1 & _ & Hstep). intros Hloop.
  rewrite (IH c1 c' Hq Ho1 Hloop).
  destruct Hstep as [(tok & char & Htok & _ & Hp & -> & _)|(Htok & -> & _)].
  - rewrite length_app, (Hone maskChar tok char Htok Hp). simpl. lia.
  - rewrite length_app. simpl. lia.
Qed.

(** The loop reads [options] for [autoClear] only. *)
Lemma mask_loop_options value (tokens : tokens_t) (o1 o2 : MaskOptions) template :
  truthy (autoClear o1) = truthy (autoClear o2) ->
  forall c, InputMask.mask_loop value tokens o1 template c
            = InputMask.mask_loop value tokens o2 template c.
Proof.
  intros Hac.
  assert (Hclear : InputMask.clear_or_null o1 = InputMask.clear_or_null o2)
    by (unfold InputMask.clear_or_null; by rewrite Hac).
  assert (Htok : forall tok opt pending vi res,
            InputMask.token_loop tok o1 opt pending vi res
            = InputMask.token_loop tok o2 opt pending vi res).
  { intros tok opt pending. induction pending as [|ch pending IH]; intros vi res; simpl;
      [done|]. destruct (pattern tok ch); [done|]. destruct opt; simpl; [apply IH|].
    by rewrite Hclear. }
  induction template as [|maskChar p IH]; intros c; simpl; [done|].
  unfold InputMask.mask_step. rewrite Hclear. destruct (_ <=? _); [done|].
  destruct (Ascii.eqb _ _); [apply IH|].
  destruct (tokens !! [maskChar]); [|apply IH].
  rewrite Htok. destruct (InputMask.token_loop _ _ _ _ _ _); [done | apply IH].
Qed.




(** [applyMask] on options with one template. *)
Lemma applyMask_single this value options template :
  InputMask.masks_of options = [template] ->
  InputMask.applyMask this value options
  = Normal (default [] (InputMask.processValue value template
                          (default ∅ (tokens options) ∪ InputMask.this_tokens this)
                          options)).
Proof.
  intros Hm. unfold InputMask.applyMask. rewrite Hm. simpl.
  destruct (InputMask.processValue _ _ _ _); [done|]. by destruct (_ && _).
Qed.

(** X3.  With at least one template, [allowEmpty] changes nothing: when
    every template fails the result is the empty string with or without
    it. *)
Theorem applyMask_ignores_allowEmpty this value options ae :
  InputMask.masks_of options <> [] ->
  InputMask.applyMask this value (with_allowEmpty ae options)
  = InputMask.applyMask this value options.
Proof.
  intros Hne. unfold InputMask.applyMask.
  change (InputMask.masks_of (with_allowEmpty ae options)) with (InputMask.masks_of options).
  change (tokens (with_allowEmpty ae options)) with (tokens options).
  set (tk := default ∅ (tokens options) ∪ InputMask.this_tokens this).
  assert (Hrun : forall template,
            InputMask.processValue value template tk (with_allowEmpty ae options)
            = InputMask.processValue value template tk options).
  { intros template. unfold InputMask.processValue. by rewrite (mask_loop_options _ _ _ options). }
  assert (Hfit : forall masks,
            InputMask.first_fit
              (fun template => InputMask.processValue value template tk
                                 (with_allowEmpty ae options)) masks
            = InputMask.first_fit
                (fun template => InputMask.processValue value template tk options) masks).
  { induction masks as [|t masks IH]; simpl; [done|]. by rewrite Hrun, IH. }
  rewrite Hfit.
  destruct (InputMask.first_fit _ _) as [r|] eqn:E; [done|].
  destruct (InputMask.masks_of options) as [|first masks]; [done|]. simpl in *.
  rewrite Hrun. destruct (InputMask.processValue value first tk options); [done|].
  by destruct (_ && _), (_ && _).
Qed.

Lemma applyMask_ignores_allowEmpty_witness :
  InputMask.applyMask (InputMask.new None) []
    (with_allowEmpty (Some true) (only_mask (One (str "99")) (Some false)))
  = InputMask.applyMask (InputMask.new None) [] (only_mask (One (str "99")) (Some false)).
Proof.
  apply (applyMask_ignores_allowEmpty (InputMask.new None) []
           (only_mask (One (str "99")) (Some false)) (Some true)).
  discriminate.
Defined.



(** X5.  Input after the last character a template without marker needs is
    ignored: a result that is not empty stays the same when the value is
    extended. *)
Theorem processValue_ignores_rest value extra template (tokens : tokens_t) options out :
  "?"%char ∉ template ->
  InputMask.processValue value template tokens options = Some out ->
  out <> [] ->
  InputMask.processValue (value ++ extra) template tokens options = Some out.
Proof.
  intros Hq Hout Hne. unfold InputMask.processValue in *.
  pose proof (mask_loop_plain value tokens options template InputMask.start_cursor
                Hq eq_refl) as Hloop.
  destruct (InputMask.mask_loop value _ _ _ _) as [r|c'] eqn:E.
  - rewrite Hloop in Hout. unfold InputMask.clear_or_null in Hout.
    destruct (truthy _); [|done]. by injection Hout as <-.
  - by rewrite (mask_loop_longer value extra tokens options template
                  InputMask.start_cursor c' Hq eq_refl E).
Qed.

Lemma processValue_ignores_rest_witness :
  InputMask.processValue (str "1234567890" ++ str "1234") (str "(999) 999-9999")
    InputMask.DEFAULT_TOKENS (only_mask (One (str "(999) 999-9999")) (Some true))
  = Some (str "(123) 456-7890").
Proof.
  apply processValue_ignores_rest.
  - apply (bool_decide_unpack _). vm_compute. exact I.
  - vm_compute. reflexivity.
  - discriminate.
Defined.

(** The default tokens are settled. *)
Lemma settled_token_spec tok :
  settled_token tok = true ->
  forall char, pattern tok char = true ->
    exists char', InputMask.transformed tok char = [char']
                  /\ pattern tok char' = true
                  /\ InputMask.transformed tok char' = [char'].
Proof.
  unfold settled_token. rewrite forallb_forall. intros H char Hp.
  specialize (H char (proj1 (list_elem_of_In _ _) (all_ascii_complete char))).
  rewrite Hp in H. simpl in H.
  destruct (InputMask.transformed tok char) as [|char' [|? ?]]; try done.
  apply andb_true_iff in H as [H1 H2]. apply bool_decide_eq_true in H2. by exists char'.
Qed.

Lemma settled_DEFAULT_TOKENS : settled InputMask.DEFAULT_TOKENS.
Proof.
  intros maskChar tok char Htok. apply settled_token_spec. revert Htok.
  unfold InputMask.DEFAULT_TOKENS. intros Htok%elem_of_list_to_map_2.
  repeat (apply elem_of_cons in Htok as [[= _ ->]|Htok]; [by vm_compute|]).
  by apply elem_of_nil in Htok.
Qed.

Lemma settled_one_for_one (tokens : tokens_t) : settled tokens -> one_for_one tokens.
Proof.
  intros Hs maskChar tok char Htok Hp.
  by destruct (Hs maskChar tok char Htok Hp) as (char' & -> & _).
Qed.


(** X6.  All or nothing: when every token turns an accepted character into
    one character (the default ones do), the result of a template without
    marker is empty or as long as the template. *)
Theorem processValue_all_or_nothing value template (tokens : tokens_t) options out :
  one_for_one tokens -> "?"%char ∉ template ->
  InputMask.processValue value template tokens options = Some out ->
  out = [] \/ length out = length template.
Proof.
  intros Hone Hq Hout. unfold InputMask.processValue in Hout.
  pose proof (mask_loop_plain value tokens options template InputMask.start_cursor
                Hq eq_refl) as Hloop.
  destruct (InputMask.mask_loop _ _ _ _ _) as [r|c'] eqn:E.
  - left. rewrite Hloop in Hout. unfold InputMask.clear_or_null in Hout.
    destruct (truthy _); [|done]. by injection Hout as <-.
  - right. injection Hout as <-.
    by rewrite (mask_loop_length value tokens options template InputMask.start_cursor c'
                  Hone Hq eq_refl E).
Qed.

Lemma processValue_all_or_nothing_witness :
  str "12/25/2023" = [] \/ length (str "12/25/2023") = length (str "99/99/9999").
Proof.
  apply (processValue_all_or_nothing (str "12252023") (str "99/99/9999")
           InputMask.DEFAULT_TOKENS (only_mask (One (str "99/99/9999")) None)).
  - apply settled_one_for_one, settled_DEFAULT_TOKENS.
  - apply (bool_decide_unpack _). vm_compute. exact I.
  - vm_compute. reflexivity.
Defined.

End PlainTemplates.

(** ** [isComplete] *)

Section Completeness.

Local Abbreviation tokens_t := (gmap (list ascii) MaskToken).

Implicit Types (value template out : list ascii) (options : MaskOptions).
Implicit Types (this : InputMask.t).




End Completeness.

(** ** Digit templates and the formatting methods of the facade *)

Section DigitTemplates.

Local Abbreviation tokens_t := (gmap (list ascii) MaskToken).

Implicit Types (value template out : list ascii) (options : MaskOptions).

Lemma placeholders_cons (tokens : tokens_t) maskChar template :
  placeholders tokens (maskChar :: template)
  = match tokens !! [maskChar] with Some _ => 1 | None => 0 end
    + placeholders tokens template.
Proof.
  unfold placeholders. rewrite filter_cons.
  destruct (tokens !! [maskChar]) eqn:E.
  - by rewrite decide_True by done.
  - by rewrite decide_False by (by intros [? ?]).
Qed.

Lemma digit_is_alnum char : is_digit char = true -> is_alnum char = true.
Proof. unfold is_alnum. intros ->. by rewrite orb_true_r. Qed.

Lemma mask_loop_fill value (tokens : tokens_t) options :
  nine_is_digit tokens -> Forall (fun char => is_digit char = true) value ->
  forall template c,
    digit_template tokens template -> InputMask.isOptional c = false ->
    (template <> [] ->
     InputMask.valueIndex c + placeholders tokens (removelast template) < length value) ->
    exists c', InputMask.mask_loop value tokens options template c = InputMask.Next c'
               /\ InputMask.result c'
                  = InputMask.result c ++ fill template (drop (InputMask.valueIndex c) value).
Proof.
  intros (tok & Hnine & Hpat & Htr) Hdigits.
  induction template as [|maskChar p IH]; intros c Htemplate Ho Hlen;
    cbn [InputMask.mask_loop].
  { exists c. split; [done|]. by rewrite app_nil_r. }
  apply Forall_cons in Htemplate as [Hhead Htemplate].
  assert (Hvi : InputMask.valueIndex c < length value) by (specialize (Hlen ltac:(done)); lia).
  destruct (lookup_lt_is_Some_2 _ _ Hvi) as [char Hchar].
  assert (Hd : is_digit char = true).
  { rewrite Forall_forall in Hdigits. apply Hdigits. by eapply list_elem_of_lookup_2. }
  unfold InputMask.mask_step. rewrite (proj2 (Nat.leb_gt _ _)) by done.
  cbn [fill]. rewrite (drop_S _ _ _ Hchar).
  destruct Hhead as [->|(Hq & Hnone & Halnum)].
  - change (Ascii.eqb "9" "?") with false. change (Ascii.eqb "9" "9") with true.
    rewrite Hnine. cbn [InputMask.token_loop]. rewrite Hpat, Hd, Htr.
    set (c1 := {| InputMask.result := InputMask.result c ++ [char] |}).
    destruct (IH c1 Htemplate Ho) as (c' & Hloop & Hres).
    { intros Hp. specialize (Hlen ltac:(done)). simpl.
      destruct p as [|m p]; [done|].
      change (removelast ("9"%char :: m :: p)) with ("9"%char :: removelast (m :: p)) in Hlen.
      rewrite placeholders_cons, Hnine in Hlen. lia. }
    exists c'. split; [done|]. rewrite Hres. simpl. by rewrite <- app_assoc.
  - rewrite (proj2 (Ascii.eqb_neq _ _)) by done. rewrite Hnone.
    assert (Hne9 : maskChar <> "9"%char) by (intros ->; done).
    rewrite (proj2 (Ascii.eqb_neq _ _)) by done.
    rewrite decide_False.
    2:{ rewrite Hchar. intros [= ->]. apply digit_is_alnum in Hd. congruence. }
    set (c1 := {| InputMask.result := InputMask.result c ++ [maskChar] |}).
    destruct (IH c1 Htemplate Ho) as (c' & Hloop & Hres).
    { intros Hp. specialize (Hlen ltac:(done)). simpl.
      destruct p as [|m p]; [done|].
      change (removelast (maskChar :: m :: p)) with (maskChar :: removelast (m :: p)) in Hlen.
      rewrite placeholders_cons, Hnone in Hlen. lia. }
    exists c'. split; [done|]. rewrite Hres. simpl.
    rewrite (drop_S _ _ _ Hchar). by rewrite <- app_assoc.
Qed.

Lemma processValue_filled value template (tokens : tokens_t) options :
  nine_is_digit tokens -> digit_template tokens template ->
  Forall (fun char => is_digit char = true) value ->
  placeholders tokens (removelast template) < length value ->
  InputMask.processValue value template tokens options = Some (fill template value).
Proof.
  intros Hnine Htemplate Hdigits Hlen. unfold InputMask.processValue.
  destruct (mask_loop_fill value tokens options Hnine Hdigits template
              InputMask.start_cursor Htemplate eq_refl) as (c' & -> & Hres);
    [intros _; simpl; lia|].
  by rewrite Hres.
Qed.


Lemma nine_is_digit_DEFAULT_TOKENS : nine_is_digit InputMask.DEFAULT_TOKENS.
Proof. by exists (InputMask.token is_digit (Some (fun char => [char]))). Qed.


(** Stripping a filled digit template gives the digits back. *)
Lemma strip_fill (tokens : tokens_t) template : forall value,
  nine_is_digit tokens -> digit_template tokens template ->
  Forall (fun char => is_digit char = true) value ->
  filter (fun c => is_alnum c = true) (fill template value)
  = take (placeholders tokens template) value.
Proof.
  intros value (tok & Hnine & _) Htemplate. revert value.
  induction Htemplate as [|maskChar p Hhead _ IH]; intros value Hdigits; [done|].
  rewrite placeholders_cons. cbn [fill].
  destruct Hhead as [->|(Hq & Hnone & Halnum)].
  - change (Ascii.eqb "9" "9") with true. rewrite Hnine.
    destruct Hdigits as [|d value Hd Hdigits]; [done|].
    rewrite filter_cons, decide_True by (by apply digit_is_alnum).
    simpl. by rewrite IH.
  - assert (Hne9 : maskChar <> "9"%char) by (intros ->; done).
    rewrite (proj2 (Ascii.eqb_neq _ _)) by done. rewrite Hnone.
    rewrite filter_cons, decide_False by congruence. simpl. by apply IH.
Qed.

End DigitTemplates.

Section FacadeFormatting.

Implicit Types (this : TextUtils.t) (value : list ascii).

Lemma preset_phone :
  InputMask.PRESET_MASKS !! str "phone"
  = Some (InputMask.preset "(999) 999-9999" None (Some true) None None).
Proof. vm_compute. reflexivity. Qed.

Lemma preset_date :
  InputMask.PRESET_MASKS !! str "date"
  = Some (InputMask.preset "99/99/9999" (Some "mm/dd/yyyy"%string) None None None).
Proof. vm_compute. reflexivity. Qed.

Lemma preset_currency :
  InputMask.PRESET_MASKS !! str "currency"
  = Some (InputMask.preset "$999,999,999.99" None (Some false) (Some true) None).
Proof. vm_compute. reflexivity. Qed.

(** A preset without tokens of its own on an instance with the default
    tokens. *)
Lemma mask_preset_default (m : InputMask.t) value name template ph ac ae :
  InputMask.PRESET_MASKS !! name = Some (InputMask.preset template ph ac ae None) ->
  InputMask.this_tokens m = InputMask.DEFAULT_TOKENS ->
  InputMask.mask m value (Name name)
  = Normal (default [] (InputMask.processValue value (str template)
                          InputMask.DEFAULT_TOKENS
                          (InputMask.preset template ph ac ae None))).
Proof.
  intros Hp Ht. unfold InputMask.mask. rewrite Hp.
  rewrite (applyMask_single _ _ _ (str template)) by done.
  cbn [tokens InputMask.preset default from_option]. by rewrite Ht, (left_id_L ∅ (∪)).
Qed.

Lemma digit_template_Forall (tokens : gmap (list ascii) MaskToken) template :
  forallb (fun maskChar =>
             Ascii.eqb maskChar "9"
             || (negb (Ascii.eqb maskChar "?")
                 && bool_decide (tokens !! [maskChar] = None)
                 && negb (is_alnum maskChar))) template = true ->
  digit_template tokens template.
Proof.
  rewrite forallb_forall. intros H. apply Forall_forall. intros c Hc.
  apply list_elem_of_In, H in Hc. apply orb_true_iff in Hc as [Hc|Hc].
  - left. by apply Ascii.eqb_eq.
  - right. apply andb_true_iff in Hc as [Hc H3]. apply andb_true_iff in Hc as [H1 H2].
    apply negb_true_iff in H1, H3. apply Ascii.eqb_neq in H1.
    by apply bool_decide_eq_true in H2.
Qed.

Lemma digit_preset_default (m : InputMask.t) value name template ph ac ae :
  InputMask.PRESET_MASKS !! name = Some (InputMask.preset template ph ac ae None) ->
  InputMask.this_tokens m = InputMask.DEFAULT_TOKENS ->
  digit_template InputMask.DEFAULT_TOKENS (str template) ->
  Forall (fun char => is_digit char = true) value ->
  placeholders InputMask.DEFAULT_TOKENS (removelast (str template)) < length value ->
  InputMask.mask m value (Name name) = Normal (fill (str template) value).
Proof.
  intros Hp Ht Htemplate Hdigits Hlen.
  rewrite (mask_preset_default _ _ _ _ _ _ _ Hp Ht).
  by rewrite processValue_filled; [|apply nine_is_digit_DEFAULT_TOKENS|..].
Qed.

Lemma default_facade : 
  InputMask.this_tokens (TextUtils.inputMask (TextUtils.new None)) = InputMask.DEFAULT_TOKENS.
Proof.
  change ((∅ : gmap (list ascii) MaskToken) ∪ InputMask.DEFAULT_TOKENS
          = InputMask.DEFAULT_TOKENS).
  apply (left_id_L ∅ (∪)).
Qed.

(** X9.  On a string of at least ten digits, [formatPhoneNumber] returns
    "(ddd) ddd-dddd" and [formatDate] "dd/dd/dddd", filled with its leading
    digits (for a facade whose mask engine has the default tokens). *)
Theorem format_digits this value :
  InputMask.this_tokens (TextUtils.inputMask this) = InputMask.DEFAULT_TOKENS ->
  Forall (fun char => is_digit char = true) value ->
  10 <= length value ->
  TextUtils.formatPhoneNumber this value = Normal (fill (str "(999) 999-9999") value)
  /\ TextUtils.formatDate this value = Normal (fill (str "99/99/9999") value).
Proof.
  intros Ht Hdigits Hlen. unfold TextUtils.formatPhoneNumber, TextUtils.formatDate. split.
  - apply (digit_preset_default _ _ _ _ _ _ _ preset_phone Ht); [|done|].
    + apply digit_template_Forall. vm_compute. reflexivity.
    + change (placeholders _ _) with 9. lia.
  - apply (digit_preset_default _ _ _ _ _ _ _ preset_date Ht); [|done|].
    + apply digit_template_Forall. vm_compute. reflexivity.
    + change (placeholders _ _) with 7. lia.
Qed.

Lemma format_digits_witness :
  TextUtils.formatPhoneNumber (TextUtils.new None) (str "12252023001")
  = Normal (fill (str "(999) 999-9999") (str "12252023001"))
  /\ TextUtils.formatDate (TextUtils.new None) (str "12252023001")
     = Normal (fill (str "99/99/9999") (str "12252023001")).
Proof.
  apply (format_digits (TextUtils.new None) (str "12252023001")).
  - apply default_facade.
  - apply Forall_forall. intros c Hc. apply list_elem_of_In in Hc. simpl in Hc.
    repeat (destruct Hc as [<-|Hc]; [reflexivity|]). done.
  - vm_compute. lia.
Defined.

(** X10.  [formatCurrency] returns the empty string for every amount of
    fewer than eleven characters: the template of the preset has eleven
    placeholders and no optional part. *)
Theorem formatCurrency_short this value :
  InputMask.this_tokens (TextUtils.inputMask this) = InputMask.DEFAULT_TOKENS ->
  length value < 11 ->
  TextUtils.formatCurrency this value = Normal [].
Proof.
  intros Ht Hlen. unfold TextUtils.formatCurrency.
  rewrite (mask_preset_default _ _ _ _ _ _ _ preset_currency Ht).
  unfold InputMask.processValue.
  pose proof (mask_loop_plain value InputMask.DEFAULT_TOKENS
                (InputMask.preset "$999,999,999.99" None (Some false) (Some true) None)
                (str "$999,999,999.99") InputMask.start_cursor) as Hloop.
  destruct (InputMask.mask_loop _ _ _ _ _) as [r|c'].
  - by rewrite Hloop; [|apply (bool_decide_unpack _); vm_compute|].
  - destruct Hloop as (_ & Hcount & Hin); [by apply (bool_decide_unpack _); vm_compute|done|].
    change (placeholders _ _) with 11 in Hcount. simpl in *. specialize (Hin ltac:(lia)). lia.
Qed.

Lemma formatCurrency_short_witness :
  TextUtils.formatCurrency (TextUtils.new None) (str "1234.5") = Normal [].
Proof.
  apply formatCurrency_short; [apply default_facade | vm_compute; lia].
Defined.

(** X11.  Round trip: with [stripMask] on, stripping what
    [formatPhoneNumber] makes of a string of at least ten digits gives its
    first ten digits back. *)
Theorem stripMask_formatPhoneNumber this value out :
  InputMask.this_tokens (TextUtils.inputMask this) = InputMask.DEFAULT_TOKENS ->
  truthy (stripMask (InputMask.options (TextUtils.inputMask this))) = true ->
  Forall (fun char => is_digit char = true) value ->
  10 <= length value ->
  TextUtils.formatPhoneNumber this value = Normal out ->
  TextUtils.stripMask this out = take 10 value.
Proof.
  intros Ht Hstrip Hdigits Hlen. unfold TextUtils.formatPhoneNumber.
  assert (Htemplate : digit_template InputMask.DEFAULT_TOKENS (str "(999) 999-9999"))
    by (apply digit_template_Forall; vm_compute; reflexivity).
  rewrite (digit_preset_default _ _ _ _ _ _ _ preset_phone Ht Htemplate Hdigits)
    by (change (placeholders _ _) with 9; lia).
  intros Hout. assert (out = fill (str "(999) 999-9999") value) as -> by congruence.
  unfold TextUtils.stripMask, InputMask.stripMask. rewrite Hstrip. cbn [negb].
  rewrite (strip_fill InputMask.DEFAULT_TOKENS);
    [done | apply nine_is_digit_DEFAULT_TOKENS | done | done].
Qed.

Lemma stripMask_formatPhoneNumber_witness :
  TextUtils.stripMask
    (TextUtils.new (Some {| TextUtils.parser_options := None;
                            TextUtils.mask_options :=
                              Some {| mask := One []; tokens := None; placeholder := None;
                                      autoClear := None; stripMask := Some true;
                                      allowEmpty := None |} |}))
    (str "(123) 456-7890")
  = take 10 (str "1234567890").
Proof.
  apply stripMask_formatPhoneNumber.
  - change ((∅ : gmap (list ascii) MaskToken) ∪ InputMask.DEFAULT_TOKENS
            = InputMask.DEFAULT_TOKENS).
    apply (left_id_L ∅ (∪)).
  - reflexivity.
  - apply Forall_forall. intros c Hc. apply list_elem_of_In in Hc. simpl in Hc.
    repeat (destruct Hc as [<-|Hc]; [reflexivity|]). done.
  - vm_compute. lia.
  - vm_compute. reflexivity.
Defined.

End FacadeFormatting.

(** ** The records of one recognizer *)

Section Records.
Import RegExp TextParser.

Implicit Types (this : TextParser.t) (input : list ascii) (baseUrls : option BaseUrls).

(** The matches of [matchAll] follow one another without overlap. *)
Lemma matchAll_from_chained input ic r n : forall i,
  Forall (fun m => i <= index m) (matchAll_from input ic r n i)
  /\ StronglySorted chained (matchAll_from input ic r n i).
Proof.
  induction n as [|n IH]; intros i; simpl; [split; constructor|].
  destruct (RegExpBuiltinExec _ _ r i) as [[j y]|] eqn:E; [|split; constructor].
  apply RegExpBuiltinExec_spec in E as (Hj & Hy & _).
  destruct (make_match_whole input r j y) as [Hlen _]; [lia | done |].
  set (next := if bool_decide (endIndex y = j) then S (endIndex y) else endIndex y).
  destruct (IH next) as [Hfrom Hsorted].
  assert (Hnext : endIndex y <= next) by (unfold next; case_bool_decide; lia).
  split.
  - constructor; [simpl; lia|]. eapply Forall_impl; [exact Hfrom|]. simpl. intros; lia.
  - constructor; [done|]. eapply Forall_impl; [exact Hfrom|].
    intros m Hm. unfold chained. rewrite Hlen.
    change (index (make_match input r j y)) with j. simpl in Hm. lia.
Qed.

Lemma built_precedes input ic r (f : Match -> TextMatch) :
  (forall m, position (f m) = span m) ->
  StronglySorted precedes (f <$> matchAll input ic r).
Proof.
  intros Hf. destruct (matchAll_from_chained input ic r (S (length input)) 0) as [_ H].
  fold (matchAll input ic r) in H.
  induction H as [|a l _ IH Ha]; simpl; constructor; [done|].
  apply Forall_fmap. eapply Forall_impl; [exact Ha|].
  intros b Hab. unfold precedes, compose. by rewrite !Hf.
Qed.

Lemma pushed_precedes t this input baseUrls :
  StronglySorted precedes (pushed t this input baseUrls).
Proof.
  destruct t; simpl; (destruct (_ this); [|constructor]); by apply built_precedes.
Qed.

Lemma pushed_span t this input baseUrls :
  Forall (fun m => type m = t /\ start (position m) <= end_ (position m))
         (pushed t this input baseUrls).
Proof.
  destruct t; simpl; (destruct (_ this); [|constructor]).
  all: apply Forall_fmap, Forall_forall; intros m _; split; [done|]; simpl; lia.
Qed.

(** Sorting leaves a list whose records follow one another as it is, and
    commutes with the choice of the records of one type. *)
Lemma sort_by_start_sorted_id l :
  StronglySorted by_start l -> sort_by_start l = l.
Proof.
  induction 1 as [|a l _ IH Ha]; simpl; [done|]. rewrite IH.
  destruct Ha as [|b l Hab _]; simpl; [done|].
  by rewrite (proj2 (Nat.leb_le _ _)) by exact Hab.
Qed.

Lemma filter_insert_by_start (P : TextMatch -> Prop) `{!forall m, Decision (P m)} a l :
  StronglySorted by_start l ->
  filter P (insert_by_start a l)
  = if decide (P a) then insert_by_start a (filter P l) else filter P l.
Proof.
  induction 1 as [|b l Hl IH Hb]; simpl.
  { rewrite filter_cons. by destruct (decide (P a)). }
  destruct (Nat.leb_spec (start (position a)) (start (position b))) as [Hab|Hab].
  - rewrite filter_cons. destruct (decide (P a)); [|done].
    assert (Hall : Forall (by_start a) (filter P (b :: l))).
    { apply Forall_forall. intros m [_ Hm]%list_elem_of_filter.
      apply elem_of_cons in Hm as [->|Hm]; [exact Hab|].
      rewrite Forall_forall in Hb. specialize (Hb m Hm). unfold by_start in *. lia. }
    destruct Hall as [|m l' Hm _]; simpl; [done|].
    by rewrite (proj2 (Nat.leb_le _ _)) by exact Hm.
  - rewrite !filter_cons, IH.
    destruct (decide (P a)), (decide (P b)); simpl; try done.
    by rewrite (proj2 (Nat.leb_gt _ _)) by exact Hab.
Qed.

Lemma filter_sort_by_start (P : TextMatch -> Prop) `{!forall m, Decision (P m)} l :
  filter P (sort_by_start l) = sort_by_start (filter P l).
Proof.
  induction l as [|a l IH]; simpl; [done|].
  rewrite filter_insert_by_start by apply sort_by_start_sorted.
  rewrite filter_cons, IH. by destruct (decide (P a)).
Qed.

Lemma of_type_built t t' (f : Match -> TextMatch) (b : bool) (l : list Match) :
  (forall m, type (f m) = t') ->
  of_type t (if b then f <$> l else [])
  = if decide (t' = t) then (if b then f <$> l else []) else [].
Proof.
  intros Hf. unfold of_type. destruct b; [|by destruct (decide _)].
  induction l as [|m l IH]; [by destruct (decide _)|].
  rewrite fmap_cons, filter_cons, IH, Hf. by destruct (decide (t' = t)).
Qed.

Lemma precedes_by_start l :
  StronglySorted precedes l ->
  Forall (fun m => start (position m) <= end_ (position m)) l ->
  StronglySorted by_start l.
Proof.
  induction 1 as [|a l _ IH Ha]; intros Hp; [constructor|].
  apply Forall_cons in Hp as [Hspan Hp]. constructor; [by apply IH|].
  eapply Forall_impl; [exact Ha|]. unfold precedes, by_start. intros; lia.
Qed.

(** The records of one type in the result are those its recognizer pushed,
    in the order of its matches. *)
Lemma of_type_findLinkableElements t this input baseUrls :
  of_type t (findLinkableElements this input baseUrls) = pushed t this input baseUrls.
Proof.
  unfold of_type, findLinkableElements. rewrite filter_sort_by_start.
  assert (Hc : filter (fun m => type m = t) (collect this input baseUrls)
               = pushed t this input baseUrls).
  { unfold collect. rewrite !filter_app.
    repeat match goal with
           | |- context [filter ?P ?l] => change (filter P l) with (of_type t l)
           end.
    rewrite (of_type_built t url_t url_match) by done.
    rewrite (of_type_built t hashtag_t (hashtag_match baseUrls)) by done.
    rewrite (of_type_built t mention_t (mention_match baseUrls)) by done.
    rewrite (of_type_built t email_t email_match) by done.
    rewrite (of_type_built t phone_t phone_match) by done.
    rewrite (of_type_built t markdown_link_t (markdown_link_match baseUrls)) by done.
    destruct t; simpl; by rewrite ?app_nil_r. }
  rewrite Hc. apply sort_by_start_sorted_id, precedes_by_start.
  - apply pushed_precedes.
  - eapply Forall_impl; [apply pushed_span|]. by intros m [_ ?].
Qed.

(** X13.  The records of one type never overlap: in the result each one
    ends before the next of its type starts. *)
Theorem same_type_records_disjoint t this input baseUrls :
  StronglySorted precedes (of_type t (findLinkableElements this input baseUrls)).
Proof. rewrite of_type_findLinkableElements. apply pushed_precedes. Qed.

End Records.

(** ** No empty match *)

Section MinLength.
Import RegExp TextParser.

Variable Input : list ascii.
Variable IgnoreCase : bool.

Lemma RepSem_min_length (R : MatchState -> MatchState -> Prop) ps ml min max x y :
  (forall x y, R x y -> endIndex x + ml <= endIndex y) ->
  RepSem R ps min max x y ->
  endIndex x + match max with Some k => Nat.min min k | None => min end * ml
  <= endIndex y.
Proof.
  intros HR. induction 1 as [min max x Hstop|min max x y z Hmax Hxy _ IH].
  - destruct Hstop as [->| ->]; [destruct max; simpl; lia|].
    rewrite Nat.min_0_r. lia.
  - apply HR in Hxy. simpl in Hxy. destruct max as [[|k]|]; simpl in *; [done|nia|nia].
Qed.

Lemma Sem_min_length r : forall x y,
  Sem Input IgnoreCase r x y -> endIndex x + min_length r <= endIndex y.
Proof.
  induction r as [|A inv|r1 IH1 r2 IH2|r1 IH1 r2 IH2|r IH min max|n r IH|neg];
    intros x y; simpl.
  - intros ->. lia.
  - intros (ch & _ & _ & ->). simpl. lia.
  - intros (z & H1 & H2). apply IH1 in H1. apply IH2 in H2. lia.
  - intros [H|H]; [apply IH1 in H | apply IH2 in H]; lia.
  - apply RepSem_min_length, IH.
  - intros (z & H & ->). apply IH in H. simpl. lia.
  - intros [-> _]. lia.
Qed.

Lemma matchAll_min_length r m :
  m ∈ matchAll Input IgnoreCase r -> min_length r <= length (whole m).
Proof.
  intros (j & y & -> & Hj & Hy & HS)%matchAll_spec.
  destruct (make_match_whole Input r j y Hj Hy) as [-> _].
  apply Sem_min_length in HS. simpl in HS. lia.
Qed.

End MinLength.

Section RecordsOfPatterns.
Import RegExp TextParser.

Implicit Types (this : TextParser.t) (input : list ascii) (baseUrls : option BaseUrls).

(** Where a record comes from: a match of the pattern of its type. *)
Lemma record_origin this input baseUrls (m : TextMatch) :
  m ∈ findLinkableElements this input baseUrls ->
  m ∈ pushed (type m) this input baseUrls.
Proof.
  intros Hm. rewrite <- of_type_findLinkableElements. unfold of_type.
  apply list_elem_of_filter. by split.
Qed.

(** X14.  No record is empty: every record of [findLinkableElements] has
    [start < end]. *)
Theorem records_not_empty this input baseUrls (m : TextMatch) :
  m ∈ findLinkableElements this input baseUrls ->
  start (position m) < end_ (position m).
Proof.
  intros Hm%record_origin. revert Hm.
  destruct (type m); simpl; (destruct (_ this); [|by intros ?%elem_of_nil]).
  all: intros (m' & -> & Hm')%list_elem_of_fmap.
  all: apply matchAll_min_length in Hm'; simpl; vm_compute min_length in Hm'; lia.
Qed.

Lemma records_not_empty_witness :
  start {| start := 46; end_ := 54 |} < end_ {| start := 46; end_ := 54 |}.
Proof.
  apply (records_not_empty (TextParser.new None) scenario None
           {| type := hashtag_t; text := str "#support"; value := str "support";
              position := {| start := 46; end_ := 54 |};
              url := Some (str "/tags/support") |}).
  vm_compute. right. right. left.
Defined.

(** X15.  The extractors of the facade agree with [findLinkableElements]:
    they return, in the same order, the [text] of its url, mention and
    hashtag records and the [value] of its phone records. *)
Theorem extractors_agree (u : TextUtils.t) input baseUrls :
  TextUtils.extractUrls u input
  = text <$> of_type url_t (TextUtils.findLinkableElements u input baseUrls)
  /\ TextUtils.extractMentions u input
     = text <$> of_type mention_t (TextUtils.findLinkableElements u input baseUrls)
  /\ TextUtils.extractHashtags u input
     = text <$> of_type hashtag_t (TextUtils.findLinkableElements u input baseUrls)
  /\ TextUtils.extractPhones u input
     = value <$> of_type phone_t (TextUtils.findLinkableElements u input baseUrls).
Proof.
  unfold TextUtils.extractUrls, TextUtils.extractMentions, TextUtils.extractHashtags,
    TextUtils.extractPhones, TextUtils.findLinkableElements.
  rewrite !of_type_findLinkableElements.
  unfold parse.urls, parse.mentions, parse.hashtags, parse.phones, pushed.
  repeat split; (destruct (_ (TextUtils.parser u)); [|done]);
    by rewrite <- list_fmap_compose.
Qed.

End RecordsOfPatterns.

(** ** Hashtags and mentions *)

Section Tags.
Import RegExp TextParser.

Implicit Types (this : TextParser.t) (input : list ascii) (baseUrls : option BaseUrls).

Lemma over_all_ascii (P : ascii -> bool) :
  forallb P all_ascii = true -> forall ch, P ch = true.
Proof.
  rewrite forallb_forall. intros H ch. apply H, list_elem_of_In, all_ascii_complete.
Qed.

Lemma hash_only ch :
  existsb (Ascii.eqb "#") (case_variants true ch) = true -> ch = "#"%char.
Proof.
  intros H. apply Ascii.eqb_eq.
  pose proof (over_all_ascii
    (fun ch => implb (existsb (Ascii.eqb "#") (case_variants true ch)) (Ascii.eqb ch "#"))
    ltac:(vm_compute; reflexivity) ch) as Hall.
  cbv beta in Hall. by rewrite H in Hall.
Qed.

Lemma at_only ch :
  existsb (Ascii.eqb "@") (case_variants true ch) = true -> ch = "@"%char.
Proof.
  intros H. apply Ascii.eqb_eq.
  pose proof (over_all_ascii
    (fun ch => implb (existsb (Ascii.eqb "@") (case_variants true ch)) (Ascii.eqb ch "@"))
    ltac:(vm_compute; reflexivity) ch) as Hall.
  cbv beta in Hall. by rewrite H in Hall.
Qed.

Lemma letter_variants ch :
  existsb (in_range "a" "z") (case_variants true ch) = true -> is_letter ch = true.
Proof.
  intros H.
  pose proof (over_all_ascii
    (fun ch => implb (existsb (in_range "a" "z") (case_variants true ch)) (is_letter ch))
    ltac:(vm_compute; reflexivity) ch) as Hall.
  cbv beta in Hall. by rewrite H in Hall.
Qed.

(** A match of a sigil, a letter and anything after them. *)
Lemma tag_match input (sigil : ascii) (rest : Regex) j y :
  (forall ch, existsb (Ascii.eqb sigil) (case_variants true ch) = true -> ch = sigil) ->
  j <= length input ->
  Sem input true
    (seqs [WordBoundary true; chr sigil; Chars (in_range "a" "z") false; rest])
    {| endIndex := j; captures := ∅ |} y ->
  exists c tail, is_letter c = true
    /\ slice input j (endIndex y) = sigil :: c :: tail.
Proof.
  intros Hsigil Hj (x1 & [-> _] & x2 & (ch & Hch & Hm & ->) & x3 & (c & Hc & Hl & ->) & Hrest).
  cbn [endIndex xorb] in *.
  apply Hsigil in Hm as ->. apply letter_variants in Hl.
  apply Sem_bounds in Hrest as [Hle _]. cbn [endIndex] in Hle.
  exists c, (slice input (S (S j)) (endIndex y)). split; [done|].
  rewrite (slice_app input j (S j)), (slice_app input (S j) (S (S j))) by lia.
  by rewrite (slice_one input _ _ Hch), (slice_one input _ _ Hc).
Qed.

(** X16.  Round trip of hashtags and mentions: the [text] of such a record
    is its sigil followed by its [value], and the value begins with a
    letter. *)
Theorem tag_round_trip this input baseUrls (m : TextMatch) :
  m ∈ findLinkableElements this input baseUrls ->
  type m = hashtag_t \/ type m = mention_t ->
  exists c tail, is_letter c = true /\ value m = c :: tail
    /\ text m = (if decide (type m = hashtag_t) then "#"%char else "@"%char) :: value m.
Proof.
  intros Hm%record_origin Ht. revert Hm.
  destruct Ht as [Ht|Ht]; rewrite Ht; simpl;
    (destruct (_ this); [|by intros ?%elem_of_nil]).
  all: intros (m' & -> & (j & y & -> & Hj & Hy & HS)%matchAll_spec)%list_elem_of_fmap.
  - apply (tag_match input "#"
             (Seq (star (Chars patterns.tag_chars false)) (WordBoundary false))
             j y hash_only) in HS as (c & tail & Hc & Hw); [|lia].
    exists c, tail. simpl. rewrite Hw. by repeat split.
  - apply (tag_match input "@"
             (Seq (star (Chars patterns.tag_chars false)) (WordBoundary false))
             j y at_only) in HS as (c & tail & Hc & Hw); [|lia].
    exists c, tail. simpl. rewrite Hw. by repeat split.
Qed.

Lemma tag_round_trip_witness :
  exists c tail, is_letter c = true /\ str "sarah" = c :: tail
    /\ str "@sarah" = (if decide (mention_t = hashtag_t) then "#"%char else "@"%char)
                      :: str "sarah".
Proof.
  apply (tag_round_trip (TextParser.new None) scenario None
           {| type := mention_t; text := str "@sarah"; value := str "sarah";
              position := {| start := 55; end_ := 61 |};
              url := Some (str "/users/sarah") |}).
  - vm_compute. right. right. right. left.
  - by right.
Defined.

End Tags.

(** ** The groups of a phone match *)

Section Groups.
Import RegExp TextParser.

Variable Input : list ascii.

Local Abbreviation Sem := (RegExp.Sem Input false).
Local Abbreviation slice := (RegExp.slice Input).

Local Abbreviation is_digits :=
  (Forall (fun char : ascii => is_digit char = true)).

(** A run of characters of one class. *)
Lemma class_run (A : ascii -> bool) (invert : bool) min max x y :
  RepSem (Sem (Chars A invert)) [] min max x y ->
  endIndex x <= length Input ->
  captures y = captures x
  /\ endIndex x <= endIndex y <= length Input
  /\ Forall (fun char => xorb invert (A char) = true) (slice (endIndex x) (endIndex y))
  /\ match max with Some k => Nat.min min k | None => min end <= endIndex y - endIndex x
  /\ (forall k, max = Some k -> endIndex y - endIndex x <= k).
Proof.
  induction 1 as [min max x Hstop|min max x y z Hmax Hxy _ IH]; intros Hx.
  - rewrite slice_empty. repeat split; try done; try lia.
    destruct Hstop as [->| ->]; [destruct max; simpl; lia | rewrite Nat.min_0_r; lia].
  - destruct Hxy as (ch & Hch & Hd & ->). cbn [endIndex captures clear foldr] in *.
    simpl in Hd. rewrite orb_false_r in Hd.
    pose proof (lookup_lt_Some _ _ _ Hch) as Hlt.
    destruct (IH ltac:(lia)) as (Hc & Hle & Hds & Hmin & Hk).
    split; [done|]. split; [lia|]. split.
    { rewrite (slice_app Input _ (S (endIndex x))), (slice_one Input _ _ Hch) by lia.
      by constructor. }
    split.
    + destruct max as [[|k]|]; simpl in *; [done|lia|lia].
    + intros k ->. specialize (Hk (pred k) eq_refl). destruct k; [done|]. simpl in Hk. lia.
Qed.

(** A capturing group around a run of characters of one class. *)
Lemma Group_class (A : ascii -> bool) (invert : bool) n min max x y :
  Sem (Group n (Quantified (Chars A invert) min max)) x y ->
  endIndex x <= length Input ->
  captures y = <[n := (endIndex x, endIndex y)]> (captures x)
  /\ endIndex x <= endIndex y <= length Input
  /\ Forall (fun char => xorb invert (A char) = true) (slice (endIndex x) (endIndex y))
  /\ match max with Some k => Nat.min min k | None => min end <= endIndex y - endIndex x
  /\ (forall k, max = Some k -> endIndex y - endIndex x <= k).
Proof.
  intros (y' & Hrun & ->) Hx. apply class_run in Hrun as (Hc & Hle & Hd & Hmin & Hk); [|done].
  cbn [endIndex captures]. by rewrite Hc.
Qed.

(** A capturing group around a run of digits. *)
Lemma Group_digits n min max x y :
  Sem (Group n (Quantified digit min max)) x y ->
  endIndex x <= length Input ->
  captures y = <[n := (endIndex x, endIndex y)]> (captures x)
  /\ endIndex x <= endIndex y <= length Input
  /\ is_digits (slice (endIndex x) (endIndex y))
  /\ match max with Some k => Nat.min min k | None => min end <= endIndex y - endIndex x
  /\ (forall k, max = Some k -> endIndex y - endIndex x <= k).
Proof. apply Group_class. Qed.

(** One given character. *)
Lemma chr_step c x y :
  Sem (chr c) x y ->
  Input !! endIndex x = Some c
  /\ y = {| endIndex := S (endIndex x); captures := captures x |}.
Proof.
  intros (ch & Hch & Hc & ->). simpl in Hc. rewrite orb_false_r in Hc.
  apply Ascii.eqb_eq in Hc as ->. done.
Qed.

(** A part of the pattern that sets no capture. *)
Lemma digit_free_step r x y :
  digit_free Input r -> Sem r x y -> endIndex x <= length Input ->
  captures y = captures x /\ endIndex y <= length Input.
Proof.
  intros Hr Hxy Hx. pose proof (Sem_bounds _ _ _ _ _ Hxy) as [_ Hb].
  apply Hr in Hxy as [Hc _]. auto.
Qed.

Lemma length_slice i j : i <= j <= length Input -> length (slice i j) = j - i.
Proof. intros H. unfold RegExp.slice. rewrite length_take, length_drop. lia. Qed.

(** In a phone match the groups 2, 3 and 4 hold three, three and four
    digits, and the country code, when there is one, is not empty. *)
Lemma phone_structure j y :
  j <= length Input ->
  Sem patterns.phone {| endIndex := j; captures := ∅ |} y ->
  exists a p l,
    length a = 3 /\ length p = 3 /\ length l = 4
    /\ is_digits a /\ is_digits p /\ is_digits l
    /\ group (make_match Input patterns.phone j y) 2 = Some a
    /\ group (make_match Input patterns.phone j y) 3 = Some p
    /\ group (make_match Input patterns.phone j y) 4 = Some l
    /\ (group (make_match Input patterns.phone j y) 1 = None
        \/ exists c cc, group (make_match Input patterns.phone j y) 1 = Some (c :: cc)).
Proof.
  intros Hj. unfold patterns.phone, seqs.
  intros (x1 & Hcc & x2 & Hs1 & x3 & Harea & x4 & Hs2 & x5 & Hprefix & x6 & Hs3
          & x7 & Hline & x8 & Hext & Hwb).
  (* the country code *)
  assert (H1 : endIndex x1 <= length Input
               /\ (forall n, 2 <= n -> captures x1 !! n = None)
               /\ (captures x1 !! 1 = None
                   \/ exists s e, captures x1 !! 1 = Some (s, e)
                                  /\ s < e <= length Input)).
  { hnf in Hcc.
    inversion Hcc as [|min max x' y' z' Hmax Hxy Hyz]; subst.
    - simpl. split; [done|]. split; [intros; apply lookup_empty | left; apply lookup_empty].
    - inversion Hyz as [|? ? ? ? ? Hmax']; subst; [|by destruct Hmax'].
      destruct Hxy as (mid & Hplus & Hg). cbn [endIndex captures] in *.
      apply (digit_free_step (opt (chr "+"))) in Hplus as [Hc Hmid]; [|
        apply digit_free_Quantified; [reflexivity | by apply chr_digit_free] | done].
      apply Group_digits in Hg as (Hcap & Hle & _ & Hmin & _); [|done].
      cbn [captures] in Hc. change (captures mid = delete 1 ∅) in Hc.
      rewrite Hcap, Hc. simpl in Hmin. split; [lia|]. split.
      + intros n Hn. rewrite lookup_insert_ne by lia.
        rewrite lookup_delete_ne by lia. apply lookup_empty.
      + right. exists (endIndex mid), (endIndex x1). rewrite lookup_insert_eq.
        split; [done | lia]. }
  destruct H1 as (Hx1 & Hnone1 & Hcode).
  apply (digit_free_step _ _ _ (separators_digit_free Input "-. (" eq_refl)) in Hs1
    as [Hc2 Hx2]; [|done].
  apply Group_digits in Harea as (Hc3 & Hle3 & Hd3 & Hmin3 & Hmax3); [|done].
  apply (digit_free_step _ _ _ (separators_digit_free Input "-. )" eq_refl)) in Hs2
    as [Hc4 Hx4]; [|lia].
  apply Group_digits in Hprefix as (Hc5 & Hle5 & Hd5 & Hmin5 & Hmax5); [|done].
  apply (digit_free_step _ _ _ (separators_digit_free Input "-. " eq_refl)) in Hs3
    as [Hc6 Hx6]; [|lia].
  apply Group_digits in Hline as (Hc7 & Hle7 & Hd7 & Hmin7 & Hmax7); [|done].
  specialize (Hmax3 3 eq_refl). specialize (Hmax5 3 eq_refl). specialize (Hmax7 4 eq_refl).
  simpl in Hmin3, Hmin5, Hmin7.
  (* the extension leaves the groups 1 to 4 alone *)
  assert (H8 : forall n, n <= 4 -> captures x8 !! n = captures x7 !! n).
  { intros n Hn. hnf in Hext.
    inversion Hext as [|min max x' y' z' Hmax Hxy Hyz]; subst; [done|].
    inversion Hyz as [|? ? ? ? ? Hmax']; subst; [|by destruct Hmax'].
    destruct Hxy as (z1 & Hsp & z2 & Hx & Hg). cbn [endIndex captures] in *.
    apply (digit_free_step (star (chr " "))) in Hsp as [Hcz1 Hz1]; [|
      apply digit_free_Quantified; [reflexivity | by apply chr_digit_free] | simpl; lia].
    apply (digit_free_step (chr "x")) in Hx as [Hcz2 Hz2]; [|by apply chr_digit_free|done].
    apply Group_digits in Hg as (Hcap & _); [|done].
    rewrite Hcap, Hcz2, Hcz1. cbn [captures].
    change (<[5:=(endIndex z2, endIndex x8)]> (delete 5 (captures x7)) !! n
            = captures x7 !! n).
    rewrite lookup_insert_ne by lia. by rewrite lookup_delete_ne by lia. }
  destruct Hwb as [-> _].
  assert (Hcap : forall n, n <= 4 ->
            captures x8 !! n
            = if decide (n = 4) then Some (endIndex x6, endIndex x7)
              else if decide (n = 3) then Some (endIndex x4, endIndex x5)
              else if decide (n = 2) then Some (endIndex x2, endIndex x3)
              else captures x1 !! n).
  { intros n Hn. rewrite H8, Hc7, Hc6, Hc5, Hc4, Hc3, Hc2 by done.
    repeat case_decide; subst;
      repeat (rewrite lookup_insert_eq || rewrite lookup_insert_ne by lia); done. }
  exists (slice (endIndex x2) (endIndex x3)), (slice (endIndex x4) (endIndex x5)),
    (slice (endIndex x6) (endIndex x7)).
  rewrite !length_slice by lia.
  rewrite !group_make_match by (simpl; lia). rewrite !Hcap by lia. simpl.
  repeat split; try done; try lia.
  destruct Hcode as [->|(s & e & -> & Hse)]; [by left|].
  right. simpl. pose proof (length_slice s e ltac:(lia)) as Hlen.
  destruct (slice s e) as [|c cc]; [simpl in Hlen; lia|]. by exists c, cc.
Qed.

(** A markdown link is its two groups between the brackets and the
    parentheses. *)
Lemma links_structure j y :
  j <= length Input ->
  Sem patterns.markdown.links {| endIndex := j; captures := ∅ |} y ->
  exists label target,
    whole (make_match Input patterns.markdown.links j y)
    = str "[" ++ label ++ str "](" ++ target ++ str ")"
    /\ group (make_match Input patterns.markdown.links j y) 1 = Some label
    /\ group (make_match Input patterns.markdown.links j y) 2 = Some target
    /\ label <> [] /\ ("]"%char ∉ label) /\ target <> [] /\ (")"%char ∉ target).
Proof.
  intros Hj. unfold patterns.markdown.links, seqs.
  intros (x1 & H1 & x2 & Hlabel & x3 & H3 & x4 & H4 & x5 & Htarget & H6).
  apply chr_step in H1 as [Ho ->]. apply chr_step in H3 as [Hc ->].
  apply chr_step in H4 as [Hp ->]. apply chr_step in H6 as [Hq ->].
  cbn [endIndex captures] in *.
  pose proof (lookup_lt_Some _ _ _ Ho) as Hj'.
  apply Group_class in Hlabel as (Hc2 & Hle2 & Hd2 & Hmin2 & _); [|simpl; lia].
  pose proof (lookup_lt_Some _ _ _ Hc) as Hx2.
  pose proof (lookup_lt_Some _ _ _ Hp) as Hx3.
  apply Group_class in Htarget as (Hc5 & Hle5 & Hd5 & Hmin5 & _); [|simpl; lia].
  cbn [endIndex captures] in *.
  pose proof (lookup_lt_Some _ _ _ Hq) as Hx5.
  exists (slice (S j) (endIndex x2)), (slice (S (S (endIndex x2))) (endIndex x5)).
  rewrite !group_make_match by (simpl; lia).
  cbn [make_match whole endIndex captures].
  rewrite Hc5, Hc2, lookup_insert_eq, lookup_insert_ne, lookup_insert_eq by lia.
  repeat split.
  - rewrite (slice_app Input j (S j)), (slice_one Input _ _ Ho) by lia.
    rewrite (slice_app Input (S j) (endIndex x2)) by lia.
    rewrite (slice_app Input (endIndex x2) (S (endIndex x2))), (slice_one Input _ _ Hc)
      by lia.
    rewrite (slice_app Input (S (endIndex x2)) (S (S (endIndex x2)))),
      (slice_one Input _ _ Hp) by lia.
    rewrite (slice_app Input (S (S (endIndex x2))) (endIndex x5)),
      (slice_one Input _ _ Hq) by lia.
    reflexivity.
  - intros E. apply (f_equal length) in E. rewrite length_slice in E by lia.
    simpl in E. lia.
  - intros Hin. rewrite Forall_forall in Hd2. by apply Hd2 in Hin.
  - intros E. apply (f_equal length) in E. rewrite length_slice in E by lia.
    simpl in E. lia.
  - intros Hin. rewrite Forall_forall in Hd5. by apply Hd5 in Hin.
Qed.

End Groups.

(** ** [processText] *)

Section ProcessText.
Import TextParser TextUtils.

Implicit Types (this : TextUtils.t) (m : TextMatch) (request : MaskRequest).

Local Abbreviation is_digits :=
  (Forall (fun char : ascii => is_digit char = true)).

(** The names of [parse.types] are plurals, the strings of
    [TextMatch.type] are not. *)
Lemma TypeName_is_no_type (n : TypeName) (t : MatchType) :
  TypeName_string n <> MatchType_string t.
Proof. by destruct n, t. Qed.

Lemma includes_false (types : list TypeName) m : includes types m = false.
Proof.
  unfold includes. induction types as [|n types IH]; [done|]. simpl.
  rewrite IH, orb_false_r. apply bool_decide_eq_false, TypeName_is_no_type.
Qed.

Lemma filter_includes (types : list TypeName) (l : list TextMatch) :
  List.filter (includes types) l = [].
Proof.
  induction l as [|m l IH]; [done|]. simpl. by rewrite includes_false.
Qed.

(** X17.  When [parse.types] is supplied, [filtered] is empty whatever the
    text holds: the type names ("urls", "phones", ...) are compared with
    the [type] of the records ("url", "phone", ...), and never agree. *)
Theorem processText_filtered_empty this input options (types : list TypeName)
    (p : Processed) :
  parse_request options ≫= TextUtils.types = Some types ->
  processText this input options = Normal p ->
  filtered p = [].
Proof.
  intros Htypes. unfold processText. rewrite Htypes.
  destruct (match mask_request options with Some _ => _ | None => _ end) as [l|e];
    [|done].
  intros [= <-]. apply filter_includes.
Qed.

Lemma processText_filtered_empty_witness :
  filtered {| matches := TextUtils.findLinkableElements (TextUtils.new None) scenario None;
              filtered := [];
              originalText := scenario |} = [].
Proof.
  apply (processText_filtered_empty (TextUtils.new None) scenario
           {| parse_request := Some {| types := Some [urls_n; phones_n];
                                       baseUrls := None |};
              mask_request := None |} [urls_n; phones_n]).
  - reflexivity.
  - vm_compute. reflexivity.
Defined.

(** *** The phone preset on a formatted number *)

Lemma fits_nine char :
  is_digit char = true -> fits InputMask.DEFAULT_TOKENS "9" char.
Proof.
  intros Hd. unfold fits.
  change (InputMask.DEFAULT_TOKENS !! ["9"%char])
    with (Some (InputMask.token is_digit (Some (fun char => [char])))).
  by split.
Qed.

Lemma fits_literal maskChar :
  InputMask.DEFAULT_TOKENS !! [maskChar] = None ->
  fits InputMask.DEFAULT_TOKENS maskChar maskChar.
Proof. unfold fits. by intros ->. Qed.

(** A number written as "(ddd) ddd-dddd" and followed by anything. *)
Lemma processValue_phone_base a1 a2 a3 p1 p2 p3 l1 l2 l3 l4 rest options :
  is_digits [a1; a2; a3; p1; p2; p3; l1; l2; l3; l4] ->
  InputMask.processValue
    (["("; a1; a2; a3; ")"; " "; p1; p2; p3; "-"; l1; l2; l3; l4]%char ++ rest)
    (str "(999) 999-9999") InputMask.DEFAULT_TOKENS options
  = Some ["("; a1; a2; a3; ")"; " "; p1; p2; p3; "-"; l1; l2; l3; l4]%char.
Proof.
  intros Hd. repeat (apply Forall_cons_1 in Hd as [? Hd]).
  set (base := ["("; a1; a2; a3; ")"; " "; p1; p2; p3; "-"; l1; l2; l3; l4]%char).
  assert (Hq : "?"%char ∉ str "(999) 999-9999").
  { rewrite <- (bool_decide_eq_false ("?"%char ∈ str "(999) 999-9999")). reflexivity. }
  assert (Hfit : Forall2 (fits InputMask.DEFAULT_TOKENS) (str "(999) 999-9999") base).
  { unfold base. simpl.
    repeat (apply List.Forall2_cons;
            [first [by apply fits_nine | by apply fits_literal]|]).
    apply List.Forall2_nil. }
  destruct (mask_loop_conforming base InputMask.DEFAULT_TOKENS options _ base Hq Hfit
              [] InputMask.start_cursor eq_refl eq_refl eq_refl) as (c' & Hloop & Hres).
  unfold InputMask.processValue.
  rewrite (mask_loop_longer base rest InputMask.DEFAULT_TOKENS options _
             InputMask.start_cursor c' Hq eq_refl Hloop).
  by rewrite Hres.
Qed.

(** A value whose first character is neither the leading literal of the
    template nor accepted by the placeholder that follows it. *)
Lemma processValue_rejects (char : ascii) (rest : list ascii) (literal maskChar : ascii)
    (tok : MaskToken) (template : list ascii)
    (tokens : gmap (list ascii) MaskToken) (options : MaskOptions) :
  literal <> "?"%char -> maskChar <> "?"%char ->
  tokens !! [literal] = None -> tokens !! [maskChar] = Some tok ->
  char <> literal -> pattern tok char = false ->
  InputMask.processValue (char :: rest) (literal :: maskChar :: template) tokens options
  = InputMask.clear_or_null options.
Proof.
  intros Hl Hm Hnone Htok Hne Hpat.
  assert (H1 : InputMask.mask_step (char :: rest) tokens options literal
                 InputMask.start_cursor
               = InputMask.Next {| InputMask.result := [literal];
                                   InputMask.valueIndex := 0;
                                   InputMask.isOptional := false |}).
  { unfold InputMask.mask_step. cbn [InputMask.start_cursor InputMask.valueIndex
      InputMask.result InputMask.isOptional length Nat.leb].
    rewrite (proj2 (Ascii.eqb_neq literal "?") Hl), Hnone. cbn [lookup list_lookup].
    by rewrite decide_False by congruence. }
  assert (H2 : InputMask.mask_step (char :: rest) tokens options maskChar
                 {| InputMask.result := [literal]; InputMask.valueIndex := 0;
                    InputMask.isOptional := false |}
               = InputMask.Stop (InputMask.clear_or_null options)).
  { unfold InputMask.mask_step. cbn [InputMask.valueIndex InputMask.result
      InputMask.isOptional length Nat.leb].
    rewrite (proj2 (Ascii.eqb_neq maskChar "?") Hm), Htok.
    cbn [drop InputMask.token_loop]. by rewrite Hpat. }
  unfold InputMask.processValue. cbn [InputMask.mask_loop]. by rewrite H1, H2.
Qed.

(** What [formatPhoneNumber] makes of the formatted number of a match. *)
Lemma formatPhoneNumber_phone_string this (m : RegExp.Match) a p l :
  InputMask.this_tokens (inputMask this) = InputMask.DEFAULT_TOKENS ->
  length a = 3 -> length p = 3 -> length l = 4 ->
  is_digits a -> is_digits p -> is_digits l ->
  RegExp.group m 2 = Some a -> RegExp.group m 3 = Some p -> RegExp.group m 4 = Some l ->
  (RegExp.group m 1 = None \/ exists c cc, RegExp.group m 1 = Some (c :: cc)) ->
  formatPhoneNumber this (parse.phone_string m)
  = Normal (masked_phone_value (parse.phone_string m)).
Proof.
  intros Ht Ha Hp Hl Hda Hdp Hdl H2 H3 H4 Hcode. unfold formatPhoneNumber.
  rewrite (mask_preset_default _ _ _ _ _ _ _ preset_phone Ht). f_equal.
  unfold parse.phone_string. rewrite H2, H3, H4.
  destruct a as [|a1 [|a2 [|a3 [|]]]]; try done.
  destruct p as [|p1 [|p2 [|p3 [|]]]]; try done.
  destruct l as [|l1 [|l2 [|l3 [|l4 [|]]]]]; try done.
  set (rest := match nonempty (RegExp.group m 5) with
               | Some ext => str " x" ++ ext
               | None => []
               end).
  destruct Hcode as [->|(c & cc & ->)]; cbn [nonempty show default from_option].
  - change ([] ++ _ ++ rest)
      with (["("; a1; a2; a3; ")"; " "; p1; p2; p3; "-"; l1; l2; l3; l4]%char ++ rest).
    rewrite processValue_phone_base; [done|].
    repeat (apply Forall_cons_1 in Hda as [? Hda]).
    repeat (apply Forall_cons_1 in Hdp as [? Hdp]).
    repeat (apply Forall_cons_1 in Hdl as [? Hdl]).
    by repeat constructor.
  - change ((str "+" ++ (c :: cc) ++ str " ") ++ ?x)
      with ("+"%char :: ((c :: cc) ++ str " ") ++ x).
    change (str "(999) 999-9999") with ("("%char :: "9"%char :: str "99) 999-9999").
    by rewrite (processValue_rejects _ _ _ _
                  (InputMask.token is_digit (Some (fun char => [char])))).
Qed.

Lemma for_each_Normal (f : TextMatch -> Completion TextMatch) (g : TextMatch -> TextMatch)
    (l : list TextMatch) :
  (forall m, m ∈ l -> f m = Normal (g m)) -> for_each f l = Normal (g <$> l).
Proof.
  induction l as [|m l IH]; intros H; [done|]. simpl.
  rewrite (H m) by left. rewrite IH; [done|]. intros m' Hm'. apply H. by right.
Qed.

(** The callback of [forEach] on a record of [findLinkableElements]. *)
Lemma mask_match_found this request input baseUrls m :
  InputMask.this_tokens (inputMask this) = InputMask.DEFAULT_TOKENS ->
  truthy (mask_phones request) = true ->
  m ∈ TextUtils.findLinkableElements this input baseUrls ->
  mask_match this request m
  = Normal (if decide (type m = phone_t)
            then with_value m (masked_phone_value (value m)) else m).
Proof.
  intros Ht Hphones Hm%record_origin. unfold mask_match. rewrite Hphones, andb_true_r.
  destruct (type m) eqn:Htype; try done.
  rewrite decide_True by done. cbn [MatchType_string]. rewrite bool_decide_eq_true_2 by done.
  unfold pushed in Hm. destruct (o_phones _); [|by apply elem_of_nil in Hm].
  apply list_elem_of_fmap in Hm as (found & -> & Hfound).
  apply matchAll_spec in Hfound as (j & y & -> & Hj & Hy & HS).
  apply phone_structure in HS
    as (a & p & l & Ha & Hp & Hl & Hda & Hdp & Hdl & H2 & H3 & H4 & Hcode); [|lia].
  change (value (phone_match ?x)) with (parse.phone_string x).
  by rewrite (formatPhoneNumber_phone_string this _ a p l).
Qed.

(** X18.  With [mask.phones] set and the default tokens, [processText]
    never raises; it leaves every record that is not a phone alone and
    replaces the value of a phone record by its first fourteen characters,
    "(ddd) ddd-dddd" without the extension, or by the empty string when
    the number has a country code. *)
Theorem processText_masks_phones this input options request :
  InputMask.this_tokens (inputMask this) = InputMask.DEFAULT_TOKENS ->
  mask_request options = Some request ->
  truthy (mask_phones request) = true ->
  exists p, processText this input options = Normal p
    /\ originalText p = input
    /\ matches p
       = (fun m => if decide (type m = phone_t)
                   then with_value m (masked_phone_value (value m)) else m)
         <$> TextUtils.findLinkableElements this input (parse_request options ≫= baseUrls).
Proof.
  intros Ht Hrequest Hphones. unfold processText. rewrite Hrequest.
  rewrite (for_each_Normal _ (fun m => if decide (type m = phone_t)
                                       then with_value m (masked_phone_value (value m))
                                       else m)).
  - by eexists.
  - intros m Hm. by apply (mask_match_found this request input (parse_request options ≫= baseUrls) m).
Qed.

Lemma processText_masks_phones_witness :
  exists p,
    processText (TextUtils.new None) (str "Call +1 555-123-4567 or 555-123-4567 x89")
      {| parse_request := None;
         mask_request := Some {| mask_phones := Some true; mask_dates := None;
                                 mask_currency := None |} |} = Normal p
    /\ originalText p = str "Call +1 555-123-4567 or 555-123-4567 x89"
    /\ matches p
       = (fun m => if decide (type m = phone_t)
                   then with_value m (masked_phone_value (value m)) else m)
         <$> TextUtils.findLinkableElements (TextUtils.new None)
               (str "Call +1 555-123-4567 or 555-123-4567 x89") None.
Proof.
  apply (processText_masks_phones (TextUtils.new None)
           (str "Call +1 555-123-4567 or 555-123-4567 x89")
           {| parse_request := None;
              mask_request := Some {| mask_phones := Some true; mask_dates := None;
                                      mask_currency := None |} |}
           {| mask_phones := Some true; mask_dates := None; mask_currency := None |}).
  - apply default_facade.
  - reflexivity.
  - reflexivity.
Defined.

(** The two numbers of the example: the one with a country code loses its
    value, the other its extension. *)
Example processText_phone_values :
  (fun p => value <$> matches p)
    <$> match processText (TextUtils.new None)
                (str "Call +1 555-123-4567 or 555-123-4567 x89")
                {| parse_request := None;
                   mask_request := Some {| mask_phones := Some true; mask_dates := None;
                                           mask_currency := None |} |} with
        | Normal p => Some p
        | Throw _ => None
        end
  = Some [ []; str "(555) 123-4567" ].
Proof. vm_compute. reflexivity. Qed.

End ProcessText.


(** ** The links of the records *)

Section Links.
Import RegExp TextParser.

Implicit Types (this : TextParser.t) (m : TextMatch).

(** X19.  A recognizer that is switched off leaves no record of its type. *)
Theorem disabled_type_absent this input baseUrls (t : MatchType) m :
  enabled this t = false ->
  m ∈ findLinkableElements this input baseUrls ->
  type m <> t.
Proof.
  intros Hoff Hm%record_origin <-. unfold pushed, enabled in *.
  destruct (type m); rewrite Hoff in Hm; by apply elem_of_nil in Hm.
Qed.

Lemma disabled_type_absent_witness :
  type {| type := hashtag_t; text := str "#support"; value := str "support";
          position := {| start := 46; end_ := 54 |};
          url := Some (str "/tags/support") |} <> url_t.
Proof.
  apply (disabled_type_absent
           (TextParser.new (Some {| urls := Some false; hashtags := Some true;
                                    mentions := None; emails := None; phones := None;
                                    markdownLinks := None; markdownHeadings := None;
                                    markdownLists := None; markdownEmphasis := None;
                                    all := None |}))
           scenario None url_t).
  - reflexivity.
  - vm_compute. left.
Defined.

(** X20.  The value of a url or email record is its text; the link of a
    url record starts with "http", being the text itself or the text after
    "https://", and the link of an email record is the text after
    "mailto:". *)
Theorem plain_record_link this input baseUrls m :
  m ∈ findLinkableElements this input baseUrls ->
  type m = url_t \/ type m = email_t ->
  value m = text m
  /\ exists link, url m = Some link
       /\ if decide (type m = url_t)
          then startsWith (str "http") link = true
               /\ (link = text m \/ link = str "https://" ++ text m)
          else link = str "mailto:" ++ text m.
Proof.
  intros Hm%record_origin Htype. unfold pushed in Hm.
  destruct Htype as [Htype|Htype]; rewrite Htype in Hm.
  - destruct (o_urls this); [|by apply elem_of_nil in Hm].
    apply list_elem_of_fmap in Hm as (found & -> & _). split; [done|].
    eexists. split; [done|]. cbn [url_match type text]. rewrite decide_True by done.
    destruct (startsWith (str "http") (whole found)) eqn:E; [by auto|].
    split; [|by right]. by apply bool_decide_eq_true.
  - destruct (o_emails this); [|by apply elem_of_nil in Hm].
    apply list_elem_of_fmap in Hm as (found & -> & _). split; [done|].
    eexists. split; [done|]. by rewrite decide_False.
Qed.

Lemma plain_record_link_witness :
  str "https://example.com" = str "https://example.com"
  /\ exists link, Some (str "https://example.com") = Some link
       /\ if decide (url_t = url_t)
          then startsWith (str "http") link = true
               /\ (link = str "https://example.com"
                   \/ link = str "https://" ++ str "https://example.com")
          else link = str "mailto:" ++ str "https://example.com".
Proof.
  apply (plain_record_link (TextParser.new None) scenario None
           {| type := url_t; text := str "https://example.com";
              value := str "https://example.com";
              position := {| start := 25; end_ := 44 |};
              url := Some (str "https://example.com") |}).
  - vm_compute. right. left.
  - by left.
Defined.

(** X21.  Round trip for markdown links: the text of a record is its
    value between brackets followed by the target between parentheses;
    neither is empty, the value holds no "]" and the target no ")"; and
    the link is the target when no asset base is given or the target
    starts with "http". *)
Theorem markdown_link_round_trip this input baseUrls m :
  m ∈ findLinkableElements this input baseUrls ->
  type m = markdown_link_t ->
  exists target,
    text m = str "[" ++ value m ++ str "](" ++ target ++ str ")"
    /\ value m <> [] /\ ("]"%char ∉ value m)
    /\ target <> [] /\ (")"%char ∉ target)
    /\ (nonempty (baseUrls ≫= base_assets) = None \/ startsWith (str "http") target = true ->
        url m = Some target).
Proof.
  intros Hm%record_origin Htype. unfold pushed in Hm. rewrite Htype in Hm.
  destruct (o_markdownLinks this); [|by apply elem_of_nil in Hm].
  apply list_elem_of_fmap in Hm as (found & -> & Hfound).
  apply matchAll_spec in Hfound as (j & y & -> & Hj & Hy & HS).
  apply links_structure in HS
    as (label & target & Hwhole & H1 & H2 & Hl & Hl' & Ht & Ht'); [|lia].
  exists target. unfold markdown_link_match. cbn [text value url]. rewrite H1, H2, Hwhole.
  cbn [show default from_option]. unfold id. repeat split; try done.
  intros [->| ->]; [done|]. by destruct (nonempty _).
Qed.

Lemma markdown_link_round_trip_witness :
  exists target,
    str "[docs](/guide)" = str "[" ++ str "docs" ++ str "](" ++ target ++ str ")"
    /\ str "docs" <> [] /\ ("]"%char ∉ str "docs")
    /\ target <> [] /\ (")"%char ∉ target)
    /\ (nonempty (None ≫= base_assets) = None \/ startsWith (str "http") target = true ->
        Some (str "/guide") = Some target).
Proof.
  apply (markdown_link_round_trip (TextParser.new None) (str "see [docs](/guide)") None
           {| type := markdown_link_t; text := str "[docs](/guide)"; value := str "docs";
              position := {| start := 4; end_ := 18 |};
              url := Some (str "/guide") |}).
  - vm_compute. left.
  - reflexivity.
Defined.

(** *** A slash at the end of a base URL *)

Lemma strip_trailing_slash_added (b : list ascii) :
  strip_trailing_slash (b ++ str "/") = b.
Proof.
  unfold strip_trailing_slash. rewrite reverse_app. simpl.
  by rewrite reverse_involutive.
Qed.

Lemma strip_trailing_slash_plain (b : list ascii) :
  last b <> Some "/"%char -> strip_trailing_slash b = b.
Proof.
  intros Hlast. unfold strip_trailing_slash. rewrite <- head_reverse in Hlast.
  destruct (reverse b) as [|c r]; [done|]. simpl in Hlast.
  by rewrite (proj2 (Ascii.eqb_neq c "/")) by congruence.
Qed.

Lemma link_base_slashed (base : option (list ascii)) :
  plain_base base ->
  strip_trailing_slash <$> nonempty ((fun b => b ++ str "/") <$> base)
  = strip_trailing_slash <$> nonempty base.
Proof.
  intros Hplain. destruct base as [b|]; [|done].
  destruct (Hplain b eq_refl) as [Hne Hlast]. destruct b as [|c r]; [done|].
  cbn [fmap option_fmap option_map nonempty app].
  change (c :: r ++ str "/") with ((c :: r) ++ str "/").
  by rewrite strip_trailing_slash_added, strip_trailing_slash_plain.
Qed.

(** The links are built from the base after [replace]. *)
Lemma hashtag_match_stripped baseUrls found :
  hashtag_match baseUrls found
  = {| type := hashtag_t; text := whole found; value := drop 1 (whole found);
       position := span found;
       url := Some (match strip_trailing_slash <$> nonempty (baseUrls ≫= base_hashtags) with
                    | Some base => base ++ str "/" ++ drop 1 (whole found)
                    | None => str "/tags/" ++ drop 1 (whole found)
                    end) |}.
Proof. unfold hashtag_match. by destruct (nonempty _). Qed.

Lemma mention_match_stripped baseUrls found :
  mention_match baseUrls found
  = {| type := mention_t; text := whole found; value := drop 1 (whole found);
       position := span found;
       url := Some (match strip_trailing_slash <$> nonempty (baseUrls ≫= base_mentions) with
                    | Some base => base ++ str "/" ++ drop 1 (whole found)
                    | None => str "/users/" ++ drop 1 (whole found)
                    end) |}.
Proof. unfold mention_match. by destruct (nonempty _). Qed.

Lemma markdown_link_match_stripped baseUrls found :
  markdown_link_match baseUrls found
  = {| type := markdown_link_t; text := whole found; value := show (group found 1);
       position := span found;
       url := Some (match strip_trailing_slash <$> nonempty (baseUrls ≫= base_assets) with
                    | Some assets =>
                        if startsWith (str "http") (show (group found 2))
                        then show (group found 2)
                        else assets ++ str "/" ++ strip_leading_slash (show (group found 2))
                    | None => show (group found 2)
                    end) |}.
Proof. unfold markdown_link_match. by destruct (nonempty _). Qed.

(** X22.  A slash at the end of a base URL makes no difference: adding
    one to bases that have none gives the same records. *)
Theorem base_trailing_slash this input (baseUrls : BaseUrls) :
  plain_base (base_hashtags baseUrls) ->
  plain_base (base_mentions baseUrls) ->
  plain_base (base_assets baseUrls) ->
  findLinkableElements this input (Some (slashed baseUrls))
  = findLinkableElements this input (Some baseUrls).
Proof.
  intros Hh Hm Ha. unfold findLinkableElements, collect. f_equal.
  f_equal. f_equal; [|f_equal; [|f_equal; f_equal]].
  - destruct (o_hashtags this); [|done]. apply list_fmap_ext. intros _ found _.
    rewrite !hashtag_match_stripped. cbn [mbind option_bind slashed base_hashtags].
    by rewrite link_base_slashed.
  - destruct (o_mentions this); [|done]. apply list_fmap_ext. intros _ found _.
    rewrite !mention_match_stripped. cbn [mbind option_bind slashed base_mentions].
    by rewrite link_base_slashed.
  - destruct (o_markdownLinks this); [|done]. apply list_fmap_ext. intros _ found _.
    rewrite !markdown_link_match_stripped. cbn [mbind option_bind slashed base_assets].
    by rewrite link_base_slashed.
Qed.

Lemma base_trailing_slash_witness :
  findLinkableElements (TextParser.new None) scenario
    (Some (slashed {| base_hashtags := Some (str "https://x.io/t");
                      base_mentions := None; base_assets := None |}))
  = findLinkableElements (TextParser.new None) scenario
      (Some {| base_hashtags := Some (str "https://x.io/t");
               base_mentions := None; base_assets := None |}).
Proof.
  apply (base_trailing_slash (TextParser.new None) scenario
           {| base_hashtags := Some (str "https://x.io/t");
              base_mentions := None; base_assets := None |}).
  - intros b [= <-]. split; [done|]. vm_compute. congruence.
  - by intros b.
  - by intros b.
Defined.

End Links.

(** ** [stripMask] *)

Section StripMask.

(** X23.  [stripMask] is idempotent, and with the flag set its result
    holds letters and digits only. *)
Theorem stripMask_idempotent (this : InputMask.t) (value : list ascii) :
  InputMask.stripMask this (InputMask.stripMask this value)
  = InputMask.stripMask this value
  /\ (truthy (stripMask (InputMask.options this)) = true ->
      Forall (fun c => is_alnum c = true) (InputMask.stripMask this value)).
Proof.
  unfold InputMask.stripMask. destruct (truthy _); simpl; [|by split].
  assert (Hall : Forall (fun c => is_alnum c = true)
                   (filter (fun c => is_alnum c = true) value)).
  { apply Forall_forall. by intros c [Hc _]%list_elem_of_filter. }
  split; [|done]. induction Hall as [|c l Hc _ IH]; [done|].
  by rewrite filter_cons_True, IH.
Qed.

End StripMask.

(** ** The single-template algorithm over code units *)

Section CodeUnits.
Import Utf16.

Local Abbreviation tokens_t := (gmap (list CodeUnit) Utf16.MaskToken).

Implicit Types (value template out : list CodeUnit) (options : Utf16.MaskOptions).
Implicit Types (c : Cursor) (σ : Store) (maskChar char : list CodeUnit).
Implicit Types (chars : list (list CodeUnit)) (tok : Utf16.MaskToken) (u : CodeUnit).

(** The characters of a string make up the string. *)
Lemma code_points_cons (first second : CodeUnit) (rest : list CodeUnit) :
  code_points (first :: second :: rest)
  = if is_leading first && is_trailing second
    then [first; second] :: code_points rest
    else [first] :: code_points (second :: rest).
Proof. reflexivity. Qed.

Lemma concat_code_points (s : list CodeUnit) : concat (code_points s) = s.
Proof.
  assert (H : forall n s, length s < n -> concat (code_points s) = s);
    [|apply (H (S (length s))); lia].
  clear s. induction n as [|n IH]; intros s Hn; [lia|].
  destruct s as [|first [|second rest]]; [done..|]. rewrite code_points_cons.
  destruct (is_leading first && is_trailing second); cbn [concat app].
  - f_equal. f_equal. apply IH. simpl in Hn. lia.
  - f_equal. apply IH. simpl in *. lia.
Qed.

(** A pattern without flags leaves the store alone. *)
Lemma test_unflagged tok u σ :
  flagged (Utf16.pattern tok) = false ->
  test (Utf16.pattern tok) u σ = (accepts tok u, σ).
Proof. intros H. unfold test, accepts. rewrite H. by destruct (exec _ _ _). Qed.

(** C4, at an input on which the code departs from it.  The template is
    the literal U+1F600 followed by the placeholder [9], the value the same
    character followed by the digit 1: the value conforms to the template,
    yet the algorithm fails.  The loop over the template takes the literal
    as one character of two code units; [value[valueIndex]] is one code
    unit, never equal to it, so the literal is not passed over in the
    value, and the placeholder then reads the leading surrogate. *)
Theorem processValue_astral_literal options σ :
  conforms_units DEFAULT_TOKENS (grinning_face ++ units "9") (grinning_face ++ units "1")
  /\ processValue (grinning_face ++ units "1") (grinning_face ++ units "9")
       DEFAULT_TOKENS options σ
     = (Normal (clear_or_null options), σ)
  /\ clear_or_null options <> Some (grinning_face ++ units "1").
Proof.
  split; [|split].
  - split.
    + apply (bool_decide_unpack _). vm_compute. exact I.
    + change (code_points (grinning_face ++ units "9")) with [grinning_face; units "9"].
      change (code_points (grinning_face ++ units "1")) with [grinning_face; units "1"].
      constructor; [reflexivity|]. constructor; [|constructor].
      exists 49%N. by vm_compute.
  - vm_compute. reflexivity.
  - unfold clear_or_null. by destruct (truthy _).
Qed.

(** A second input of this kind: the placeholder [9] with the pattern
    "/\d/g".  After the digit 1 the pattern's [lastIndex] is 1, so [test]
    rejects the digit 2. *)
Example processValue_global_pattern :
  conforms_units global_digit (units "99") (units "12")
  /\ processValue (units "12") (units "99") global_digit (only_autoClear (Some false)) ∅
     = (Normal None, {[ 0 := 0 ]}).
Proof.
  split; [|vm_compute; reflexivity]. split.
  - apply (bool_decide_unpack _). vm_compute. exact I.
  - change (code_points (units "99")) with [units "9"; units "9"].
    change (code_points (units "12")) with [units "1"; units "2"].
    repeat (constructor; [eexists; by vm_compute|]). constructor.
Qed.

(** *** Templates of one-unit characters, patterns without flags *)

(** One round of the loop while optional mode is off. *)
Lemma mask_step_units value (tokens : tokens_t) options maskChar c σ :
  unflagged tokens -> isOptional c = false -> maskChar <> units "?" ->
  match mask_step value tokens options maskChar c σ with
  | (Stop r, σ') =>
      σ' = σ /\ (r = Normal (clear_or_null options) \/ exists e, r = Throw e)
  | (Next c', σ') =>
      σ' = σ /\ isOptional c' = false /\ valueIndex c < length value
      /\ ((exists tok u s,
             tokens !! maskChar = Some tok
             /\ value !! valueIndex c = Some u
             /\ accepts tok u = true
             /\ transformed_units tok u = Normal s
             /\ result c' = result c ++ s
             /\ valueIndex c' = S (valueIndex c))
          \/ (tokens !! maskChar = None
              /\ result c' = result c ++ maskChar
              /\ valueIndex c'
                 = if decide ((fun u => [u]) <$> value !! valueIndex c = Some maskChar)
                   then S (valueIndex c) else valueIndex c))
  end.
Proof.
  intros Hflags Ho Hne. unfold mask_step. rewrite Ho.
  destruct (Nat.leb_spec (length value) (valueIndex c)) as [Hlen|Hlen]; [by auto|].
  rewrite bool_decide_eq_false_2 by done.
  destruct (tokens !! maskChar) as [tok|] eqn:Htok.
  - destruct (lookup_lt_is_Some_2 _ _ Hlen) as [u Hu].
    rewrite (drop_S _ _ _ Hu). cbn [token_loop].
    rewrite (test_unflagged tok u σ (Hflags _ _ Htok)).
    destruct (accepts tok u) eqn:Hacc; simpl; [|by auto].
    assert (Ht : transformed_units tok u
                 = match Utf16.transform tok with Some f => f u | None => Normal [u] end)
      by done.
    destruct (Utf16.transform tok) as [f|].
    + destruct (f u) as [s|e] eqn:Hf; [|by eauto].
      split; [done|]. split; [done|]. split; [done|]. left. by exists tok, u, s.
    + split; [done|]. split; [done|]. split; [done|]. left. by exists tok, u, [u].
  - simpl. split; [done|]. split; [done|]. split; [done|]. by right.
Qed.

(** What the loop appends fits the template, for settled tokens. *)
Lemma mask_loop_fits_units value (tokens : tokens_t) options chars : forall c c' σ σ',
  unflagged tokens -> settled_units tokens ->
  units "?" ∉ chars -> isOptional c = false ->
  mask_loop value tokens options chars c σ = (Next c', σ') ->
  σ' = σ
  /\ exists outs, result c' = result c ++ concat outs
                  /\ Forall2 (fits_units tokens) chars outs.
Proof.
  intros c c' σ σ' Hflags Hs. revert c c' σ σ'.
  induction chars as [|maskChar p IH]; intros c c' σ σ' Hq Ho; cbn [mask_loop].
  { intros [= -> ->]. split; [done|]. exists []. split; [by rewrite app_nil_r | constructor]. }
  apply not_elem_of_cons in Hq as [Hne Hq].
  pose proof (mask_step_units value tokens options maskChar c σ Hflags Ho
                (not_eq_sym Hne)) as Hstep.
  destruct (mask_step _ _ _ _ _ _) as [[r|c1] σ1]; [done|].
  destruct Hstep as (-> & Ho1 & _ & Hstep). intros Hloop.
  destruct (IH c1 c' σ σ' Hq Ho1 Hloop) as (-> & outs & Hout & Hfits). split; [done|].
  destruct Hstep as [(tok & u & s & Htok & _ & Hacc & Ht & Hres & _)|(Htok & Hres & _)].
  - destruct (Hs maskChar tok u Htok Hacc) as (u' & Ht' & Hacc' & Hfix).
    assert (s = [u']) as -> by congruence.
    exists ([u'] :: outs). split.
    + by rewrite Hout, Hres, <- app_assoc.
    + constructor; [|done]. unfold fits_units. rewrite Htok. by exists u'.
  - exists (maskChar :: outs). split.
    + by rewrite Hout, Hres, <- app_assoc.
    + constructor; [|done]. unfold fits_units. by rewrite Htok.
Qed.

(** The loop on a value that conforms, when the characters of the template
    are single code units. *)
Lemma mask_loop_conforming_units value (tokens : tokens_t) options chars
    (rest : list (list CodeUnit)) :
  unflagged tokens -> units "?" ∉ chars ->
  Forall (fun char => length char = 1) chars ->
  Forall2 (fits_units tokens) chars rest ->
  forall done c σ,
    value = done ++ concat rest ->
    result c = done -> valueIndex c = length done ->
    exists c', mask_loop value tokens options chars c σ = (Next c', σ)
               /\ result c' = value.
Proof.
  intros Hflags Hq Hone Hfit. induction Hfit as [|maskChar char p rest Hfit _ IH];
    intros done c σ Hv Hres Hvi; cbn [mask_loop].
  { exists c. split; [done|]. simpl in Hv. by rewrite Hv, app_nil_r. }
  apply not_elem_of_cons in Hq as [Hne Hq].
  apply Forall_cons in Hone as [Hlen Hone].
  assert (Hchar : exists u, char = [u] /\ (tokens !! maskChar = None -> maskChar = [u])).
  { unfold fits_units in Hfit. destruct (tokens !! maskChar) as [tok|].
    - destruct Hfit as (u & -> & _). by exists u.
    - subst char. destruct maskChar as [|u [|? ?]]; try done. by exists u. }
  destruct Hchar as (u & -> & Hliteral). cbn [concat app] in Hv.
  assert (Hlook : value !! valueIndex c = Some u).
  { rewrite Hv, Hvi. by rewrite list_lookup_middle. }
  assert (Hdrop : drop (valueIndex c) value = u :: concat rest).
  { by rewrite Hv, Hvi, drop_app_length. }
  unfold mask_step.
  rewrite (proj2 (Nat.leb_gt _ _)) by (by apply lookup_lt_Some in Hlook).
  rewrite bool_decide_eq_false_2 by done.
  unfold fits_units in Hfit. destruct (tokens !! maskChar) as [tok|] eqn:Htok.
  - destruct Hfit as (u' & [= <-] & Hacc & Ht). rewrite Hdrop. cbn [token_loop].
    rewrite (test_unflagged tok u σ (Hflags _ _ Htok)), Hacc.
    unfold transformed_units in Ht.
    assert (Hnext : exists c1,
              match Utf16.transform tok with
              | Some f =>
                  match f u with
                  | Normal s => (Continue (result c ++ s) (S (valueIndex c)), σ)
                  | Throw e => (Raise e, σ)
                  end
              | None => (Continue (result c ++ [u]) (S (valueIndex c)), σ)
              end = (Continue (result c1) (valueIndex c1), σ)
              /\ result c1 = done ++ [u] /\ valueIndex c1 = S (length done)
              /\ isOptional c1 = isOptional c).
    { exists {| result := done ++ [u]; valueIndex := S (length done);
                isOptional := isOptional c |}.
      destruct (Utf16.transform tok) as [f|]; [rewrite Ht|]; by rewrite Hres, Hvi. }
    destruct Hnext as (c1 & -> & Hres1 & Hvi1 & Ho1).
    destruct (IH Hq Hone (done ++ [u])
                {| result := result c1; valueIndex := valueIndex c1;
                   isOptional := isOptional c |} σ) as (c' & Hloop & Hvalue); cbn.
    + by rewrite <- app_assoc.
    + done.
    + rewrite length_app, Hvi1. simpl. lia.
    + by exists c'.
  - rewrite (Hliteral eq_refl), Hlook. cbn [fmap option_fmap option_map].
    rewrite decide_True by done.
    apply (IH Hq Hone (done ++ [u])); cbn.
    + by rewrite <- app_assoc.
    + by rewrite Hres.
    + rewrite length_app, Hvi. simpl. lia.
Qed.

(** Where mask idempotence holds: patterns without the flags [g] and [y]
    and a template without surrogate pairs. *)
Lemma processValue_conforming_units value template (tokens : tokens_t) options σ :
  unflagged tokens -> single_units template ->
  conforms_units tokens template value ->
  processValue value template tokens options σ = (Normal (Some value), σ).
Proof.
  intros Hflags Hone [Hq Hfit]. unfold processValue.
  destruct (mask_loop_conforming_units value tokens options _ _ Hflags Hq Hone Hfit []
              start_cursor σ) as (c' & -> & Hres); [by rewrite concat_code_points|done..|].
  by rewrite Hres.
Qed.

(** The default tokens. *)
Lemma unflagged_DEFAULT_TOKENS : unflagged DEFAULT_TOKENS.
Proof.
  intros maskChar tok Htok%elem_of_list_to_map_2.
  repeat (apply elem_of_cons in Htok as [[= _ ->]|Htok]; [done|]).
  by apply elem_of_nil in Htok.
Qed.

Lemma is_alnum_ascii u : is_alnum u = true -> (u < 128)%N.
Proof.
  unfold is_alnum, is_letter, is_lower, is_upper, is_digit, in_range.
  change (code "a") with 97%N. change (code "z") with 122%N.
  change (code "A") with 65%N. change (code "Z") with 90%N.
  change (code "0") with 48%N. change (code "9") with 57%N.
  rewrite !orb_true_iff, !andb_true_iff, !N.leb_le. lia.
Qed.

Lemma is_hex_alnum u : is_hex u = true -> is_alnum u = true.
Proof.
  unfold is_hex, is_alnum, is_letter, is_lower, is_upper, is_digit, in_range.
  change (code "a") with 97%N. change (code "z") with 122%N.
  change (code "A") with 65%N. change (code "Z") with 90%N.
  change (code "0") with 48%N. change (code "9") with 57%N.
  change (code "f") with 102%N. change (code "F") with 70%N.
  rewrite !orb_true_iff, !andb_true_iff, !N.leb_le. lia.
Qed.

Lemma settled_units_token_spec tok :
  (forall u, accepts tok u = true -> (u < 128)%N) ->
  settled_units_token tok = true ->
  forall u, accepts tok u = true ->
    exists u', transformed_units tok u = Normal [u']
               /\ accepts tok u' = true
               /\ transformed_units tok u' = Normal [u'].
Proof.
  intros Hascii. unfold settled_units_token. rewrite forallb_forall. intros H u Hacc.
  assert (Hin : In u (N.of_nat <$> seq 0 128)).
  { apply list_elem_of_In, list_elem_of_fmap. exists (N.to_nat u).
    split; [by rewrite N2Nat.id|]. apply elem_of_seq. specialize (Hascii u Hacc). lia. }
  specialize (H u Hin). rewrite Hacc in H. simpl in H.
  destruct (transformed_units tok u) as [[|u' [|? ?]]|]; try done.
  apply andb_true_iff in H as [H1 H2]. exists u'. split; [done|]. split; [done|].
  destruct (transformed_units tok u') as [[|u'' [|? ?]]|]; try done.
  by apply N.eqb_eq in H2 as ->.
Qed.

Lemma accepts_token identity A t u : accepts (token identity A t) u = A u.
Proof. unfold accepts, token, class. simpl. by destruct (A u). Qed.

Lemma settled_units_DEFAULT_TOKENS : settled_units DEFAULT_TOKENS.
Proof.
  intros maskChar tok u Htok. revert u. revert Htok.
  unfold DEFAULT_TOKENS. intros Htok%elem_of_list_to_map_2.
  repeat (apply elem_of_cons in Htok as [[= _ ->]|Htok];
          [apply settled_units_token_spec;
           [intros u; rewrite accepts_token; intros Hu; apply is_alnum_ascii;
            first [exact Hu | by apply is_hex_alnum
                  | unfold is_alnum; by rewrite Hu
                  | unfold is_alnum; rewrite Hu; by rewrite orb_true_r]
           | by vm_compute]|]).
  by apply elem_of_nil in Htok.
Qed.

(** The whole loop while optional mode is off: when it returns, it returns
    the [autoClear] answer or raises. *)
Lemma mask_loop_units value (tokens : tokens_t) options chars : forall c σ,
  unflagged tokens -> units "?" ∉ chars -> isOptional c = false ->
  match mask_loop value tokens options chars c σ with
  | (Stop r, σ') =>
      σ' = σ /\ (r = Normal (clear_or_null options) \/ exists e, r = Throw e)
  | (Next c', σ') => σ' = σ /\ isOptional c' = false
  end.
Proof.
  induction chars as [|maskChar p IH]; intros c σ Hflags Hq Ho; cbn [mask_loop]; [done|].
  apply not_elem_of_cons in Hq as [Hne Hq].
  pose proof (mask_step_units value tokens options maskChar c σ Hflags Ho
                (not_eq_sym Hne)) as Hstep.
  destruct (mask_step _ _ _ _ _ _) as [[r|c1] σ1]; [done|].
  destruct Hstep as (-> & Ho1 & _). by apply IH.
Qed.

(** X7.  Masking is idempotent where the template holds no surrogate pair
    and no pattern has the flag [g] or [y]: for settled tokens, a template
    without marker returns its own result unchanged. *)
Theorem processValue_idempotent value template (tokens : tokens_t) options σ σ' out :
  unflagged tokens -> settled_units tokens ->
  units "?" ∉ code_points template -> single_units template ->
  processValue value template tokens options σ = (Normal (Some out), σ') ->
  forall σ'', processValue out template tokens options σ'' = (Normal (Some out), σ'').
Proof.
  intros Hflags Hs Hq Hone Hout σ''. unfold processValue in Hout.
  pose proof (mask_loop_units value tokens options (code_points template) start_cursor σ
                Hflags Hq eq_refl) as Hloop.
  destruct (mask_loop value tokens options (code_points template) start_cursor σ)
    as [[r|c'] σ1] eqn:E.
  - injection Hout as -> ->. destruct Hloop as [_ [Hclear|[e ?]]]; [|done].
    injection Hclear as Hclear. unfold clear_or_null in Hclear.
    destruct (truthy (autoClear options)) eqn:Hac; [|done]. injection Hclear as ->.
    unfold processValue. destruct (code_points template) as [|maskChar p]; [done|].
    cbn [mask_loop]. unfold mask_step. cbn. unfold clear_or_null. by rewrite Hac.
  - injection Hout as <- <-.
    destruct (mask_loop_fits_units value tokens options _ start_cursor c' σ σ1
                Hflags Hs Hq eq_refl E) as (_ & outs & Hres & Hfits).
    simpl in Hres. rewrite Hres. unfold processValue.
    destruct (mask_loop_conforming_units (concat outs) tokens options _ outs Hflags Hq
                Hone Hfits [] start_cursor σ'') as (c2 & -> & Hres2); [done..|].
    by rewrite Hres2.
Qed.

Lemma processValue_idempotent_witness :
  processValue (units "DE:AD:BE:EF:00:01") (units "XX:XX:XX:XX:XX:XX")
    DEFAULT_TOKENS (only_autoClear None) {[ 6 := 1 ]}
  = (Normal (Some (units "DE:AD:BE:EF:00:01")), {[ 6 := 1 ]}).
Proof.
  refine (processValue_idempotent (units "de:ad:be:ef:00:01") (units "XX:XX:XX:XX:XX:XX")
            DEFAULT_TOKENS (only_autoClear None) ∅ ∅ (units "DE:AD:BE:EF:00:01")
            _ _ _ _ _ {[ 6 := 1 ]}).
  - apply unflagged_DEFAULT_TOKENS.
  - apply settled_units_DEFAULT_TOKENS.
  - apply (bool_decide_unpack _). vm_compute. exact I.
  - unfold single_units. apply (bool_decide_unpack _). vm_compute. exact I.
  - vm_compute. reflexivity.
Defined.

End CodeUnits.

(** ** The Latin-1 embedding as a restriction

    On Latin-1 strings, with tokens that are predicates and transforms that
    do not raise, [Utf16.processValue] is [InputMask.processValue]. *)

Section Restriction.

Implicit Types (σ : Utf16.Store).

Lemma code_inj : Inj (=) (=) code.
Proof.
  intros a b H. unfold code in H.
  by rewrite <- (ascii_N_embedding a), <- (ascii_N_embedding b), H.
Qed.

#[local] Instance as_units_inj : Inj (=) (=) as_units.
Proof. pose proof code_inj. unfold as_units. apply _. Qed.

Lemma code_bounded (a : ascii) : (code a < 256)%N.
Proof. apply N_ascii_bounded. Qed.

Lemma code_points_as_units (s : list ascii) :
  Utf16.code_points (as_units s) = (fun a => [code a]) <$> s.
Proof.
  induction s as [|a s IH]; [done|]. destruct s as [|b s]; [done|].
  change (as_units (a :: b :: s)) with (code a :: code b :: as_units s).
  rewrite code_points_cons.
  assert (Utf16.is_leading (code a) = false) as ->.
  { unfold Utf16.is_leading. pose proof (code_bounded a).
    rewrite (proj2 (N.leb_gt _ _)); [done | lia]. }
  cbn [andb]. rewrite (fmap_cons _ a). f_equal. exact IH.
Qed.

Lemma lookup_as_units_tokens (tokens : gmap (list ascii) MaskToken) (a : ascii) :
  as_units_tokens tokens !! [code a] = as_units_token <$> tokens !! [a].
Proof.
  unfold as_units_tokens. change [code a] with (as_units [a]).
  etrans; [|apply lookup_fmap].
  apply (lookup_kmap (M1:=gmap (list ascii)) (M2:=gmap (list Utf16.CodeUnit)) as_units
           (as_units_token <$> tokens) [a]).
Qed.

Lemma accepts_as_units tok (a : ascii) :
  accepts (as_units_token tok) (code a) = pattern tok a.
Proof.
  unfold accepts, as_units_token, Utf16.class. cbn.
  rewrite (proj2 (N.ltb_lt _ _) (code_bounded a)). unfold code.
  rewrite ascii_N_embedding. by destruct (pattern tok a).
Qed.

Lemma clear_or_null_as_units (o : MaskOptions) :
  Utf16.clear_or_null (as_units_options o) = as_units <$> InputMask.clear_or_null o.
Proof.
  unfold Utf16.clear_or_null, InputMask.clear_or_null.
  cbn [Utf16.autoClear as_units_options]. by destruct (truthy (autoClear o)).
Qed.

Lemma token_loop_as_units tok (o : MaskOptions) opt (pending : list ascii) σ :
  forall vi (res : list ascii),
    Utf16.token_loop (as_units_token tok) (as_units_options o) opt (as_units pending) vi
      (as_units res) σ
    = (as_units_flow (InputMask.token_loop tok o opt pending vi res), σ).
Proof.
  induction pending as [|a pending IH]; intros vi res; [done|].
  change (as_units (a :: pending)) with (code a :: as_units pending).
  cbn [Utf16.token_loop InputMask.token_loop].
  rewrite (test_unflagged (as_units_token tok) (code a) σ eq_refl), accepts_as_units.
  destruct (pattern tok a).
  - unfold InputMask.transformed. cbn [Utf16.transform as_units_token].
    destruct (transform tok) as [f|]; cbn.
    + unfold code at 1. rewrite ascii_N_embedding. unfold as_units. by rewrite fmap_app.
    + unfold as_units. by rewrite fmap_app.
  - destruct opt; cbn; [apply IH|]. by rewrite clear_or_null_as_units.
Qed.

Lemma mask_step_as_units (value : list ascii) (tokens : gmap (list ascii) MaskToken)
    (o : MaskOptions) (a : ascii) (c : InputMask.Cursor) σ :
  Utf16.mask_step (as_units value) (as_units_tokens tokens) (as_units_options o) [code a]
    (as_units_cursor c) σ
  = (as_units_step (InputMask.mask_step value tokens o a c), σ).
Proof.
  unfold Utf16.mask_step, InputMask.mask_step. unfold as_units at 1. rewrite length_fmap.
  cbn [Utf16.valueIndex Utf16.isOptional Utf16.result as_units_cursor].
  destruct (_ <=? _).
  { cbn. destruct (InputMask.isOptional c); [done|]. by rewrite clear_or_null_as_units. }
  destruct (Ascii.eqb_spec a "?") as [->|Hne].
  { by rewrite bool_decide_eq_true_2. }
  rewrite bool_decide_eq_false_2.
  2:{ intros H. change (as_units [a] = as_units ["?"%char]) in H.
      apply (inj as_units) in H. by injection H. }
  rewrite lookup_as_units_tokens. destruct (tokens !! [a]) as [tok|]; cbn [fmap option_fmap option_map].
  - unfold as_units at 1. rewrite <- fmap_drop. fold (as_units (drop (InputMask.valueIndex c) value)).
    rewrite token_loop_as_units. by destruct (InputMask.token_loop _ _ _ _ _ _).
  - cbn [as_units_step]. unfold as_units_cursor at 1. cbn [InputMask.result InputMask.valueIndex
      InputMask.isOptional]. f_equal. f_equal. f_equal.
    + unfold as_units. by rewrite fmap_app.
    + unfold as_units. rewrite list_lookup_fmap.
      destruct (value !! InputMask.valueIndex c) as [b|]; cbn.
      * destruct (decide (b = a)) as [->|Hdiff].
        -- by rewrite !decide_True.
        -- rewrite !decide_False; [done | congruence|].
           intros [= H]. by apply code_inj in H.
      * by rewrite !decide_False.
Qed.

Lemma mask_loop_as_units (value : list ascii) (tokens : gmap (list ascii) MaskToken)
    (o : MaskOptions) (template : list ascii) σ : forall (c : InputMask.Cursor),
  Utf16.mask_loop (as_units value) (as_units_tokens tokens) (as_units_options o)
    ((fun a => [code a]) <$> template) (as_units_cursor c) σ
  = (as_units_step (InputMask.mask_loop value tokens o template c), σ).
Proof.
  induction template as [|a template IH]; intros c; [done|].
  rewrite fmap_cons. cbn [Utf16.mask_loop InputMask.mask_loop]. rewrite mask_step_as_units.
  destruct (InputMask.mask_step _ _ _ _ _) as [r|c1]; [done|]. apply IH.
Qed.

(** The Latin-1 embedding of [processValue] is the restriction of the one
    over code units. *)
Lemma processValue_as_units (value template : list ascii)
    (tokens : gmap (list ascii) MaskToken) (o : MaskOptions) σ :
  Utf16.processValue (as_units value) (as_units template) (as_units_tokens tokens)
    (as_units_options o) σ
  = (Normal (as_units <$> InputMask.processValue value template tokens o), σ).
Proof.
  unfold Utf16.processValue, InputMask.processValue. rewrite code_points_as_units.
  change Utf16.start_cursor with (as_units_cursor InputMask.start_cursor).
  rewrite mask_loop_as_units. by destruct (InputMask.mask_loop _ _ _ _ _).
Qed.

End Restriction.
